(** * Events batcher of the sync library (data/source/sync/lib/filters/batcher.go)

    A shallow embedding of [EventsBatcher]: the selector loop [BatchEvents],
    the batch construction [ProcessEvents] and the batch filter [FilterBatch].

    Go maps are [gmap]s; [*BatchedEvent] pointers are addresses into an explicit
    heap, so that the aliasing between [CreateFiles], [FileMoves],
    [RefreshFilesUuid] and the candidate moves is kept; the [LoadNode] probes and
    the order in which [range] walks a map are answered by an external world
    threaded through a state monad; a nil dereference is the result [Panic].
    The log statements are left out: they are taken to have no effect on the
    batch. *)

From Stdlib Require Import ZArith Lia Ascii String List.
From stdpp Require Import gmap strings list fin_maps.

Open Scope string_scope.

(** ** The parts of Go's [strings] and [path] packages that the batcher uses *)

Module strings.

(** strings.HasPrefix(s, prefix) *)
Definition HasPrefix (s prefix : string) : bool := String.prefix prefix s.

Fixpoint drop (n : nat) (s : string) : string :=
  match n, s with
  | O, _ => s
  | S n', String _ s' => drop n' s'
  | S _, EmptyString => EmptyString
  end.

(** strings.TrimPrefix(s, prefix): [s] without the leading [prefix], or [s]
    itself when it does not start with it. *)
Definition TrimPrefix (s prefix : string) : string :=
  if HasPrefix s prefix then drop (String.length prefix) s else s.

End strings.

Module path.

Definition slash : ascii := "/"%char.

Fixpoint dropSlashes (l : list ascii) : list ascii :=
  match l with
  | c :: l' => if Ascii.eqb c slash then dropSlashes l' else l
  | [] => []
  end.

Fixpoint upToSlash (l : list ascii) : list ascii :=
  match l with
  | c :: l' => if Ascii.eqb c slash then [] else c :: upToSlash l'
  | [] => []
  end.

(** path.Base: the last element of the path, trailing slashes removed; "."
    for the empty path and "/" for a path made of slashes only. *)
Definition Base (p : string) : string :=
  if String.eqb p "" then "."
  else
    let stripped := dropSlashes (rev (list_ascii_of_string p)) in
    match rev (upToSlash stripped) with
    | [] => "/"
    | b => string_of_list_ascii b
    end.

End path.

(** ** Nodes, events and endpoints *)

Module tree.

(** Modelled from the spec: the [tree.Node] message is declared outside the
    batcher; the fields are those the data model lists. [IsLeaf] is the
    accessor the filter calls. *)
Record Node := mkNode {
  Uuid : string;
  Path : string;
  Etag : string;
  Leaf : bool;
  Size : Z;
  MTime : Z
}.

Definition IsLeaf (n : Node) : bool := Leaf n.

End tree.

Module common.

(** Modelled from the spec: the event types of [common.EventInfo]. *)
Inductive EventType := EventCreate | EventRename | EventRemove.

Definition EventType_eqb (a b : EventType) : bool :=
  match a, b with
  | EventCreate, EventCreate | EventRename, EventRename
  | EventRemove, EventRemove => true
  | _, _ => false
  end.

(** Modelled from the spec: [common.EventInfo], with the fields the batcher
    reads. [Metadata] is a Go map: a missing key reads as the empty string. *)
Record EventInfo := mkEventInfo {
  Type_ : EventType;
  Path : string;
  Folder : bool;
  ScanEvent : bool;
  ScanSourceNode : option tree.Node;
  OperationId : string;
  Metadata : gmap string string
}.

(** The two endpoints of a sync, [ev.Source] and [ev.Target]. *)
Inductive Endpoint := SourceEndpoint | TargetEndpoint.

(** Modelled from the spec: the constant [PYDIO_SYNC_HIDDEN_FILE_META] of the
    [common] package at the root, the reserved name of the hidden per-folder
    metadata file. *)
Definition PYDIO_SYNC_HIDDEN_FILE_META : string := ".pydio".

End common.

(** A Go [error] value; [None] is the nil error. *)
Definition error := option string.

(** ** Batches *)

(** A [*BatchedEvent] is an address in the heap of batched events. *)
Definition ptr := nat.

Record BatchedEvent := mkBatchedEvent {
  Source : common.Endpoint;
  Target : common.Endpoint;
  Key : string;
  EventInfo : common.EventInfo;
  Node : option tree.Node
}.

(** Modelled from the spec: the [Batch] struct, the keyed collections of the
    data model holding [*BatchedEvent]s, and the session provider slot named by
    the disabled block of [ProcessEvents]. *)
Record Batch := mkBatch {
  CreateFiles : gmap string ptr;
  CreateFolders : gmap string ptr;
  Deletes : gmap string ptr;
  FileMoves : gmap string ptr;
  RefreshFilesUuid : gmap string ptr;
  SessionProvider : option common.Endpoint
}.

(** Modelled from the spec: [NewBatch], a constructor yielding empty
    collections. *)
Definition NewBatch : Batch := mkBatch ∅ ∅ ∅ ∅ ∅ None.

Record Move := mkMove {
  deleteEvent : ptr;
  createEvent : ptr;
  dbNode : tree.Node
}.

(** One call of [LoadNode]: the endpoint, the path and the optional leaf hint. *)
Definition Probe : Type := common.Endpoint * string * option bool.

(** ** Results *)

Inductive result (A : Type) : Type :=
| Ok (a : A)
| Panic (msg : string).
Arguments Ok {A} a.
Arguments Panic {A} msg.

(** ** The state of one run of the filter

    [world] answers the probes and picks iteration orders, [probes] logs the
    [LoadNode] calls made so far, [heap] holds the batched events, [batch] is
    the [*Batch] being filtered, [possibleMoves] and [deleteDelete] are the two
    local slices of [FilterBatch], and [sent] logs the types of the
    [ProcessorEvent]s handed to [sendEvent]. *)
Record St (World : Type) := mkSt {
  world : World;
  probes : list Probe;
  heap : gmap ptr BatchedEvent;
  batch : Batch;
  possibleMoves : list Move;
  deleteDelete : list string;
  sent : list string
}.
Arguments mkSt {World}.
Arguments world {World}.
Arguments probes {World}.
Arguments heap {World}.
Arguments batch {World}.
Arguments possibleMoves {World}.
Arguments deleteDelete {World}.
Arguments sent {World}.

Definition setCreateFiles (m : gmap string ptr) (b : Batch) : Batch :=
  mkBatch m (CreateFolders b) (Deletes b) (FileMoves b) (RefreshFilesUuid b)
          (SessionProvider b).
Definition setCreateFolders (m : gmap string ptr) (b : Batch) : Batch :=
  mkBatch (CreateFiles b) m (Deletes b) (FileMoves b) (RefreshFilesUuid b)
          (SessionProvider b).
Definition setDeletes (m : gmap string ptr) (b : Batch) : Batch :=
  mkBatch (CreateFiles b) (CreateFolders b) m (FileMoves b) (RefreshFilesUuid b)
          (SessionProvider b).
Definition setFileMoves (m : gmap string ptr) (b : Batch) : Batch :=
  mkBatch (CreateFiles b) (CreateFolders b) (Deletes b) m (RefreshFilesUuid b)
          (SessionProvider b).
Definition setRefreshFilesUuid (m : gmap string ptr) (b : Batch) : Batch :=
  mkBatch (CreateFiles b) (CreateFolders b) (Deletes b) (FileMoves b) m
          (SessionProvider b).

Definition withNode (n : option tree.Node) (e : BatchedEvent) : BatchedEvent :=
  mkBatchedEvent (Source e) (Target e) (Key e) (EventInfo e) n.

Section Filter.

Context {World : Type}.

(** [ev.Source.LoadNode] and [ev.Target.LoadNode]: an endpoint answers a
    probe for a path, with an optional leaf hint, by a node (or nil) and an
    error (or nil), and the world moves on. *)
Variable LoadNode :
  common.Endpoint -> World -> string -> option bool ->
  (option tree.Node * error) * World.

(** The order in which one [range] statement walks the keys of a map. Go
    leaves it unspecified; the world picks it. *)
Variable rangeOrder : World -> list string -> list string * World.

#[local] Abbreviation State := (St World).

Definition M (A : Type) : Type := State -> result (A * State).

Definition ret {A} (a : A) : M A := fun st => Ok (a, st).

Definition bind {A B} (c : M A) (k : A -> M B) : M B :=
  fun st =>
    match c st with
    | Ok (a, st') => k a st'
    | Panic msg => Panic msg
    end.

Definition panic {A} (msg : string) : M A := fun _ => Panic msg.

Definition gets {A} (f : State -> A) : M A := fun st => Ok (f st, st).

Definition modify (f : State -> State) : M unit := fun st => Ok (tt, f st).

#[local] Instance M_ret : MRet M := @ret.
#[local] Instance M_bind : MBind M := fun A B k c => bind c k.

Fixpoint forM {A} (l : list A) (body : A -> M unit) : M unit :=
  match l with
  | [] => ret tt
  | x :: l' => bind (body x) (fun _ => forM l' body)
  end.

(** A computation keeps a property of the batch when every run that returns
    from a state whose batch has it ends in a state whose batch has it; it
    keeps the batch when it returns it as it found it. *)
Definition preserves {A} (P : Batch -> Prop) (c : M A) : Prop :=
  forall (st st' : State) (a : A),
    P (batch st) -> c st = Ok (a, st') -> P (batch st').

Definition keepsBatch {A} (c : M A) : Prop :=
  forall (st st' : State) (a : A), c st = Ok (a, st') -> batch st' = batch st.

Definition modifyBatch (f : Batch -> Batch) : M unit :=
  modify (fun st =>
    mkSt (world st) (probes st) (heap st) (f (batch st)) (possibleMoves st)
         (deleteDelete st) (sent st)).

(** Reading a field through a [*BatchedEvent]. *)
Definition deref (p : ptr) : M BatchedEvent :=
  fun st =>
    match heap st !! p with
    | Some e => Ok (e, st)
    | None => Panic "nil pointer dereference: *BatchedEvent"
    end.

(** [p.Node = n] *)
Definition setNode (p : ptr) (n : option tree.Node) : M unit :=
  modify (fun st =>
    mkSt (world st) (probes st) (alter (withNode n) p (heap st)) (batch st)
         (possibleMoves st) (deleteDelete st) (sent st)).

(** One call of [LoadNode] on an endpoint. *)
Definition probe (ep : common.Endpoint) (path : string) (hint : option bool)
  : M (option tree.Node * error) :=
  fun st =>
    let '(r, w) := LoadNode ep (world st) path hint in
    Ok (r, mkSt w (probes st ++ [(ep, path, hint)]) (heap st) (batch st)
                (possibleMoves st) (deleteDelete st) (sent st)).

(** [ev.sendEvent(common.ProcessorEvent{Type: t, Data: batch})]: the type of
    the event is recorded. The registered channels are taken to be open and
    read; a send that blocks, or that panics on a closed channel, is not
    modelled. *)
Definition sendEvent (t : string) : M unit :=
  modify (fun st =>
    mkSt (world st) (probes st) (heap st) (batch st) (possibleMoves st)
         (deleteDelete st) (sent st ++ [t])).

(** *** [for k, v := range m]

    The keys are taken when the loop starts, in the order the world picks;
    an entry removed before the loop reaches it is not produced. *)
Definition rangeKeys (sel : Batch -> gmap string ptr) : M (list string) :=
  fun st =>
    let '(ks, w) := rangeOrder (world st) (map fst (map_to_list (sel (batch st)))) in
    Ok (ks, mkSt w (probes st) (heap st) (batch st) (possibleMoves st)
                 (deleteDelete st) (sent st)).

Definition visit (sel : Batch -> gmap string ptr)
           (body : string -> ptr -> M unit) (k : string) : M unit :=
  o ← gets (fun st => sel (batch st) !! k);
  match o with
  | Some p => body k p
  | None => ret tt
  end.

Definition range (sel : Batch -> gmap string ptr)
           (body : string -> ptr -> M unit) : M unit :=
  ks ← rangeKeys sel; forM ks (visit sel body).

(** *** Phases 1 and 2: the nodes of the creates (lines 68-109) *)

Definition hasScanNode (e : BatchedEvent) : bool :=
  common.ScanEvent (EventInfo e) &&
  match common.ScanSourceNode (EventInfo e) with Some _ => true | None => false end.

Definition loadCreateNode (hint : option bool) (e : BatchedEvent)
  : M (option tree.Node * error) :=
  if hasScanNode e then ret (common.ScanSourceNode (EventInfo e), None)
  else probe common.SourceEndpoint (common.Path (EventInfo e)) hint.

Definition deleteCreateFiles (k : string) : M unit :=
  modifyBatch (fun b => setCreateFiles (delete k (CreateFiles b)) b).
Definition deleteCreateFolders (k : string) : M unit :=
  modifyBatch (fun b => setCreateFolders (delete k (CreateFolders b)) b).
Definition deleteDeletes (k : string) : M unit :=
  modifyBatch (fun b => setDeletes (delete k (Deletes b)) b).
Definition putFileMoves (k : string) (p : ptr) : M unit :=
  modifyBatch (fun b => setFileMoves (<[k := p]> (FileMoves b)) b).
Definition putRefreshFilesUuid (k : string) (p : ptr) : M unit :=
  modifyBatch (fun b => setRefreshFilesUuid (<[k := p]> (RefreshFilesUuid b)) b).

(** The body of the loop over [batch.CreateFiles]. The node is read for its
    uuid on the no-error branch whether or not the probe gave one. *)
Definition enrichCreateFile (_ : string) (createEvent : ptr) : M unit :=
  e ← deref createEvent;
  '(node, err) ← loadCreateNode None e;
  match err with
  | Some _ =>
      deleteCreateFiles (Key e);;
      deleteDeletes (Key e)
  | None =>
      setNode createEvent node;;
      match node with
      | None => panic "nil pointer dereference: node.Uuid"
      | Some n =>
          if String.eqb (tree.Uuid n) "" &&
             negb (String.eqb (path.Base (tree.Path n))
                              common.PYDIO_SYNC_HIDDEN_FILE_META)
          then putRefreshFilesUuid (Key e) createEvent
          else ret tt
      end
  end.

(** The body of the loop over [batch.CreateFolders]; the probe carries the
    hint [false]. *)
Definition enrichCreateFolder (_ : string) (createEvent : ptr) : M unit :=
  e ← deref createEvent;
  '(node, err) ← loadCreateNode (Some false) e;
  match err with
  | Some _ =>
      deleteCreateFolders (Key e);;
      deleteDeletes (Key e)
  | None => setNode createEvent node
  end.

(** *** Phase 4: file moves (lines 113-180) *)

Definition sameUuid (c : BatchedEvent) (dbNode : tree.Node) : bool :=
  match Node c with
  | Some n => String.eqb (tree.Uuid n) (tree.Uuid dbNode)
  | None => false
  end.

Definition sameEtag (c : BatchedEvent) (dbNode : tree.Node) : bool :=
  match Node c with
  | Some n => String.eqb (tree.Etag n) (tree.Etag dbNode)
  | None => false
  end.

(** "Look by UUID first": the loop over [batch.CreateFiles] that stops at the
    first create whose node carries the uuid of [dbNode]; the result is
    [found]. *)
Fixpoint lookByUuid (deleteKey : string) (dbNode : tree.Node) (ks : list string)
  : M bool :=
  match ks with
  | [] => ret false
  | k :: ks' =>
      o ← gets (fun st => CreateFiles (batch st) !! k);
      match o with
      | None => lookByUuid deleteKey dbNode ks'
      | Some createEvent =>
          c ← deref createEvent;
          if sameUuid c dbNode then
            setNode createEvent (Some dbNode);;
            putFileMoves (Key c) createEvent;;
            deleteDeletes deleteKey;;
            deleteCreateFiles (Key c);;
            ret true
          else lookByUuid deleteKey dbNode ks'
      end
  end.

Definition appendPossibleMove (m : Move) : M unit :=
  modify (fun st =>
    mkSt (world st) (probes st) (heap st) (batch st) (possibleMoves st ++ [m])
         (deleteDelete st) (sent st)).

(** "Look by Etag": the body of the second loop over [batch.CreateFiles]. *)
Definition lookByEtag (deleteEvent : ptr) (dbNode : tree.Node)
           (_ : string) (createEvent : ptr) : M unit :=
  c ← deref createEvent;
  if sameEtag c dbNode
  then appendPossibleMove (mkMove deleteEvent createEvent dbNode)
  else ret tt.

Definition hasKey (sel : Batch -> gmap string ptr) (k : string) : M bool :=
  gets (fun st => match sel (batch st) !! k with Some _ => true | None => false end).

(** The node of a delete: the one the event carries, or else the one the
    target holds at the path of the event; the error of the probe is dropped. *)
Definition loadDeleteNode (d : BatchedEvent) : M (option tree.Node) :=
  match Node d with
  | Some n => ret (Some n)
  | None =>
      '(n, _) ← probe common.TargetEndpoint (common.Path (EventInfo d)) None;
      ret n
  end.

(** The body of the loop over [batch.Deletes]. *)
Definition detectFileMove (_ : string) (deleteEvent : ptr) : M unit :=
  d ← deref deleteEvent;
  dbNode ← loadDeleteNode d;
  match dbNode with
  | Some n =>
      setNode deleteEvent (Some n);;
      if tree.IsLeaf n then
        ks ← rangeKeys CreateFiles;
        found ← lookByUuid (Key d) n ks;
        if (found : bool) then ret tt
        else range CreateFiles (lookByEtag deleteEvent n)
      else ret tt
  | None =>
      createFileExists ← hasKey CreateFiles (Key d);
      createFolderExists ← hasKey CreateFolders (Key d);
      (if createFileExists || createFolderExists then
         let testLeaf := createFileExists in
         '(existNode, _) ← probe common.SourceEndpoint
                                 (common.Path (EventInfo d)) (Some testLeaf);
         match existNode with
         | None =>
             (if createFileExists then deleteCreateFiles (Key d) else ret tt);;
             (if createFolderExists then deleteCreateFolders (Key d) else ret tt)
         | Some _ => ret tt
         end
       else ret tt);;
      deleteDeletes (Key d)
  end.

(** *** Phase 5: the moves picked by [sortClosestMoves] (lines 182-189) *)

Definition commitMove (move : Move) : M unit :=
  c ← deref (createEvent move);
  setNode (createEvent move) (Some (dbNode move));;
  putFileMoves (Key c) (createEvent move);;
  d ← deref (deleteEvent move);
  deleteDeletes (Key d);;
  deleteCreateFiles (Key c).

(** *** Phase 6: pruning the deletes (lines 191-205) *)

(** [p.Node.Path] *)
Definition nodePath (p : ptr) : M string :=
  e ← deref p;
  match Node e with
  | Some n => ret (tree.Path n)
  | None => panic "nil pointer dereference: Node.Path"
  end.

Definition appendDeleteDelete (k : string) : M unit :=
  modify (fun st =>
    mkSt (world st) (probes st) (heap st) (batch st) (possibleMoves st)
         (deleteDelete st ++ [k]) (sent st)).

(** [len(from) > len(deletePath) && strings.HasPrefix(from, deletePath)] *)
Definition isUnder (from deletePath : string) : bool :=
  Nat.ltb (String.length deletePath) (String.length from) &&
  strings.HasPrefix from deletePath.

Definition pruneInner (deletePath : string) (deleteKey : string) (delEvent : ptr)
  : M unit :=
  from ← nodePath delEvent;
  if isUnder from deletePath then appendDeleteDelete deleteKey else ret tt.

Definition pruneOuter (_ : string) (folderDeleteEvent : ptr) : M unit :=
  deletePath ← nodePath folderDeleteEvent;
  range Deletes (pruneInner deletePath).

Definition pruneDeletes : M unit :=
  modify (fun st =>
    mkSt (world st) (probes st) (heap st) (batch st) (possibleMoves st) [] (sent st));;
  range Deletes pruneOuter;;
  dd ← gets deleteDelete;
  forM dd deleteDeletes.

(** *** The two helpers that live outside batcher.go, as the spec describes them *)

(** Modelled from the spec: the folder move detector, [detectFolderMoves],
    with the uuid rule alone. For each delete whose node resolves on the target
    to a folder, the create-folder entries whose node has the same uuid are
    looked up; on a unique match the create is recorded in [FileMoves] with the
    target-side node and both entries leave [Deletes] and [CreateFolders]. *)
Definition detectFolderMove_spec (_ : string) (deleteEvent : ptr) : M unit :=
  d ← deref deleteEvent;
  dbNode ← loadDeleteNode d;
  match dbNode with
  | Some n =>
      if tree.IsLeaf n then ret tt
      else
        candidates ← gets (fun st =>
          List.filter
            (fun kp : string * ptr =>
               match heap st !! kp.2 with
               | Some c => sameUuid c n
               | None => false
               end)
            (map_to_list (CreateFolders (batch st))));
        match candidates : list (string * ptr) with
        | [(_, createEvent)] =>
            c ← deref createEvent;
            setNode createEvent (Some n);;
            putFileMoves (Key c) createEvent;;
            deleteDeletes (Key d);;
            deleteCreateFolders (Key c)
        | _ => ret tt
        end
  | None => ret tt
  end.

Definition detectFolderMoves_spec : M unit := range Deletes detectFolderMove_spec.

(** The directory part of a path: what precedes its last slash. *)
Definition parentDir (p : string) : string :=
  let r := rev (list_ascii_of_string p) in
  string_of_list_ascii (rev (List.skipn (S (length (path.upToSlash r))) r)).

Definition depth (p : string) : nat :=
  length (List.filter (fun c => Ascii.eqb c path.slash) (list_ascii_of_string p)).

(** The edit distance between two names (insertions, deletions and
    substitutions of one character). *)
Fixpoint editDistance (a : list ascii) : list ascii -> nat :=
  match a with
  | [] => fun b => length b
  | x :: a' =>
      fix inner (b : list ascii) : nat :=
        match b with
        | [] => S (length a')
        | y :: b' =>
            if Ascii.eqb x y then editDistance a' b'
            else S (Nat.min (editDistance a' b)
                            (Nat.min (inner b') (editDistance a' b')))
        end
  end.

Definition absDiff (a b : nat) : nat := (a - b) + (b - a).

(** The two paths of a candidate: the path of the target-side node and the
    path of the node attached to the create. *)
Definition movePaths (h : gmap ptr BatchedEvent) (m : Move) : string * string :=
  (tree.Path (dbNode m),
   match h !! createEvent m with
   | Some c => match Node c with Some n => tree.Path n | None => Key c end
   | None => ""
   end).

(** Modelled from the spec: the order of phase 5 on candidates, smaller is
    better: same directory first, then the smaller edit distance between the
    base names, then the smaller difference in depth, then the paths in
    lexicographic order. *)
Definition closer (h : gmap ptr BatchedEvent) (m1 m2 : Move) : bool :=
  let rank (m : Move) :=
    let '(d, c) := movePaths h m in
    ((if String.eqb (parentDir d) (parentDir c) then 0 else 1,
      editDistance (list_ascii_of_string (path.Base d))
                   (list_ascii_of_string (path.Base c))),
     absDiff (depth d) (depth c), d, c) in
  let '(s1, e1, p1, d1, c1) := rank m1 in
  let '(s2, e2, p2, d2, c2) := rank m2 in
  if negb (Nat.eqb s1 s2) then Nat.ltb s1 s2
  else if negb (Nat.eqb e1 e2) then Nat.ltb e1 e2
  else if negb (Nat.eqb p1 p2) then Nat.ltb p1 p2
  else if negb (String.eqb d1 d2) then String.ltb d1 d2
  else String.leb c1 c2.

Fixpoint insertMove (h : gmap ptr BatchedEvent) (m : Move) (l : list Move)
  : list Move :=
  match l with
  | [] => [m]
  | m' :: l' => if closer h m m' then m :: l else m' :: insertMove h m l'
  end.

Fixpoint pickMoves (usedDeletes usedCreates : list ptr) (l : list Move)
  : list Move :=
  match l with
  | [] => []
  | m :: l' =>
      if existsb (Nat.eqb (deleteEvent m)) usedDeletes ||
         existsb (Nat.eqb (createEvent m)) usedCreates
      then pickMoves usedDeletes usedCreates l'
      else m :: pickMoves (deleteEvent m :: usedDeletes)
                          (createEvent m :: usedCreates) l'
  end.

(** Modelled from the spec: [sortClosestMoves], the arbitration of phase 5.
    The candidates are walked from the closest on; one is kept when neither
    its delete nor its create was taken by a closer one. *)
Definition sortClosestMoves_spec (h : gmap ptr BatchedEvent) (possible : list Move)
  : list Move :=
  pickMoves [] [] (fold_right (insertMove h) [] possible).

(** *** [FilterBatch]

    The two helpers of the package that live outside batcher.go are taken as
    they are called: [detectFolderMoves] works on the batch and probes the
    target, [sortClosestMoves] turns the candidate moves into the moves to
    commit. *)
Variable detectFolderMoves : M unit.
Variable sortClosestMoves : gmap ptr BatchedEvent -> list Move -> list Move.

Definition detectFileMoves : M unit :=
  modify (fun st =>
    mkSt (world st) (probes st) (heap st) (batch st) [] (deleteDelete st) (sent st));;
  range Deletes detectFileMove.

Definition commitClosestMoves : M unit :=
  moves ← gets (fun st => sortClosestMoves (heap st) (possibleMoves st));
  forM moves commitMove.

(** Lines 64-109: the start notification and the two loops over the creates. *)
Definition enrichCreates : M unit :=
  sendEvent "filter:start";;
  range CreateFiles enrichCreateFile;;
  range CreateFolders enrichCreateFolder.

(** Lines 113-210: what follows the call of [detectFolderMoves]. *)
Definition resolveMovesAndPrune : M unit :=
  detectFileMoves;;
  commitClosestMoves;;
  pruneDeletes;;
  sendEvent "filter:end".

Definition FilterBatch : M unit :=
  enrichCreates;;
  detectFolderMoves;;
  resolveMovesAndPrune.

(** *** [ProcessEvents] (lines 213-246) *)

(** One turn of the loop over [events]: a fresh [BatchedEvent] at address
    [p], filed under the path of the event. *)
Definition addEvent (p : ptr) (event : common.EventInfo) (st : State) : State :=
  let key := common.Path event in
  let bEvent := mkBatchedEvent common.SourceEndpoint common.TargetEndpoint
                               key event None in
  let b := batch st in
  let b' :=
    if common.EventType_eqb (common.Type_ event) common.EventCreate ||
       common.EventType_eqb (common.Type_ event) common.EventRename
    then
      if common.Folder event
      then setCreateFolders (<[key := p]> (CreateFolders b)) b
      else setCreateFiles (<[key := p]> (CreateFiles b)) b
    else setDeletes (<[key := p]> (Deletes b)) b in
  mkSt (world st) (probes st) (<[p := bEvent]> (heap st)) b' (possibleMoves st)
       (deleteDelete st) (sent st).

Fixpoint addEvents (p : ptr) (events : list common.EventInfo) (st : State) : State :=
  match events with
  | [] => st
  | event :: events' => addEvents (S p) events' (addEvent p event st)
  end.

(** The state in which [ProcessEvents] calls [FilterBatch]. *)
Definition populate (w : World) (events : list common.EventInfo) : State :=
  addEvents 0 events (mkSt w [] ∅ NewBatch [] [] []).

(** The final state holds the batch sent on [ev.batchOut]. [asSession] is a
    parameter of the Go function; its only use is in a block that is commented
    out. *)
Definition ProcessEvents (w : World) (events : list common.EventInfo)
           (asSession : bool) : result (unit * State) :=
  FilterBatch (populate w events).

End Filter.

Arguments ProcessEvents {World} LoadNode rangeOrder detectFolderMoves
  sortClosestMoves w events asSession.

(** ** The selector loop [BatchEvents] (lines 248-297)

    One turn of the [for] loop is one [select]: an event received on [in], a
    session received on [ev.closeSessionChan], or the timer of
    [time.After(duration)], which is created anew by every [select] and fires
    when that [select] has waited [duration] without receiving anything. A
    receive carries the time its [select] waited. Durations are in
    nanoseconds, as [time.Duration] is. *)

Module BatchEvents.

Inductive Select :=
| RecvEvent (waited : Z) (event : common.EventInfo)
| RecvClose (waited : Z) (session : string)
| TimerFired.

(** A [go ev.ProcessEvents(events, asSession)] statement, with the time of
    the loop at which it was executed. *)
Record Spawn := mkSpawn {
  at_ : Z;
  events : list common.EventInfo;
  asSession : bool
}.

(** [batchCache] is [ev.batchCache], [batch] is the local slice of events
    without session, [clock] is the time since the loop started and [started]
    lists the [ProcessEvents] goroutines started so far. *)
Record state := mkState {
  batchCache : gmap string (list common.EventInfo);
  batch : list common.EventInfo;
  clock : Z;
  started : list Spawn
}.

(** [NewEventsBatcher] and [var batch []common.EventInfo]. *)
Definition init : state := mkState ∅ [] 0 [].

(** [event.Metadata["X-Pydio-Session"]] *)
Definition sessionOf (event : common.EventInfo) : string :=
  default "" (common.Metadata event !! "X-Pydio-Session").

(** [ev.batchCache[session]], nil when the key is missing. *)
Definition cached (s : state) (session : string) : list common.EventInfo :=
  default [] (batchCache s !! session).

Definition step (duration : Z) (s : state) (c : Select) : state :=
  match c with
  | RecvEvent waited event =>
      let now := (clock s + waited)%Z in
      let session := sessionOf event in
      if negb (String.eqb session "") then
        if strings.HasPrefix session "close-" then
          let session := strings.TrimPrefix session "close-" in
          let events := (cached s session ++ [event])%list in
          mkState (delete session (batchCache s)) (batch s) now
                  (started s ++ [mkSpawn now events true])
        else
          mkState (<[session := (cached s session ++ [event])%list]> (batchCache s))
                  (batch s) now (started s)
      else if common.ScanEvent event || String.eqb (common.OperationId event) "" then
        mkState (batchCache s) (batch s ++ [event]) now (started s)
      else
        mkState (batchCache s) (batch s) now (started s)
  | RecvClose waited session =>
      let now := (clock s + waited)%Z in
      match batchCache s !! session with
      | Some events =>
          mkState (delete session (batchCache s)) (batch s) now
                  (started s ++ [mkSpawn now events true])
      | None => mkState (batchCache s) (batch s) now (started s)
      end
  | TimerFired =>
      let now := (clock s + duration)%Z in
      if Nat.ltb 0 (length (batch s)) then
        mkState (batchCache s) [] now (started s ++ [mkSpawn now (batch s) false])
      else
        mkState (batchCache s) (batch s) now (started s)
  end.

(** A finite run of the loop. *)
Definition run (duration : Z) (cs : list Select) (s : state) : state :=
  fold_left (step duration) cs s.

End BatchEvents.

(** ** Properties of a filtered batch *)

Definition hasKeyIn (m : gmap string ptr) (k : string) : nat :=
  match m !! k with Some _ => 1 | None => 0 end.

(** In how many of the four collections a key appears. *)
Definition keyCount (b : Batch) (k : string) : nat :=
  hasKeyIn (CreateFiles b) k + hasKeyIn (CreateFolders b) k +
  hasKeyIn (FileMoves b) k + hasKeyIn (Deletes b) k.

(** Invariant B1 of the data model. *)
Definition disjointCollections (b : Batch) : Prop := forall k, keyCount b k <= 1.

(** [FileMoves] and [CreateFiles] share no key. *)
Definition movesApart (b : Batch) : Prop := FileMoves b ##ₘ CreateFiles b.

(** The node of the event filed under [k] in [m]; [None] when the entry is
    missing or its node is nil. *)
Definition nodeAt (h : gmap ptr BatchedEvent) (m : gmap string ptr) (k : string)
  : option tree.Node :=
  match m !! k with
  | Some p => match h !! p with Some e => Node e | None => None end
  | None => None
  end.

(** Invariant B3 of the data model, for one collection: every entry has a
    node. *)
Definition allResolved (h : gmap ptr BatchedEvent) (m : gmap string ptr) : Prop :=
  forall k, is_Some (m !! k) -> is_Some (nodeAt h m k).

(** ** Fixed endpoints, for the examples

    The world is trivial: an endpoint answers a probe by a function of the
    path, and a [range] walks the keys in the order of [map_to_list]. *)

Definition fixedLoadNode (source target : string -> option tree.Node * error)
  : common.Endpoint -> unit -> string -> option bool ->
    (option tree.Node * error) * unit :=
  fun ep w p _ =>
    (match ep with
     | common.SourceEndpoint => source p
     | common.TargetEndpoint => target p
     end, w).

Definition keyOrder (w : unit) (ks : list string) : list string * unit := (ks, w).

(** [ProcessEvents] on fixed endpoints, with the two helpers as the spec
    describes them. *)
Definition processFixed (source target : string -> option tree.Node * error)
           (events : list common.EventInfo) (asSession : bool)
  : result (unit * St unit) :=
  ProcessEvents (fixedLoadNode source target) keyOrder
                (detectFolderMoves_spec (fixedLoadNode source target) keyOrder)
                sortClosestMoves_spec tt events asSession.

(** An event from a watcher: no scan, no operation id, no session. *)
Definition plainEvent (t : common.EventType) (p : string) (folder : bool)
  : common.EventInfo :=
  common.mkEventInfo t p folder false None "" ∅.

(** An event of a session. *)
Definition sessionEvent (t : common.EventType) (p session : string)
  : common.EventInfo :=
  common.mkEventInfo t p false false None "op" {["X-Pydio-Session" := session]}.

Definition leaf (uuid p etag : string) : tree.Node :=
  tree.mkNode uuid p etag true 0 0.

(** An endpoint that holds a file at every path, with the given uuid and etag. *)
Definition everyFile (uuid etag : string) (p : string) : option tree.Node * error :=
  (Some (leaf uuid p etag), None).

(** An endpoint that answers every probe with no node and no error. *)
Definition nothingThere (p : string) : option tree.Node * error := (None, None).

(** An endpoint whose probes all fail. *)
Definition failing (p : string) : option tree.Node * error := (None, Some "not found").

(** An endpoint that holds a file at every path, with a uuid and an etag of
    its own. *)
Definition indexed (p : string) : option tree.Node * error :=
  (Some (leaf ("uuid:" ++ p) p ("etag:" ++ p)), None).

(** The state after a uuid match: the create at [p] carries the node [n] and
    is filed in [FileMoves] under [k]; the entries [dk] of [Deletes] and [k] of
    [CreateFiles] are gone. *)
Definition movedByUuid {World} (st : St World) (dk : string) (n : tree.Node)
           (k : string) (p : ptr) : St World :=
  let b := batch st in
  mkSt (world st) (probes st) (alter (withNode (Some n)) p (heap st))
       (mkBatch (delete k (CreateFiles b)) (CreateFolders b) (delete dk (Deletes b))
                (<[k := p]> (FileMoves b)) (RefreshFilesUuid b) (SessionProvider b))
       (possibleMoves st) (deleteDelete st) (sent st).

(** The state in which the uuid pass for the delete at [p] starts: the delete
    carries its node [n], and the world has picked the order of the pass. *)
Definition deleteResolved {World} (st : St World) (w : World) (p : ptr)
           (n : tree.Node) : St World :=
  mkSt w (probes st) (alter (withNode (Some n)) p (heap st)) (batch st)
       (possibleMoves st) (deleteDelete st) (sent st).

(** Whether the create filed under [k] has a node with the uuid of [n]. *)
Definition uuidMatch {World} (st : St World) (n : tree.Node) (k : string) : bool :=
  match CreateFiles (batch st) !! k with
  | Some p => match heap st !! p with Some c => sameUuid c n | None => false end
  | None => false
  end.

(** No entry of [CreateFiles] is a nil pointer. *)
Definition createsAllocated {World} (st : St World) : Prop :=
  map_Forall (fun _ p => is_Some (heap st !! p)) (CreateFiles (batch st)).

(** The state after a failed probe for the create filed under [k]: one more
    probe in the log, and the batch [b']. *)
Definition afterProbe {World} (st : St World) (w : World) (pr : Probe) (b' : Batch)
  : St World :=
  mkSt w (probes st ++ [pr]) (heap st) b' (possibleMoves st) (deleteDelete st)
       (sent st).

(** ** Reading a run of the selector loop *)

(** The events received on [in] during a run, in the order of arrival. *)
Fixpoint received (cs : list BatchEvents.Select) : list common.EventInfo :=
  match cs with
  | [] => []
  | BatchEvents.RecvEvent _ event :: cs' => event :: received cs'
  | _ :: cs' => received cs'
  end.

(** The events of a run that bear the session tag [tag]. *)
Definition taggedWith (tag : string) (cs : list BatchEvents.Select)
  : list common.EventInfo :=
  List.filter (fun e => String.eqb (BatchEvents.sessionOf e) tag) (received cs).

(** No turn of the run closes the session [tag]: no event bears "close-"
    followed by [tag], and [tag] is not received on [ev.closeSessionChan]. *)
Definition staysOpen (tag : string) (cs : list BatchEvents.Select) : bool :=
  forallb (fun c =>
             match c with
             | BatchEvents.RecvEvent _ e =>
                 negb (String.eqb (BatchEvents.sessionOf e) ("close-" ++ tag))
             | BatchEvents.RecvClose _ session => negb (String.eqb session tag)
             | BatchEvents.TimerFired => true
             end) cs.

(** Every session buffer holds events of its own tag, and the events without
    session bear no tag. *)
Definition wellTagged (s : BatchEvents.state) : Prop :=
  (forall T l, BatchEvents.batchCache s !! T = Some l ->
               Forall (fun e => BatchEvents.sessionOf e = T) l) /\
  Forall (fun e => BatchEvents.sessionOf e = "") (BatchEvents.batch s).

(** None of the goroutines was started with an event that bears [tag]. *)
Definition without (tag : string) (sps : list BatchEvents.Spawn) : Prop :=
  Forall (fun sp => Forall (fun e => BatchEvents.sessionOf e <> tag)
                           (BatchEvents.events sp)) sps.

(** A [select] that received something, and the time it waited. *)
Definition isReceive (c : BatchEvents.Select) : bool :=
  match c with BatchEvents.TimerFired => false | _ => true end.

Definition waitOf (c : BatchEvents.Select) : Z :=
  match c with
  | BatchEvents.RecvEvent waited _ | BatchEvents.RecvClose waited _ => waited
  | BatchEvents.TimerFired => 0
  end.

Definition totalWait (cs : list BatchEvents.Select) : Z :=
  fold_right Z.add 0%Z (map waitOf cs).

(** The times at which the buffer of events without session was flushed. *)
Definition flushTimes (s : BatchEvents.state) : list Z :=
  map BatchEvents.at_
      (List.filter (fun sp => negb (BatchEvents.asSession sp)) (BatchEvents.started s)).

(** Property P5 of the spec: two successive flushes of the buffer of events
    without session are at most [duration + eps] apart. *)
Definition flushBound (duration eps : Z) (s : BatchEvents.state) : Prop :=
  forall (i : nat) (t1 t2 : Z),
    flushTimes s !! i = Some t1 -> flushTimes s !! S i = Some t2 ->
    (t2 - t1 <= duration + eps)%Z.

(** Whether the path of an event is a key of one of the three collections
    that [ProcessEvents] fills. *)
Definition filed (b : Batch) (k : string) : Prop :=
  is_Some (CreateFiles b !! k) \/ is_Some (CreateFolders b !! k) \/
  is_Some (Deletes b !! k).

(** ** Inputs of the examples *)

(** A file is replaced: the watcher reports its removal and its creation; the
    source holds the new file, the target still holds the old one. *)
Definition replacedFile : list common.EventInfo :=
  [ plainEvent common.EventRemove "/p" false;
    plainEvent common.EventCreate "/p" false ].

(** A path created both as a file and as a folder. *)
Definition fileAndFolder : list common.EventInfo :=
  [ plainEvent common.EventCreate "/p" true;
    plainEvent common.EventCreate "/p" false ].

(** The file "/a" is renamed to "/b", where the target holds another file:
    a create of "/b" and deletes of "/a" and "/b". *)
Definition renamedOver : list common.EventInfo :=
  [ plainEvent common.EventCreate "/b" false;
    plainEvent common.EventRemove "/a" false;
    plainEvent common.EventRemove "/b" false ].

(** A target that holds the file with uuid "U" at "/a" and other files, with
    a uuid of their own, everywhere else. *)
Definition targetWithA (p : string) : option tree.Node * error :=
  if String.eqb p "/a" then (Some (leaf "U" p "E0"), None) else indexed p.

(** A rename seen as a create of "/b" and a delete of "/a", the uuid being
    the same on both sides. *)
Definition renamedFile : list common.EventInfo :=
  [ plainEvent common.EventCreate "/b" false;
    plainEvent common.EventRemove "/a" false ].

(** Two deletes, the path of one being a prefix of the path of the other
    without being its parent. *)
Definition siblingDeletes : list common.EventInfo :=
  [ plainEvent common.EventRemove "/a" false;
    plainEvent common.EventRemove "/ab" false ].

(** The batch of [renamedFile] when the creates have their nodes, none with a
    uuid, and the deletes are about to be walked. *)
Definition unidentified : St unit :=
  mkSt tt [] (<[0 := withNode (Some (leaf "" "/b" "new"))
                       (mkBatchedEvent common.SourceEndpoint common.TargetEndpoint "/b"
                          (plainEvent common.EventCreate "/b" false) None)]>
              (<[1 := mkBatchedEvent common.SourceEndpoint common.TargetEndpoint "/a"
                        (plainEvent common.EventRemove "/a" false) None]> ∅))
       (mkBatch {["/b" := 0]} ∅ {["/a" := 1]} ∅ {["/b" := 0]} None) [] [] [].

(** The batch of a create and a delete of "/f", and the batch of a create of
    a folder and a delete at "/f", as [ProcessEvents] builds them. *)
Definition vanishedFile : St unit :=
  populate tt [ plainEvent common.EventCreate "/f" false;
                plainEvent common.EventRemove "/f" false ].

Definition vanishedFolder : St unit :=
  populate tt [ plainEvent common.EventCreate "/f" true;
                plainEvent common.EventRemove "/f" false ].

(** An event with an empty path. *)
Definition emptyPathEvent : common.EventInfo := plainEvent common.EventCreate "" false.

(** Events without session that arrive 600 ns apart, with a timer of 1000 ns:
    a first event and the flush that follows it, then three more events and
    the flush that follows them. *)
Definition steadyEvents : list BatchEvents.Select :=
  [ BatchEvents.RecvEvent 600 (plainEvent common.EventCreate "/f1" false);
    BatchEvents.RecvEvent 600 (plainEvent common.EventCreate "/f2" false);
    BatchEvents.RecvEvent 600 (plainEvent common.EventCreate "/f3" false) ].

Definition steadyStream : list BatchEvents.Select :=
  ([ BatchEvents.RecvEvent 0 (plainEvent common.EventCreate "/f0" false);
     BatchEvents.TimerFired ] ++ steadyEvents ++ [ BatchEvents.TimerFired ])%list.

(** A first session "S", of one event and the event that closes it. *)
Definition earlierS : list BatchEvents.Select :=
  [ BatchEvents.RecvEvent 0 (sessionEvent common.EventCreate "/r/1" "S");
    BatchEvents.RecvEvent 1 (sessionEvent common.EventCreate "/r/2" "close-S") ].

(** Two events of the session "S" with an event of the session "T" between
    them. *)
Definition sessionS : list BatchEvents.Select :=
  [ BatchEvents.RecvEvent 0 (sessionEvent common.EventCreate "/s/1" "S");
    BatchEvents.RecvEvent 10 (sessionEvent common.EventCreate "/t/1" "T");
    BatchEvents.RecvEvent 5 (sessionEvent common.EventRemove "/s/0" "S") ].

(** ** What a run of the selector loop does with the events it receives *)

(** The events the loop keeps: those with a session tag, the scan events and
    the events without operation id. *)
Definition accepted (e : common.EventInfo) : bool :=
  negb (String.eqb (BatchEvents.sessionOf e) "") || common.ScanEvent e ||
  String.eqb (common.OperationId e) "".

(** The events that go to the buffer of events without session. *)
Definition isFree (e : common.EventInfo) : bool :=
  String.eqb (BatchEvents.sessionOf e) "" &&
  (common.ScanEvent e || String.eqb (common.OperationId e) "").

(** The events waiting in the session buffers. *)
Definition sessionBuffers (s : BatchEvents.state) : list common.EventInfo :=
  concat (map snd (map_to_list (BatchEvents.batchCache s))).

(** The events given to the [ProcessEvents] goroutines started so far. *)
Definition handedOver (s : BatchEvents.state) : list common.EventInfo :=
  concat (map BatchEvents.events (BatchEvents.started s)).

(** The events given to [ProcessEvents] by the timer, flush after flush. *)
Definition timerBatches (s : BatchEvents.state) : list common.EventInfo :=
  concat (map BatchEvents.events
              (List.filter (fun sp => negb (BatchEvents.asSession sp))
                           (BatchEvents.started s))).

(** A goroutine of a session holds events of one tag, the last one possibly
    bearing "close-" before it; a goroutine of the timer holds events without
    tag. *)
Definition oneSession (sp : BatchEvents.Spawn) : Prop :=
  if BatchEvents.asSession sp
  then exists tag,
      Forall (fun e => BatchEvents.sessionOf e = tag \/
                       BatchEvents.sessionOf e = "close-" ++ tag)
             (BatchEvents.events sp)
  else Forall (fun e => BatchEvents.sessionOf e = "") (BatchEvents.events sp).

(** No session buffer is empty. *)
Definition buffersFilled (s : BatchEvents.state) : Prop :=
  forall T l, BatchEvents.batchCache s !! T = Some l -> l <> [].

(** ** Reading the batch that [ProcessEvents] builds *)

(** The three collections that the loop over [events] fills. *)
Inductive Collection := InCreateFiles | InCreateFolders | InDeletes.

#[global] Instance Collection_eq_dec : EqDecision Collection.
Proof. solve_decision. Defined.

Definition entries (c : Collection) (b : Batch) : gmap string ptr :=
  match c with
  | InCreateFiles => CreateFiles b
  | InCreateFolders => CreateFolders b
  | InDeletes => Deletes b
  end.

(** The collection an event goes to: creates and renames to the creates, of
    folders or of files, everything else to the deletes. *)
Definition collectionOf (event : common.EventInfo) : Collection :=
  if common.EventType_eqb (common.Type_ event) common.EventCreate ||
     common.EventType_eqb (common.Type_ event) common.EventRename
  then if common.Folder event then InCreateFolders else InCreateFiles
  else InDeletes.

(** The [BatchedEvent] built for an event. *)
Definition batched (event : common.EventInfo) : BatchedEvent :=
  mkBatchedEvent common.SourceEndpoint common.TargetEndpoint (common.Path event)
                 event None.

(** ** Triples, and the invariants of the filter *)

(** From a state that satisfies [P], every run of [c] that returns ends with
    a result and a state that satisfy [Q]. *)
Definition triple {World A} (P : St World -> Prop) (c : M A)
           (Q : A -> St World -> Prop) : Prop :=
  forall st a st', P st -> c st = Ok (a, st') -> Q a st'.

(** A state with another world, probe log and local slices. *)
Definition reframe {World} (st : St World) (w : World) (pr : list Probe)
           (pm : list Move) (dd : list string) : St World :=
  mkSt w pr (heap st) (batch st) pm dd (sent st).

Definition withHeap {World} (h : gmap ptr BatchedEvent) (st : St World) : St World :=
  mkSt (world st) (probes st) h (batch st) (possibleMoves st) (deleteDelete st)
       (sent st).

Definition withBatch {World} (b : Batch) (st : St World) : St World :=
  mkSt (world st) (probes st) (heap st) b (possibleMoves st) (deleteDelete st)
       (sent st).

Definition withSent {World} (s : list string) (st : St World) : St World :=
  mkSt (world st) (probes st) (heap st) (batch st) (possibleMoves st)
       (deleteDelete st) s.

(** The batch without the entry [k] of the collection [c]. *)
Definition dropEntry (c : Collection) (k : string) (b : Batch) : Batch :=
  match c with
  | InCreateFiles => setCreateFiles (delete k (CreateFiles b)) b
  | InCreateFolders => setCreateFolders (delete k (CreateFolders b)) b
  | InDeletes => setDeletes (delete k (Deletes b)) b
  end.

(** What a property of the state must stand to be kept by the detection of
    the file moves, the commit of the closest moves and the pruning: a change
    of world, probe log and [deleteDelete]; the reset of [possibleMoves]; a
    candidate move appended for a delete with a leaf node and a file create
    with the same etag; a node given to the event of a delete; a file move;
    the removal of an entry. *)
Record PhaseInv {World} (I : St World -> Prop) : Prop := {
  inv_frame : forall st w pr dd, I st -> I (reframe st w pr (possibleMoves st) dd);
  inv_reset : forall st,
      I st -> I (reframe st (world st) (probes st) [] (deleteDelete st));
  inv_candidate : forall st kd pd d n kc pc c,
      Deletes (batch st) !! kd = Some pd -> heap st !! pd = Some d ->
      Node d = Some n -> tree.IsLeaf n = true ->
      CreateFiles (batch st) !! kc = Some pc -> heap st !! pc = Some c ->
      sameEtag c n = true ->
      I st ->
      I (reframe st (world st) (probes st) (possibleMoves st ++ [mkMove pd pc n])
                 (deleteDelete st));
  inv_node : forall st k p d n,
      Deletes (batch st) !! k = Some p -> heap st !! p = Some d -> I st ->
      I (withHeap (alter (withNode (Some n)) p (heap st)) st);
  inv_move : forall st p c n dk,
      heap st !! p = Some c -> I st -> I (movedByUuid st dk n (Key c) p);
  inv_drop : forall st c k, I st -> I (withBatch (dropEntry c k (batch st)) st)
}.

(** The leaf hint of the probes of the loop over a collection of creates:
    none for the files, [false] for the folders. *)
Definition hintOf (c : Collection) : option bool :=
  match c with
  | InCreateFolders => Some false
  | _ => None
  end.

(** What a property of the state must stand to be kept by the two loops over
    the creates: a change of world; a probe of the source for the path of the
    event of an entry of the collection being walked, when that event carries
    no scan node; a node, or nil, stored in that event; the removal, under the
    key of that event, of the entries of that collection and of [Deletes];
    the event of an entry of [CreateFiles], whose node has no uuid and is not
    the hidden file, put in [RefreshFilesUuid] under its key. *)
Record CreateInv {World} (I : St World -> Prop) : Prop := {
  cinv_frame : forall st w,
      I st -> I (reframe st w (probes st) (possibleMoves st) (deleteDelete st));
  cinv_probe : forall st c k p e w,
      c <> InDeletes -> entries c (batch st) !! k = Some p ->
      heap st !! p = Some e -> hasScanNode e = false ->
      I st ->
      I (reframe st w
           (probes st ++ [(common.SourceEndpoint, common.Path (EventInfo e), hintOf c)])
           (possibleMoves st) (deleteDelete st));
  cinv_node : forall st c k p e node,
      c <> InDeletes -> entries c (batch st) !! k = Some p ->
      heap st !! p = Some e ->
      (c = InCreateFiles -> is_Some node) ->
      I st -> I (withHeap (alter (withNode node) p (heap st)) st);
  cinv_drop : forall st c k p e,
      c <> InDeletes -> entries c (batch st) !! k = Some p ->
      heap st !! p = Some e ->
      I st ->
      I (withBatch (dropEntry InDeletes (Key e) (dropEntry c (Key e) (batch st))) st);
  cinv_refresh : forall st k p e n,
      CreateFiles (batch st) !! k = Some p ->
      heap st !! p = Some e -> Node e = Some n ->
      tree.Uuid n = "" -> path.Base (tree.Path n) <> common.PYDIO_SYNC_HIDDEN_FILE_META ->
      I st ->
      I (withBatch (setRefreshFilesUuid (<[Key e := p]> (RefreshFilesUuid (batch st)))
                                        (batch st)) st)
}.

(** Every [range] walks at least the keys of its map. *)
Definition rangeCovers {World} (rangeOrder : World -> list string -> list string * World)
  : Prop :=
  forall w ks k, k ∈ ks -> k ∈ (rangeOrder w ks).1.

(** Every entry of [m] is an event of the heap filed under its own key. *)
Definition wellKeyed (h : gmap ptr BatchedEvent) (m : gmap string ptr) : Prop :=
  map_Forall (fun k p => Key <$> h !! p = Some k) m.

(** The event at [p] has a node. *)
Definition hasNode (h : gmap ptr BatchedEvent) (p : ptr) : Prop :=
  is_Some (h !! p ≫= Node).

(** The path of the node of the event at [p]. *)
Definition pathAt (h : gmap ptr BatchedEvent) (p : ptr) : string :=
  match h !! p ≫= Node with Some n => tree.Path n | None => "" end.

(** ** What the filter leaves of a batch *)

(** The two heaps hold the same events at the same addresses, up to the
    nodes of the events. *)
Definition sameEvents (h h' : gmap ptr BatchedEvent) : Prop :=
  forall p, withNode None <$> h' !! p = withNode None <$> h !! p.

(** Every create and every delete of [b'] is an entry of [b], under the same
    key. *)
Definition shrunk (b b' : Batch) : Prop :=
  CreateFiles b' ⊆ CreateFiles b /\ CreateFolders b' ⊆ CreateFolders b /\
  Deletes b' ⊆ Deletes b.

(** The state [st] relative to the state [st0] in which a half of the filter
    starts. *)
Definition onlyRemoved {World} (st0 st : St World) : Prop :=
  shrunk (batch st0) (batch st) /\ sameEvents (heap st0) (heap st).

(** Every entry of [m'] is an entry of [m] or files, under its own key, an
    event of the heap [h]. *)
Definition grownByKey (h : gmap ptr BatchedEvent) (m m' : gmap string ptr) : Prop :=
  forall k p, m' !! k = Some p -> m !! k = Some p \/ Key <$> h !! p = Some k.

(** Every entry of [m] is an event with a node. *)
Definition resolved (h : gmap ptr BatchedEvent) (m : gmap string ptr) : Prop :=
  forall k p, m !! k = Some p -> hasNode h p.

(** The deletes are filed under their own keys, and those whose key is not
    in [ks] have a node. *)
Definition resolvedBut {World} (ks : list string) (st : St World) : Prop :=
  wellKeyed (heap st) (Deletes (batch st)) /\
  forall k p, Deletes (batch st) !! k = Some p -> k ∈ ks \/ hasNode (heap st) p.

(** The creates and the moves all have a node. *)
Definition othersResolved {World} (st : St World) : Prop :=
  resolved (heap st) (CreateFiles (batch st)) /\
  resolved (heap st) (CreateFolders (batch st)) /\
  resolved (heap st) (FileMoves (batch st)).

(** No event is filed in both maps. *)
Definition ptrsApart (m1 m2 : gmap string ptr) : Prop :=
  forall k1 k2 p, m1 !! k1 = Some p -> m2 !! k2 = Some p -> False.

(** The file creates are filed under their own keys, none of their events is
    also a folder create, and those whose key is not in [ks] have a node. *)
Definition createdBut {World} (ks : list string) (st : St World) : Prop :=
  wellKeyed (heap st) (CreateFiles (batch st)) /\
  ptrsApart (CreateFiles (batch st)) (CreateFolders (batch st)) /\
  forall k p, CreateFiles (batch st) !! k = Some p -> k ∈ ks \/ hasNode (heap st) p.

(** ** A batch of every kind, for the examples *)

(** A source that holds a file without uuid at every path but "/gone", where
    its probes fail. *)
Definition partlyThere (p : string) : option tree.Node * error :=
  if String.eqb p "/gone" then (None, Some "not found")
  else (Some (leaf "" p ("etag:" ++ p)), None).

(** A target that holds a file, with a uuid and an etag of its own, at every
    path under "/old", and nothing elsewhere. *)
Definition onlyOld (p : string) : option tree.Node * error :=
  if strings.HasPrefix p "/old" then indexed p else (None, None).

(** A file created where the source has nothing and deleted, a file and a
    folder created, a delete under another delete, and a delete of what the
    target does not hold. *)
Definition mixedEvents : list common.EventInfo :=
  [ plainEvent common.EventCreate "/gone" false;
    plainEvent common.EventRemove "/gone" false;
    plainEvent common.EventCreate "/a" false;
    plainEvent common.EventCreate "/d" true;
    plainEvent common.EventRemove "/old" false;
    plainEvent common.EventRemove "/old/x" false;
    plainEvent common.EventRemove "/nowhere" false ].

Definition stateOf {A} (r : result (A * St unit)) : St unit :=
  match r with
  | Ok (_, st) => st
  | Panic _ => populate tt []
  end.

(** The state in which [ProcessEvents] on these events reaches the detection
    of the file moves. *)
Definition mixedLoaded : St unit :=
  stateOf (bind (enrichCreates (fixedLoadNode partlyThere onlyOld) keyOrder)
                (fun _ => detectFolderMoves_spec (fixedLoadNode partlyThere onlyOld)
                                                 keyOrder)
                (populate tt mixedEvents)).

(** ** Reading the pruning of the deletes *)

(** The path of the node of the event at [p] lies under the path of the
    node of an entry of [m], in the sense of the test of line 197. *)
Definition shadowed (h : gmap ptr BatchedEvent) (m : gmap string ptr) (p : ptr) : Prop :=
  exists k' p', m !! k' = Some p' /\ isUnder (pathAt h p) (pathAt h p') = true.

(** The state [st] differs from [st0] by the world and the slice
    [deleteDelete] at most. *)
Definition pruning {World} (st0 st : St World) : Prop :=
  heap st = heap st0 /\ batch st = batch st0 /\ probes st = probes st0 /\
  possibleMoves st = possibleMoves st0 /\ sent st = sent st0.

(** Every key of [dd] is the key of a shadowed entry of [m]. *)
Definition marksSound (h : gmap ptr BatchedEvent) (m : gmap string ptr)
           (dd : list string) : Prop :=
  forall k, k ∈ dd -> exists p, m !! k = Some p /\ shadowed h m p.

(** Whatever lies under an entry whose key is not in [ks] is in [dd]. *)
Definition marksCover (h : gmap ptr BatchedEvent) (m : gmap string ptr)
           (ks dd : list string) : Prop :=
  forall k' p' k p,
    m !! k' = Some p' -> m !! k = Some p ->
    isUnder (pathAt h p) (pathAt h p') = true -> k' ∈ ks \/ k ∈ dd.

(** ** Runs that return *)

(** From a state that satisfies [P], [c] returns, with a result and a state
    that satisfy [Q]. *)
Definition total {World A} (P : St World -> Prop) (c : M A)
           (Q : A -> St World -> Prop) : Prop :=
  forall st, P st -> exists a st', c st = Ok (a, st') /\ Q a st'.

(** Both events of every move of [l] are in the heap. *)
Definition movesAllocated (h : gmap ptr BatchedEvent) (l : list Move) : Prop :=
  Forall (fun m => is_Some (h !! createEvent m) /\ is_Some (h !! deleteEvent m)) l.

(** No file create, no delete and no event of a candidate move is a nil
    pointer. *)
Definition safe {World} (st : St World) : Prop :=
  createsAllocated st /\
  map_Forall (fun _ p => is_Some (heap st !! p)) (Deletes (batch st)) /\
  movesAllocated (heap st) (possibleMoves st).

(** [sortClosestMoves] returns moves that it was given. *)
Definition picksCandidates
           (sortClosestMoves : gmap ptr BatchedEvent -> list Move -> list Move) : Prop :=
  forall h pm m, m ∈ sortClosestMoves h pm -> m ∈ pm.

(** The state in which [ProcessEvents] on these events reaches the pruning
    of the deletes. *)
Definition mixedResolved : St unit :=
  stateOf (bind (detectFileMoves (fixedLoadNode partlyThere onlyOld) keyOrder)
                (fun _ => commitClosestMoves sortClosestMoves_spec)
                mixedLoaded).

(** ** The probes of the loops over the creates *)



(** A probe of the source without leaf hint gives a node or an error. *)
Definition sourceDefinite {World}
           (LoadNode : common.Endpoint -> World -> string -> option bool ->
                       (option tree.Node * error) * World) : Prop :=
  forall w path, (LoadNode common.SourceEndpoint w path None).1 <> (None, None).

(** No file create and no folder create is a nil pointer. *)
Definition createsInHeap {World} (st : St World) : Prop :=
  createsAllocated st /\
  map_Forall (fun _ p => is_Some (heap st !! p)) (CreateFolders (batch st)).

(** A file and a folder created, nothing deleted. *)
Definition createsOnly : list common.EventInfo :=
  [ plainEvent common.EventCreate "/a" false;
    plainEvent common.EventCreate "/d" true ].

(** ** Reading [RefreshFilesUuid] *)

(** The test of line 86: the node has no uuid and is not the hidden file. *)
Definition lacksUuid (n : tree.Node) : bool :=
  String.eqb (tree.Uuid n) "" &&
  negb (String.eqb (path.Base (tree.Path n)) common.PYDIO_SYNC_HIDDEN_FILE_META).

(** The event at [p] has a node that passes this test. *)
Definition needsUuid (h : gmap ptr BatchedEvent) (p : ptr) : Prop :=
  exists n, h !! p ≫= Node = Some n /\ lacksUuid n = true.

(** No [range] yields a key twice. *)
Definition rangeDistinct {World}
           (rangeOrder : World -> list string -> list string * World) : Prop :=
  forall w ks, NoDup ks -> NoDup (rangeOrder w ks).1.

(** While the keys [l] of [CreateFiles] are still to be walked: the file
    creates are filed under their own keys and none is a folder create;
    [RefreshFilesUuid] holds file creates that were walked and need a uuid,
    and every file create that needs a uuid and is not there is still to be
    walked. *)
Definition refreshedBut {World} (l : list string) (st : St World) : Prop :=
  wellKeyed (heap st) (CreateFiles (batch st)) /\
  ptrsApart (CreateFiles (batch st)) (CreateFolders (batch st)) /\
  NoDup l /\
  (forall k p, RefreshFilesUuid (batch st) !! k = Some p ->
               (k ∉ l) /\ CreateFiles (batch st) !! k = Some p /\
               needsUuid (heap st) p) /\
  (forall k p, CreateFiles (batch st) !! k = Some p -> needsUuid (heap st) p ->
               k ∈ l \/ RefreshFilesUuid (batch st) !! k = Some p).

(** ** Reading the commit of the closest moves *)

(** The move [m], between events of the heap [h], is committed in [st]: its
    create carries a node and is filed in [FileMoves] under a key that has
    left [CreateFiles], and the key of its delete has left [Deletes]. *)
Definition committed {World} (h : gmap ptr BatchedEvent) (st : St World) (m : Move) : Prop :=
  exists c d,
    h !! createEvent m = Some c /\ h !! deleteEvent m = Some d /\
    is_Some (FileMoves (batch st) !! Key c) /\
    CreateFiles (batch st) !! Key c = None /\
    Deletes (batch st) !! Key d = None /\
    hasNode (heap st) (createEvent m).

(** From [st] to [st'], keys have only left [CreateFiles] and [Deletes],
    none has left [FileMoves], and no event has lost its node. *)
Definition movedOn {World} (st st' : St World) : Prop :=
  sameEvents (heap st) (heap st') /\
  (forall k, CreateFiles (batch st) !! k = None -> CreateFiles (batch st') !! k = None) /\
  (forall k, Deletes (batch st) !! k = None -> Deletes (batch st') !! k = None) /\
  (forall k, is_Some (FileMoves (batch st) !! k) -> is_Some (FileMoves (batch st') !! k)) /\
  (forall p, hasNode (heap st) p -> hasNode (heap st') p).

(** A file renamed, with the same etag on both sides and different uuids:
    the state in which [ProcessEvents] reaches the commit of the closest
    moves. *)
Definition renamedByEtag : St unit :=
  stateOf (bind (enrichCreates (fixedLoadNode (everyFile "S" "E") (everyFile "T" "E"))
                               keyOrder)
                (fun _ => detectFileMoves (fixedLoadNode (everyFile "S" "E")
                                                         (everyFile "T" "E")) keyOrder)
                (populate tt renamedFile)).

(** ** Deletes and creates with the same uuid *)

(** No delete whose key is not in [l] has a leaf node with the uuid of the
    node of a file create. *)
Definition uuidPairFreeBut {World} (l : list string) (st : St World) : Prop :=
  forall kd pd d n kc pc c,
    Deletes (batch st) !! kd = Some pd -> heap st !! pd = Some d ->
    Node d = Some n -> tree.IsLeaf n = true ->
    CreateFiles (batch st) !! kc = Some pc -> heap st !! pc = Some c ->
    kd ∈ l \/ sameUuid c n = false.

(** The create of every move of [pm] is an entry of [m0]. *)
Definition fromCreates (m0 : gmap string ptr) (pm : list Move) : Prop :=
  Forall (fun m => exists k, m0 !! k = Some (createEvent m)) pm.

(** The state [st] of a run of the move detection that started in [st0],
    with the deletes of [l] still to be walked. *)
Definition matching {World} (st0 : St World) (l : list string) (st : St World) : Prop :=
  onlyRemoved st0 st /\
  fromCreates (CreateFiles (batch st0)) (possibleMoves st) /\
  uuidPairFreeBut l st.


(** ** The filter between its two notifications

    [sendEvent] does [channel <- event] on every registered channel; such a
    send blocks while nobody reads the channel and panics when the channel is
    closed. What is said below of the filter returning is therefore said of
    the code between the two notifications. *)

(** Lines 68-109: the two loops over the creates. *)
Definition loadCreates {World}
           (LoadNode : common.Endpoint -> World -> string -> option bool ->
                       (option tree.Node * error) * World)
           (rangeOrder : World -> list string -> list string * World) : M unit :=
  bind (range rangeOrder CreateFiles (enrichCreateFile LoadNode))
       (fun _ => range rangeOrder CreateFolders (enrichCreateFolder LoadNode)).

(** Lines 113-189: the detection of the file moves and the commit of the
    closest moves. *)
Definition detectAndCommit {World}
           (LoadNode : common.Endpoint -> World -> string -> option bool ->
                       (option tree.Node * error) * World)
           (rangeOrder : World -> list string -> list string * World)
           (sortClosestMoves : gmap ptr BatchedEvent -> list Move -> list Move)
  : M unit :=
  bind (detectFileMoves LoadNode rangeOrder)
       (fun _ => commitClosestMoves sortClosestMoves).

(** Lines 113-205: the same, followed by the pruning of the deletes. *)
Definition detectCommitPrune {World}
           (LoadNode : common.Endpoint -> World -> string -> option bool ->
                       (option tree.Node * error) * World)
           (rangeOrder : World -> list string -> list string * World)
           (sortClosestMoves : gmap ptr BatchedEvent -> list Move -> list Move)
  : M unit :=
  bind (detectAndCommit LoadNode rangeOrder sortClosestMoves)
       (fun _ => pruneDeletes rangeOrder).


(** A folder created and deleted at the same path. *)
Definition folderReplaced : list common.EventInfo :=
  [ plainEvent common.EventCreate "/p" true;
    plainEvent common.EventRemove "/p" false ].

(** A file and a folder created at "/b", and "/a" deleted. *)
Definition movedBesideFolder : list common.EventInfo :=
  [ plainEvent common.EventCreate "/b" false;
    plainEvent common.EventCreate "/b" true;
    plainEvent common.EventRemove "/a" false ].

(** * Facts *)

Section FilterFacts.

Context {World : Type}.
Variable LoadNode :
  common.Endpoint -> World -> string -> option bool ->
  (option tree.Node * error) * World.
Variable rangeOrder : World -> list string -> list string * World.

#[local] Existing Instances M_ret M_bind.
#[local] Abbreviation State := (St World).
#[local] Abbreviation M := (@M World).
#[local] Abbreviation preserves := (preserves (World := World)).
#[local] Abbreviation keepsBatch := (keepsBatch (World := World)).

Lemma bind_Ok {A B} (c : M A) (k : A -> M B) (st st' : State) (a : A) :
  c st = Ok (a, st') -> (c ≫= k) st = k a st'.
Proof. intros H. unfold mbind, M_bind, bind. now rewrite H. Qed.

Lemma bind_Ok_inv {A B} (c : M A) (k : A -> M B) (st st'' : State) (b : B) :
  (c ≫= k) st = Ok (b, st'') ->
  exists a st', c st = Ok (a, st') /\ k a st' = Ok (b, st'').
Proof.
  unfold mbind, M_bind, bind. destruct (c st) as [[a st']|msg]; [|discriminate].
  intros H. now exists a, st'.
Qed.

Lemma bind_Panic {A B} (c : M A) (k : A -> M B) (st : State) (msg : string) :
  c st = Panic msg -> (c ≫= k) st = Panic msg.
Proof. intros H. unfold mbind, M_bind, bind. now rewrite H. Qed.

Lemma keepsBatch_preserves {A} (P : Batch -> Prop) (c : M A) :
  keepsBatch c -> preserves P c.
Proof. intros Hc st st' a HP Hrun. now rewrite (Hc _ _ _ Hrun). Qed.

Lemma preserves_bind {A B} (P : Batch -> Prop) (c : M A) (k : A -> M B) :
  preserves P c -> (forall a, preserves P (k a)) -> preserves P (c ≫= k).
Proof.
  intros Hc Hk st st'' b HP Hrun.
  apply bind_Ok_inv in Hrun as (a & st' & Hrun1 & Hrun2).
  eapply Hk; [|exact Hrun2]. eapply Hc; eauto.
Qed.

Lemma preserves_ret {A} (P : Batch -> Prop) (a : A) : preserves P (ret a : M A).
Proof. intros st st' a' HP [= <- <-]. exact HP. Qed.

Lemma preserves_panic {A} (P : Batch -> Prop) (msg : string) :
  preserves P (panic msg : M A).
Proof. intros st st' a HP [=]. Qed.

Lemma preserves_gets {A} (P : Batch -> Prop) (f : State -> A) :
  preserves P (gets f).
Proof. intros st st' a HP [= <- <-]. exact HP. Qed.

Lemma preserves_modifyBatch (P : Batch -> Prop) (f : Batch -> Batch) :
  (forall b, P b -> P (f b)) -> preserves P (modifyBatch f).
Proof. intros Hf st st' a HP [= <- <-]. now apply Hf. Qed.

Lemma keepsBatch_deref (p : ptr) : keepsBatch (deref p : M _).
Proof.
  intros st st' a. unfold deref. destruct (heap st !! p); [|discriminate].
  now intros [= <- <-].
Qed.

Lemma keepsBatch_setNode (p : ptr) (n : option tree.Node) :
  keepsBatch (setNode p n : M _).
Proof. now intros st st' a [= <- <-]. Qed.

Lemma keepsBatch_probe ep p hint : keepsBatch (probe LoadNode ep p hint).
Proof.
  intros st st' a. unfold probe. destruct (LoadNode _ _ _ _) as [r w].
  now intros [= <- <-].
Qed.

Lemma keepsBatch_sendEvent (t : string) : keepsBatch (sendEvent t : M _).
Proof. now intros st st' a [= <- <-]. Qed.

Lemma keepsBatch_rangeKeys sel : keepsBatch (rangeKeys rangeOrder sel).
Proof.
  intros st st' a. unfold rangeKeys. destruct (rangeOrder _ _) as [ks w].
  now intros [= <- <-].
Qed.

Lemma keepsBatch_appendPossibleMove (m : Move) :
  keepsBatch (appendPossibleMove m : M _).
Proof. now intros st st' a [= <- <-]. Qed.

Lemma keepsBatch_appendDeleteDelete (k : string) :
  keepsBatch (appendDeleteDelete k : M _).
Proof. now intros st st' a [= <- <-]. Qed.

Lemma preserves_forM {A} (P : Batch -> Prop) (l : list A) (body : A -> M unit) :
  (forall x, preserves P (body x)) -> preserves P (forM l body).
Proof.
  intros Hbody. induction l as [|x l IH]; simpl.
  - apply preserves_ret.
  - apply (preserves_bind P (body x) (fun _ => forM l body)); auto.
Qed.

Lemma preserves_range (P : Batch -> Prop) sel (body : string -> ptr -> M unit) :
  (forall k p, preserves P (body k p)) -> preserves P (range rangeOrder sel body).
Proof.
  intros Hbody. unfold range. apply preserves_bind.
  - apply keepsBatch_preserves, keepsBatch_rangeKeys.
  - intros ks. apply preserves_forM. intros k. unfold visit.
    apply preserves_bind; [apply preserves_gets|].
    intros [p|]; [apply Hbody | apply preserves_ret].
Qed.

Ltac keeps :=
  apply keepsBatch_preserves;
  first [ apply keepsBatch_deref | apply keepsBatch_setNode
        | apply keepsBatch_probe | apply keepsBatch_sendEvent
        | apply keepsBatch_rangeKeys | apply keepsBatch_appendPossibleMove
        | apply keepsBatch_appendDeleteDelete ].

Ltac pres :=
  repeat first
    [ apply preserves_ret | apply preserves_panic | apply preserves_gets
    | keeps
    | match goal with
      | |- preserves _ (if ?b then _ else _) => destruct b
      | |- preserves _ (match ?o with Some _ => _ | None => _ end) => destruct o
      | |- preserves _ (let '(_, _) := ?x in _) => destruct x
      end
    | apply preserves_range; intros ? ?
    | apply preserves_forM; intros ?
    | apply preserves_bind; [|intros ?] ].

(** ** FileMoves and CreateFiles *)

Lemma movesApart_deleteCreateFiles (k : string) :
  preserves movesApart (deleteCreateFiles k : M _).
Proof.
  apply preserves_modifyBatch. intros b Hb. unfold movesApart in *. simpl.
  now apply map_disjoint_delete_r.
Qed.

Lemma movesApart_deleteCreateFolders (k : string) :
  preserves movesApart (deleteCreateFolders k : M _).
Proof. apply preserves_modifyBatch. now intros b Hb. Qed.

Lemma movesApart_deleteDeletes (k : string) :
  preserves movesApart (deleteDeletes k : M _).
Proof. apply preserves_modifyBatch. now intros b Hb. Qed.

(** A move files the create under its key in [FileMoves] and takes the same
    key out of [CreateFiles]. *)
Lemma movesApart_move (b : Batch) (k dk : string) (p : ptr) :
  movesApart b ->
  movesApart
    (setCreateFiles (delete k (CreateFiles (setDeletes (delete dk (Deletes
       (setFileMoves (<[k := p]> (FileMoves b)) b)))
       (setFileMoves (<[k := p]> (FileMoves b)) b))))
       (setDeletes (delete dk (Deletes (setFileMoves (<[k := p]> (FileMoves b)) b)))
       (setFileMoves (<[k := p]> (FileMoves b)) b))).
Proof.
  unfold movesApart. simpl. intros Hb.
  apply map_disjoint_insert_l. split.
  - apply lookup_delete_eq.
  - now apply map_disjoint_delete_r.
Qed.

Lemma movesApart_lookByUuid (dk : string) (n : tree.Node) (ks : list string) :
  preserves movesApart (lookByUuid dk n ks : M _).
Proof.
  induction ks as [|k ks IH]; simpl; [apply preserves_ret|].
  apply preserves_bind; [apply preserves_gets|]. intros [p|]; [|exact IH].
  apply preserves_bind; [keeps|]. intros c.
  destruct (sameUuid c n); [|exact IH].
  apply preserves_bind; [keeps|]. intros _.
  intros st st' a Hst [= <- <-]. now apply movesApart_move.
Qed.

Lemma movesApart_commitMove (move : Move) :
  preserves movesApart (commitMove move : M _).
Proof.
  unfold commitMove.
  apply preserves_bind; [keeps|]. intros c.
  apply preserves_bind; [keeps|]. intros _.
  intros st st' a Hst Hrun.
  unfold mbind, M_bind, bind, putFileMoves, modifyBatch, modify, deref in Hrun.
  simpl in Hrun. destruct (heap st !! deleteEvent move) as [d|]; [|discriminate].
  injection Hrun as <- <-. now apply movesApart_move.
Qed.

Lemma movesApart_resolveMovesAndPrune
      (sortClosestMoves : gmap ptr BatchedEvent -> list Move -> list Move) :
  preserves movesApart (resolveMovesAndPrune LoadNode rangeOrder sortClosestMoves).
Proof.
  unfold resolveMovesAndPrune, detectFileMoves, commitClosestMoves, pruneDeletes.
  apply preserves_bind; [|intros _; apply preserves_bind; [|intros _; apply preserves_bind]].
  - apply preserves_bind; [now intros st st' a Hst [= <- <-]|]. intros _.
    apply preserves_range. intros k p. unfold detectFileMove.
    apply preserves_bind; [keeps|]. intros d.
    apply preserves_bind; [unfold loadDeleteNode; pres|]. intros [n|].
    + apply preserves_bind; [keeps|]. intros _.
      destruct (tree.IsLeaf n); [|apply preserves_ret].
      apply preserves_bind; [keeps|]. intros ks.
      apply preserves_bind; [apply movesApart_lookByUuid|]. intros [|]; [apply preserves_ret|].
      apply preserves_range. intros k' p'. unfold lookByEtag. pres.
    + unfold hasKey.
      apply preserves_bind; [apply preserves_gets|]. intros cf.
      apply preserves_bind; [apply preserves_gets|]. intros cfo.
      apply preserves_bind; [|intros _; apply movesApart_deleteDeletes].
      destruct (cf || cfo); [|apply preserves_ret].
      apply preserves_bind; [keeps|]. intros [[e|] err]; [apply preserves_ret|].
      apply preserves_bind.
      * destruct cf; [apply movesApart_deleteCreateFiles|apply preserves_ret].
      * intros _. destruct cfo; [apply movesApart_deleteCreateFolders|apply preserves_ret].
  - apply preserves_bind; [apply preserves_gets|]. intros moves.
    apply preserves_forM, movesApart_commitMove.
  - apply preserves_bind; [now intros st st' a Hst [= <- <-]|]. intros _.
    apply preserves_bind.
    + apply preserves_range. intros k p. unfold pruneOuter, nodePath.
      apply preserves_bind; [pres|]. intros deletePath.
      apply preserves_range. intros k' p'. unfold pruneInner, nodePath. pres.
    + intros _. apply preserves_bind; [apply preserves_gets|]. intros dd.
      apply preserves_forM, movesApart_deleteDeletes.
  - intros _. keeps.
Qed.

(** C1 (amended): whatever [detectFolderMoves] and [sortClosestMoves] do, if
    [FileMoves] and [CreateFiles] share no key when [detectFolderMoves]
    returns, then they share no key in the batch [ProcessEvents] hands over:
    the file moves of phases 4 and 5 take out of [CreateFiles] every key they
    file in [FileMoves]. Each of the other pairs of collections can share a
    key. *)
Theorem FilterBatch_moves_leave_CreateFiles
        (detectFolderMoves : M unit)
        (sortClosestMoves : gmap ptr BatchedEvent -> list Move -> list Move)
        (w : World) (events : list common.EventInfo) (asSession : bool)
        (st2 st3 : State) :
  (enrichCreates LoadNode rangeOrder ≫= fun _ => detectFolderMoves)
    (populate w events) = Ok (tt, st2) ->
  movesApart (batch st2) ->
  ProcessEvents LoadNode rangeOrder detectFolderMoves sortClosestMoves
                w events asSession = Ok (tt, st3) ->
  movesApart (batch st3).
Proof.
  intros Hfolder Hapart Hrun.
  unfold ProcessEvents, FilterBatch in Hrun.
  apply bind_Ok_inv in Hfolder as (a1 & st1 & Henrich & Hdfm).
  rewrite (bind_Ok _ _ _ _ _ Henrich) in Hrun.
  rewrite (bind_Ok _ _ _ _ _ Hdfm) in Hrun.
  exact (movesApart_resolveMovesAndPrune sortClosestMoves _ _ _ Hapart Hrun).
Qed.

(** ** The uuid pass of the file move detection *)

Lemma sameUuid_spec (c : BatchedEvent) (n : tree.Node) :
  sameUuid c n = true <->
  exists m, Node c = Some m /\ tree.Uuid m = tree.Uuid n.
Proof.
  unfold sameUuid. destruct (Node c) as [m|].
  - rewrite String.eqb_eq. split; [eauto|]. now intros (m' & [= <-] & H).
  - split; [discriminate|]. now intros (m & [=] & _).
Qed.

(** The uuid pass stops at the first key, in the order it is given, whose
    create has a node with the uuid of [n]. *)
Lemma lookByUuid_spec
        (st : State) (dk : string) (n : tree.Node) (ks : list string) :
  createsAllocated st ->
  match List.find (uuidMatch st n) ks with
  | Some k =>
      exists p c m,
        CreateFiles (batch st) !! k = Some p /\ heap st !! p = Some c /\
        Node c = Some m /\ tree.Uuid m = tree.Uuid n /\
        lookByUuid dk n ks st = Ok (true, movedByUuid st dk n (Key c) p)
  | None => lookByUuid dk n ks st = Ok (false, st)
  end.
Proof.
  intros Halloc. induction ks as [|k ks IH]; [reflexivity|].
  simpl List.find. unfold uuidMatch at 1.
  assert (Hstep : forall r,
            (CreateFiles (batch st) !! k = None \/
             exists p c, CreateFiles (batch st) !! k = Some p /\
                         heap st !! p = Some c /\ sameUuid c n = false) ->
            lookByUuid dk n ks st = r -> lookByUuid dk n (k :: ks) st = r).
  { intros r Hk Hr. simpl. unfold mbind, M_bind, bind, gets, deref. simpl.
    destruct Hk as [->|(p & c & -> & -> & ->)]; exact Hr. }
  destruct (CreateFiles (batch st) !! k) as [p|] eqn:Hk.
  - destruct (Halloc _ _ Hk) as [c Hc]. rewrite Hc.
    destruct (sameUuid c n) eqn:Hsame.
    + apply sameUuid_spec in Hsame as Hm. destruct Hm as (m & Hm & Hu).
      exists p, c, m. repeat split; auto.
      simpl. unfold mbind, M_bind, bind, gets, deref. simpl.
      rewrite Hk, Hc, Hsame. reflexivity.
    + destruct (List.find (uuidMatch st n) ks) as [k'|].
      * destruct IH as (p' & c' & m' & H1 & H2 & H3 & H4 & H5).
        exists p', c', m'. repeat split; auto.
        apply Hstep; [right; eauto|exact H5].
      * apply Hstep; [right; eauto|exact IH].
  - destruct (List.find (uuidMatch st n) ks) as [k'|].
    + destruct IH as (p' & c' & m' & H1 & H2 & H3 & H4 & H5).
      exists p', c', m'. repeat split; auto.
    + apply Hstep; [left; reflexivity|exact IH].
Qed.

(** C3 (amended): for a delete whose node, carried by the event or loaded
    from the target, is a leaf, the uuid pass walks [CreateFiles] in the order
    of its [range] and stops at the first create whose node is not nil and has
    the uuid of the node of the delete, whether that uuid is empty or not. That
    create gets the node of the delete and is filed in [FileMoves] under its
    key, the delete leaves [Deletes], the create leaves [CreateFiles], and the
    turn of the delete is over. When no create matches, nothing is moved and
    the etag pass runs. *)
Theorem detectFileMove_uuid_pass
        (st st0 : State) (k : string) (p : ptr) (d : BatchedEvent) (n : tree.Node)
        (ks : list string) (w' : World) :
  heap st !! p = Some d ->
  loadDeleteNode LoadNode d st = Ok (Some n, st0) ->
  tree.IsLeaf n = true ->
  rangeOrder (world st0) (map fst (map_to_list (CreateFiles (batch st0)))) = (ks, w') ->
  let st1 := deleteResolved st0 w' p n in
  createsAllocated st1 ->
  match List.find (uuidMatch st1 n) ks with
  | Some k' =>
      exists p' c m,
        CreateFiles (batch st1) !! k' = Some p' /\ heap st1 !! p' = Some c /\
        Node c = Some m /\ tree.Uuid m = tree.Uuid n /\
        detectFileMove LoadNode rangeOrder k p st
        = Ok (tt, movedByUuid st1 (Key d) n (Key c) p')
  | None =>
      detectFileMove LoadNode rangeOrder k p st
      = range rangeOrder CreateFiles (lookByEtag p n) st1
  end.
Proof.
  intros Hd Hload Hleaf Hks st1 Halloc.
  assert (Hrun : forall r,
            (found ← lookByUuid (Key d) n ks;
             if (found : bool) then ret tt
             else range rangeOrder CreateFiles (lookByEtag p n)) st1 = r ->
            detectFileMove LoadNode rangeOrder k p st = r).
  { intros r Hr. unfold detectFileMove, mbind, M_bind, bind.
    unfold deref at 1. rewrite Hd, Hload.
    unfold setNode, modify. rewrite Hleaf.
    unfold rangeKeys. cbn [world batch]. rewrite Hks. exact Hr. }
  pose proof (lookByUuid_spec st1 (Key d) n ks Halloc) as Hpass.
  destruct (List.find (uuidMatch st1 n) ks) as [k'|].
  - destruct Hpass as (p' & c & m & H1 & H2 & H3 & H4 & H5).
    exists p', c, m. repeat split; auto.
    apply Hrun. now rewrite (bind_Ok _ _ _ _ _ H5).
  - apply Hrun. now rewrite (bind_Ok _ _ _ _ _ Hpass).
Qed.

(** ** A probe that fails *)

(** C8: in the loops over the creates, the turn of an entry filed under its
    own key whose probe returns an error makes that one probe, removes the
    entry from its collection and the entry of [Deletes] under the same key,
    changes nothing else, and the loop goes on with the next keys. *)
Theorem probe_error_is_local
        (st : State) (k : string) (p : ptr) (e : BatchedEvent)
        (node : option tree.Node) (msg : string) (w' : World) (ks : list string) :
  heap st !! p = Some e ->
  Key e = k ->
  hasScanNode e = false ->
  let b := batch st in
  let path := common.Path (EventInfo e) in
  (CreateFiles b !! k = Some p ->
   LoadNode common.SourceEndpoint (world st) path None = ((node, Some msg), w') ->
   forM (k :: ks) (visit CreateFiles (enrichCreateFile LoadNode)) st
   = forM ks (visit CreateFiles (enrichCreateFile LoadNode))
          (afterProbe st w' (common.SourceEndpoint, path, None)
             (mkBatch (delete k (CreateFiles b)) (CreateFolders b)
                      (delete k (Deletes b)) (FileMoves b) (RefreshFilesUuid b)
                      (SessionProvider b)))) /\
  (CreateFolders b !! k = Some p ->
   LoadNode common.SourceEndpoint (world st) path (Some false) = ((node, Some msg), w') ->
   forM (k :: ks) (visit CreateFolders (enrichCreateFolder LoadNode)) st
   = forM ks (visit CreateFolders (enrichCreateFolder LoadNode))
          (afterProbe st w' (common.SourceEndpoint, path, Some false)
             (mkBatch (CreateFiles b) (delete k (CreateFolders b))
                      (delete k (Deletes b)) (FileMoves b) (RefreshFilesUuid b)
                      (SessionProvider b)))).
Proof.
  intros He Hkey Hscan b path. subst k. split; intros Hk Hprobe.
  - cbn [forM]. unfold bind at 1, visit at 1, enrichCreateFile.
    unfold mbind, M_bind, bind, gets, deref, loadCreateNode, probe. simpl.
    fold b. rewrite Hk, He, Hscan. fold path. rewrite Hprobe. reflexivity.
  - cbn [forM]. unfold bind at 1, visit at 1, enrichCreateFolder.
    unfold mbind, M_bind, bind, gets, deref, loadCreateNode, probe. simpl.
    fold b. rewrite Hk, He, Hscan. fold path. rewrite Hprobe. reflexivity.
Qed.

(** ** A probe that finds nothing and reports no error *)

(** C5: in the loop over [batch.CreateFiles], the turn of an entry whose
    source probe returns no node and no error takes the branch of the nil
    error and reads [node.Uuid] of the nil node: the loop panics, and so does
    the filter. *)
Theorem create_file_nil_node_panics
        (st : State) (k : string) (p : ptr) (e : BatchedEvent) (w' : World)
        (ks : list string) :
  CreateFiles (batch st) !! k = Some p ->
  heap st !! p = Some e ->
  hasScanNode e = false ->
  LoadNode common.SourceEndpoint (world st) (common.Path (EventInfo e)) None
  = ((None, None), w') ->
  forM (k :: ks) (visit CreateFiles (enrichCreateFile LoadNode)) st
  = Panic "nil pointer dereference: node.Uuid".
Proof.
  intros Hk He Hscan Hprobe.
  cbn [forM]. unfold bind at 1, visit at 1, enrichCreateFile.
  unfold mbind, M_bind, bind, gets, deref, loadCreateNode, probe. simpl.
  rewrite Hk, He, Hscan, Hprobe. reflexivity.
Qed.

(** In the loop over [batch.CreateFolders], the turn of an entry whose source
    probe returns no node and no error stores the nil node in the event and
    leaves the entry in the batch. *)
Lemma create_folder_nil_node_is_kept
      (st : State) (k : string) (p : ptr) (e : BatchedEvent) (w' : World)
      (ks : list string) :
  CreateFolders (batch st) !! k = Some p ->
  heap st !! p = Some e ->
  hasScanNode e = false ->
  LoadNode common.SourceEndpoint (world st) (common.Path (EventInfo e)) (Some false)
  = ((None, None), w') ->
  forM (k :: ks) (visit CreateFolders (enrichCreateFolder LoadNode)) st
  = forM ks (visit CreateFolders (enrichCreateFolder LoadNode))
         (mkSt w' (probes st ++ [(common.SourceEndpoint, common.Path (EventInfo e),
                                  Some false)])
               (<[p := withNode None e]> (heap st)) (batch st)
               (possibleMoves st) (deleteDelete st) (sent st)).
Proof.
  intros Hk He Hscan Hprobe.
  cbn [forM]. unfold bind at 1, visit at 1, enrichCreateFolder.
  unfold mbind, M_bind, bind, gets, deref, loadCreateNode, probe. simpl.
  rewrite Hk, He, Hscan, Hprobe. simpl.
  replace (alter (withNode None) p (heap st)) with (<[p := withNode None e]> (heap st));
    [reflexivity|].
  apply map_eq. intros q. destruct (decide (p = q)) as [<-|Hne].
  - now rewrite lookup_insert_eq, lookup_alter_eq, He.
  - now rewrite lookup_insert_ne, lookup_alter_ne.
Qed.

End FilterFacts.

(** ** The collections of a filtered batch are not disjoint *)

(** C1, counterexample: [ProcessEvents] on a create and a delete of "/p",
    where the source and the target both hold a file at "/p" with different
    uuids and etags, returns a batch with "/p" in both [CreateFiles] and
    [Deletes]. *)
Lemma replaced_file_in_two_collections :
  exists st,
    processFixed (everyFile "s1" "e1") (everyFile "t1" "e2") replacedFile true
      = Ok (tt, st) /\
    is_Some (CreateFiles (batch st) !! "/p") /\
    is_Some (Deletes (batch st) !! "/p") /\
    ~ disjointCollections (batch st).
Proof.
  eexists. split; [vm_compute; reflexivity|].
  split; [vm_compute; eauto|]. split; [vm_compute; eauto|].
  intros H. specialize (H "/p"). vm_compute in H. lia.
Qed.

(** The same holds of the other pairs of collections: a path created as a
    file and as a folder stays in [CreateFiles] and [CreateFolders]; a create
    matched as a move is filed in [FileMoves] beside a delete under the same
    key. *)
Lemma file_and_folder_in_two_collections :
  exists st,
    processFixed (everyFile "s1" "e1") nothingThere fileAndFolder false = Ok (tt, st) /\
    is_Some (CreateFiles (batch st) !! "/p") /\
    is_Some (CreateFolders (batch st) !! "/p").
Proof.
  eexists. split; [vm_compute; reflexivity|]. split; vm_compute; eauto.
Qed.

Lemma move_and_delete_in_two_collections :
  exists st,
    processFixed (everyFile "U" "E1") targetWithA renamedOver false = Ok (tt, st) /\
    is_Some (FileMoves (batch st) !! "/b") /\
    is_Some (Deletes (batch st) !! "/b") /\
    Deletes (batch st) !! "/a" = None.
Proof.
  eexists. split; [vm_compute; reflexivity|]. repeat split; vm_compute; eauto.
Qed.

(** And of the two remaining pairs: a folder created and deleted at a path
    that both endpoints hold stays in [CreateFolders] and [Deletes]; a file
    matched as a move is filed in [FileMoves] under the key of a folder
    create. *)
Lemma folder_in_two_collections :
  (exists st,
      processFixed (everyFile "s1" "e1") (everyFile "t1" "e2") folderReplaced false
        = Ok (tt, st) /\
      is_Some (CreateFolders (batch st) !! "/p") /\
      is_Some (Deletes (batch st) !! "/p")) /\
  (exists st,
      processFixed (everyFile "U" "E1") targetWithA movedBesideFolder false
        = Ok (tt, st) /\
      is_Some (FileMoves (batch st) !! "/b") /\
      is_Some (CreateFolders (batch st) !! "/b")).
Proof.
  split; (eexists; split; [vm_compute; reflexivity|]); split; vm_compute; eauto.
Qed.

Lemma FilterBatch_moves_leave_CreateFiles_witness :
  match processFixed (everyFile "U" "E1") (everyFile "U" "E0") renamedFile true with
  | Ok (_, st) =>
      movesApart (batch st) /\ is_Some (FileMoves (batch st) !! "/b")
  | Panic _ => False
  end.
Proof.
  destruct (processFixed _ _ renamedFile true) as [[[] st]|msg] eqn:Hrun.
  - split.
    + eapply (FilterBatch_moves_leave_CreateFiles
                (fixedLoadNode (everyFile "U" "E1") (everyFile "U" "E0")) keyOrder
                (detectFolderMoves_spec
                   (fixedLoadNode (everyFile "U" "E1") (everyFile "U" "E0")) keyOrder)
                sortClosestMoves_spec tt renamedFile true _ st);
        [ vm_compute; reflexivity | | exact Hrun ].
      unfold movesApart. apply (bool_decide_unpack _). vm_compute. exact I.
    + vm_compute in Hrun. injection Hrun as <-. vm_compute. eauto.
  - vm_compute in Hrun. discriminate.
Defined.

(** ** Pruning the deletes *)

Lemma isUnder_extension (p : string) (c : ascii) (s : string) :
  isUnder (p ++ String c s) p = true.
Proof.
  unfold isUnder, strings.HasPrefix. apply andb_true_intro. split.
  - apply Nat.ltb_lt. induction p as [|a p IH]; simpl; lia.
  - induction p as [|a p IH]; simpl; [reflexivity|].
    destruct (ascii_dec a a) as [_|Hne]; [exact IH | now destruct Hne].
Qed.

(** C2, at the failing input: the pruning test is a bare prefix test, true of
    every proper extension of the path; with deletes of "/a" and "/ab" that
    the target both resolves, [FilterBatch] drops "/ab" and keeps "/a". *)
Theorem prune_drops_sibling_with_common_prefix :
  (forall p c s, isUnder (p ++ String c s) p = true) /\
  isUnder "/ab" "/a" = true /\
  exists st,
    processFixed failing indexed siblingDeletes true = Ok (tt, st) /\
    nodeAt (heap st) (Deletes (batch st)) "/a" = Some (leaf "uuid:/a" "/a" "etag:/a") /\
    Deletes (batch st) !! "/ab" = None /\
    deleteDelete st = ["/ab"].
Proof.
  split; [exact isUnder_extension|]. split; [reflexivity|].
  eexists. split; [vm_compute; reflexivity|].
  repeat split; vm_compute; reflexivity.
Qed.

(** ** Probes that find nothing and report no error *)

(** C4, at the failing input: a folder is created at "/d" and the source
    probe returns no node and no error; the entry stays in [CreateFolders]
    with a nil node. *)
Theorem folder_create_keeps_nil_node :
  exists st,
    processFixed nothingThere nothingThere
                 [plainEvent common.EventCreate "/d" true] true = Ok (tt, st) /\
    is_Some (CreateFolders (batch st) !! "/d") /\
    nodeAt (heap st) (CreateFolders (batch st)) "/d" = None /\
    ~ allResolved (heap st) (CreateFolders (batch st)).
Proof.
  eexists. split; [vm_compute; reflexivity|].
  split; [vm_compute; eauto|]. split; [vm_compute; reflexivity|].
  intros H. destruct (H "/d") as [n Hn]; [vm_compute; eauto|].
  vm_compute in Hn. discriminate.
Qed.

(** The failing input of C5: a file is created at "/f" and the source probe
    returns no node and no error; [ProcessEvents] panics in the loop over
    [CreateFiles]. *)
Lemma create_file_nil_node_panics_witness :
  processFixed nothingThere nothingThere
               [plainEvent common.EventCreate "/f" false] true
  = Panic "nil pointer dereference: node.Uuid".
Proof.
  unfold processFixed, ProcessEvents, FilterBatch. apply bind_Panic.
  unfold enrichCreates. erewrite bind_Ok by reflexivity.
  apply bind_Panic. unfold range. erewrite bind_Ok by reflexivity.
  eapply (create_file_nil_node_panics _ _ "/f" 0 _ tt []); reflexivity.
Defined.

(** The panic comes before [detectFolderMoves] is called: it does not depend
    on the two helpers. *)
Lemma file_create_panics_before_folder_moves
      (detectFolderMoves : M (World := unit) unit)
      (sortClosestMoves : gmap ptr BatchedEvent -> list Move -> list Move)
      (asSession : bool) :
  ProcessEvents (fixedLoadNode nothingThere nothingThere) keyOrder
                detectFolderMoves sortClosestMoves tt
                [plainEvent common.EventCreate "/f" false] asSession
  = Panic "nil pointer dereference: node.Uuid".
Proof. reflexivity. Qed.

(** ** Creates and deletes without uuid *)

(** C3, counterexample: the source node of the create of "/b" and the target
    node of the delete of "/a" both have the empty uuid, and different etags;
    the create is filed in [FileMoves] with the node of "/a", and both
    entries leave [CreateFiles] and [Deletes]. *)
Lemma empty_uuids_make_a_move :
  exists st,
    processFixed (everyFile "" "new") (everyFile "" "old") renamedFile true
      = Ok (tt, st) /\
    nodeAt (heap st) (FileMoves (batch st)) "/b" = Some (leaf "" "/a" "old") /\
    CreateFiles (batch st) = ∅ /\ Deletes (batch st) = ∅ /\
    possibleMoves st = [].
Proof.
  eexists. split; [vm_compute; reflexivity|].
  repeat split; vm_compute; reflexivity.
Qed.

(** The delete of "/a" in [unidentified], the target holding a file without
    uuid at "/a": the create of "/b" becomes a move. *)
Lemma detectFileMove_uuid_pass_witness :
  detectFileMove (fixedLoadNode failing (everyFile "" "old")) keyOrder "/a" 1 unidentified
  = Ok (tt, movedByUuid
              (deleteResolved
                 (afterProbe unidentified tt (common.TargetEndpoint, "/a", None)
                             (batch unidentified))
                 tt 1 (leaf "" "/a" "old"))
              "/a" (leaf "" "/a" "old") "/b" 0).
Proof.
  pose proof (detectFileMove_uuid_pass
                (fixedLoadNode failing (everyFile "" "old")) keyOrder
                unidentified
                (afterProbe unidentified tt (common.TargetEndpoint, "/a", None)
                            (batch unidentified))
                "/a" 1 _ (leaf "" "/a" "old") ["/b"] tt
                eq_refl eq_refl eq_refl eq_refl) as H.
  assert (Halloc : createsAllocated
                     (deleteResolved
                        (afterProbe unidentified tt (common.TargetEndpoint, "/a", None)
                                    (batch unidentified))
                        tt 1 (leaf "" "/a" "old"))).
  { apply (bool_decide_unpack _). vm_compute. exact I. }
  specialize (H Halloc). simpl in H.
  destruct H as (p & c & m & Hp & Hc & _ & _ & Hrun).
  vm_compute in Hp. injection Hp as <-.
  vm_compute in Hc. injection Hc as <-.
  exact Hrun.
Defined.

(** ** A create that the source no longer holds *)

Lemma probe_error_is_local_witness :
  forM ["/f"] (visit CreateFiles (enrichCreateFile (fixedLoadNode failing indexed)))
       vanishedFile
  = Ok (tt, afterProbe vanishedFile tt (common.SourceEndpoint, "/f", None) NewBatch) /\
  forM ["/f"] (visit CreateFolders (enrichCreateFolder (fixedLoadNode failing indexed)))
       vanishedFolder
  = Ok (tt, afterProbe vanishedFolder tt (common.SourceEndpoint, "/f", Some false)
                       NewBatch).
Proof.
  split.
  - exact (proj1 (probe_error_is_local (fixedLoadNode failing indexed) vanishedFile
                    "/f" 0 _ None "not found" tt [] eq_refl eq_refl eq_refl)
                 eq_refl eq_refl).
  - exact (proj2 (probe_error_is_local (fixedLoadNode failing indexed) vanishedFolder
                    "/f" 0 _ None "not found" tt [] eq_refl eq_refl eq_refl)
                 eq_refl eq_refl).
Defined.

(** ** The session flag *)

(** C9 (amended): the selector loop starts [ProcessEvents] with [asSession]
    true for a session, closed by its last event or by force, and false for the
    timer; the flag has no effect on the batch: [ProcessEvents] returns the
    same result for both values. *)
Theorem asSession_has_no_effect :
  (forall (World : Type) LoadNode rangeOrder detectFolderMoves sortClosestMoves
          (w : World) (events : list common.EventInfo),
      ProcessEvents LoadNode rangeOrder detectFolderMoves sortClosestMoves w events true
      = ProcessEvents LoadNode rangeOrder detectFolderMoves sortClosestMoves w events false) /\
  (forall duration s c,
      exists new,
        BatchEvents.started (BatchEvents.step duration s c)
        = (BatchEvents.started s ++ new)%list /\
        Forall (fun sp => BatchEvents.asSession sp = isReceive c) new).
Proof.
  split; [reflexivity|].
  intros duration s c. destruct c as [waited e|waited session|]; simpl.
  - destruct (negb _).
    + destruct (strings.HasPrefix _ _); simpl.
      * eexists [_]. split; [reflexivity|]. now repeat constructor.
      * exists []. now rewrite app_nil_r.
    + destruct (_ || _); exists []; now rewrite app_nil_r.
  - destruct (BatchEvents.batchCache s !! session); simpl.
    + eexists [_]. split; [reflexivity|]. now repeat constructor.
    + exists []. now rewrite app_nil_r.
  - destruct (Nat.ltb _ _); simpl.
    + eexists [_]. split; [reflexivity|]. now repeat constructor.
    + exists []. now rewrite app_nil_r.
Qed.

(** C9, counterexample: the batch of a session flush and the batch of a timer
    flush of the same events are the same, and its session provider slot is
    empty. *)
Lemma session_batch_not_marked :
  processFixed (everyFile "U" "E1") (everyFile "U" "E0") renamedFile true
  = processFixed (everyFile "U" "E1") (everyFile "U" "E0") renamedFile false /\
  exists st,
    processFixed (everyFile "U" "E1") (everyFile "U" "E0") renamedFile true
    = Ok (tt, st) /\
    SessionProvider (batch st) = None.
Proof.
  split; [reflexivity|]. eexists. split; vm_compute; reflexivity.
Qed.

(** ** Events that are dropped when they arrive *)

Lemma app_singleton_neq {A} (l : list A) (x : A) : (l ++ [x])%list <> l.
Proof.
  intros H. apply (f_equal (@length A)) in H. rewrite length_app in H.
  simpl in H. lia.
Qed.

Lemma addEvent_filed_new {World} (p : ptr) (e : common.EventInfo) (st : St World) :
  filed (batch (addEvent p e st)) (common.Path e).
Proof.
  unfold filed, addEvent. simpl.
  destruct (_ || _); [destruct (common.Folder e)|]; simpl;
    rewrite lookup_insert_eq; eauto.
Qed.

Lemma addEvent_filed_old {World} (p : ptr) (e : common.EventInfo) (st : St World)
      (k : string) :
  filed (batch st) k -> filed (batch (addEvent p e st)) k.
Proof.
  unfold filed, addEvent. simpl.
  destruct (_ || _); [destruct (common.Folder e)|]; simpl;
    rewrite lookup_insert_is_Some'; tauto.
Qed.

Lemma addEvents_filed {World} (events : list common.EventInfo) (p : ptr)
      (st : St World) (k : string) :
  filed (batch st) k \/ (exists e, In e events /\ common.Path e = k) ->
  filed (batch (addEvents p events st)) k.
Proof.
  revert p st. induction events as [|e' events IH]; intros p st H; simpl.
  - destruct H as [H|(e & [] & _)]. exact H.
  - apply IH. destruct H as [H|(e & [->|Hin] & Hk)].
    + left. now apply addEvent_filed_old.
    + left. subst k. apply addEvent_filed_new.
    + right. eauto.
Qed.

(** C10 (amended): the loop looks at the session tag, the scan flag and the
    operation id of an event, never at its path. An event received on [in]
    leaves the session buffers, the buffer of events without session and the
    started goroutines as they were exactly when it has no session tag, is not
    a scan event and has an operation id; and [ProcessEvents] files every event
    it is given under its path, the empty path included. *)
Theorem ingestion_ignores_the_path :
  (forall duration s waited e,
      let s' := BatchEvents.step duration s (BatchEvents.RecvEvent waited e) in
      (BatchEvents.batchCache s' = BatchEvents.batchCache s /\
       BatchEvents.batch s' = BatchEvents.batch s /\
       BatchEvents.started s' = BatchEvents.started s)
      <->
      (BatchEvents.sessionOf e = "" /\ common.ScanEvent e = false /\
       common.OperationId e <> "")) /\
  (forall (World : Type) (w : World) (events : list common.EventInfo) e,
      In e events -> filed (batch (populate w events)) (common.Path e)).
Proof.
  split.
  - intros duration s waited e. simpl.
    destruct (String.eqb (BatchEvents.sessionOf e) "") eqn:Hs; simpl.
    + apply String.eqb_eq in Hs.
      destruct (common.ScanEvent e) eqn:Hscan; simpl.
      * split; [intros (_ & H & _); now apply app_singleton_neq in H|].
        intros (_ & [=] & _).
      * destruct (String.eqb (common.OperationId e) "") eqn:Hop; simpl.
        -- apply String.eqb_eq in Hop.
           split; [intros (_ & H & _); now apply app_singleton_neq in H|].
           intros (_ & _ & H). now destruct H.
        -- apply String.eqb_neq in Hop. tauto.
    + apply String.eqb_neq in Hs.
      split; [|intros (H & _); now destruct Hs].
      destruct (strings.HasPrefix _ _); simpl.
      * intros (_ & _ & H). now apply app_singleton_neq in H.
      * intros (H & _ & _). exfalso.
        apply (f_equal (fun m => m !! BatchEvents.sessionOf e)) in H.
        rewrite lookup_insert_eq in H. unfold BatchEvents.cached in H.
        destruct (BatchEvents.batchCache s !! BatchEvents.sessionOf e) as [l|];
          [|discriminate].
        simpl in H. injection H as H. now apply app_singleton_neq in H.
  - intros World w events e Hin. unfold populate. apply addEvents_filed. eauto.
Qed.

(** C10, counterexample: an event with the empty path is put in the buffer of
    events without session, is flushed by the timer, and is filed by
    [ProcessEvents] in [CreateFiles] under the empty key, where it stays. *)
Lemma empty_path_event_is_batched :
  BatchEvents.batch
    (BatchEvents.step 1000 BatchEvents.init (BatchEvents.RecvEvent 0 emptyPathEvent))
  = [emptyPathEvent] /\
  map BatchEvents.events
      (BatchEvents.started
         (BatchEvents.run 1000
            [BatchEvents.RecvEvent 0 emptyPathEvent; BatchEvents.TimerFired]
            BatchEvents.init))
  = [[emptyPathEvent]] /\
  exists st,
    processFixed indexed indexed [emptyPathEvent] false = Ok (tt, st) /\
    is_Some (CreateFiles (batch st) !! "").
Proof.
  split; [reflexivity|]. split; [reflexivity|].
  eexists. split; [vm_compute; reflexivity|]. vm_compute. eauto.
Qed.

Lemma ingestion_ignores_the_path_witness :
  filed (batch (populate tt [emptyPathEvent])) "".
Proof.
  apply (proj2 ingestion_ignores_the_path unit tt [emptyPathEvent] emptyPathEvent).
  simpl. left. reflexivity.
Defined.

(** ** The timer of the selector loop *)

Lemma flushTimes_started (s s' : BatchEvents.state) :
  BatchEvents.started s' = BatchEvents.started s -> flushTimes s' = flushTimes s.
Proof. unfold flushTimes. now intros ->. Qed.

Lemma flushTimes_session (s s' : BatchEvents.state) (t : Z) events :
  BatchEvents.started s'
  = (BatchEvents.started s ++ [BatchEvents.mkSpawn t events true])%list ->
  flushTimes s' = flushTimes s.
Proof.
  unfold flushTimes. intros ->. rewrite List.filter_app. simpl.
  now rewrite app_nil_r.
Qed.

Lemma step_receive (duration : Z) (s : BatchEvents.state) (c : BatchEvents.Select) :
  isReceive c = true ->
  flushTimes (BatchEvents.step duration s c) = flushTimes s /\
  BatchEvents.clock (BatchEvents.step duration s c)
  = (BatchEvents.clock s + waitOf c)%Z.
Proof.
  destruct c as [waited e|waited session|]; [| |discriminate]; intros _; simpl.
  - destruct (negb _); [destruct (strings.HasPrefix _ _)|destruct (_ || _)];
      simpl; split; try reflexivity;
      first [ now apply flushTimes_started | now eapply flushTimes_session ].
  - destruct (BatchEvents.batchCache s !! session); simpl; split; try reflexivity;
      first [ now apply flushTimes_started | now eapply flushTimes_session ].
Qed.

Lemma run_receives (duration : Z) (cs : list BatchEvents.Select)
      (s : BatchEvents.state) :
  forallb isReceive cs = true ->
  flushTimes (BatchEvents.run duration cs s) = flushTimes s /\
  BatchEvents.clock (BatchEvents.run duration cs s)
  = (BatchEvents.clock s + totalWait cs)%Z.
Proof.
  revert s. induction cs as [|c cs IH]; intros s Hcs; simpl.
  - split; [reflexivity|]. unfold totalWait. simpl. lia.
  - apply andb_prop in Hcs as [Hc Hcs].
    destruct (step_receive duration s c Hc) as [Hf Ht].
    destruct (IH (BatchEvents.step duration s c) Hcs) as [Hf' Ht'].
    unfold BatchEvents.run in *. rewrite Hf', Ht', Hf, Ht.
    split; [reflexivity|]. unfold totalWait. simpl. lia.
Qed.

Lemma step_timer_flush (duration : Z) (s : BatchEvents.state) :
  BatchEvents.batch s <> [] ->
  flushTimes (BatchEvents.step duration s BatchEvents.TimerFired)
  = (flushTimes s ++ [(BatchEvents.clock s + duration)%Z])%list /\
  BatchEvents.clock (BatchEvents.step duration s BatchEvents.TimerFired)
  = (BatchEvents.clock s + duration)%Z /\
  BatchEvents.batch (BatchEvents.step duration s BatchEvents.TimerFired) = [].
Proof.
  intros Hne. simpl. destruct (BatchEvents.batch s) as [|e l]; [now destruct Hne|].
  simpl. unfold flushTimes. simpl. rewrite List.filter_app, map_app. now simpl.
Qed.

(** C6 (amended): every [select] arms a new timer, so the timer fires only
    when one [select] has waited [duration] without receiving anything. After
    a flush of the buffer of events without session, as long as every [select]
    receives an event or a session to close there is no flush; the next flush
    comes [duration] after the last receive, that is [duration] plus the waits
    of all the receives after the previous flush. *)
Theorem timer_restarts_at_every_select
        (duration : Z) (s : BatchEvents.state) (msgs : list BatchEvents.Select) :
  forallb isReceive msgs = true ->
  BatchEvents.batch s <> [] ->
  let s1 := BatchEvents.step duration s BatchEvents.TimerFired in
  let s2 := BatchEvents.run duration msgs s1 in
  BatchEvents.batch s2 <> [] ->
  flushTimes s2 = (flushTimes s ++ [(BatchEvents.clock s + duration)%Z])%list /\
  flushTimes (BatchEvents.step duration s2 BatchEvents.TimerFired)
  = (flushTimes s ++ [(BatchEvents.clock s + duration)%Z;
                      (BatchEvents.clock s + duration + totalWait msgs + duration)%Z])%list.
Proof.
  intros Hmsgs Hs s1 s2 Hs2.
  destruct (step_timer_flush duration s Hs) as (Hf1 & Ht1 & _).
  destruct (run_receives duration msgs s1 Hmsgs) as (Hf2 & Ht2).
  destruct (step_timer_flush duration s2 Hs2) as (Hf3 & _ & _).
  fold s1 in Hf1, Ht1. fold s2 in Hf2, Ht2.
  split; [now rewrite Hf2, Hf1|].
  rewrite Hf3, Hf2, Hf1, Ht2, Ht1, <- app_assoc. reflexivity.
Qed.

(** C6, counterexample: with a timer of 1000 ns and events that arrive every
    600 ns, the two flushes are 2800 ns apart, more than twice the duration. *)
Lemma steady_stream_delays_the_flush :
  forallb (fun c => (0 <=? waitOf c)%Z && (waitOf c <? 1000)%Z) steadyStream = true /\
  flushTimes (BatchEvents.run 1000 steadyStream BatchEvents.init) = [1000%Z; 3800%Z] /\
  ~ flushBound 1000 1000 (BatchEvents.run 1000 steadyStream BatchEvents.init).
Proof.
  split; [reflexivity|]. split; [reflexivity|].
  intros H. specialize (H 0%nat 1000%Z 3800%Z eq_refl eq_refl). lia.
Qed.

Lemma timer_restarts_at_every_select_witness :
  flushTimes
    (BatchEvents.step 1000
       (BatchEvents.run 1000 steadyEvents
          (BatchEvents.step 1000
             (BatchEvents.step 1000 BatchEvents.init
                (BatchEvents.RecvEvent 0 (plainEvent common.EventCreate "/f0" false)))
             BatchEvents.TimerFired))
       BatchEvents.TimerFired)
  = [1000%Z; 3800%Z].
Proof.
  rewrite (proj2 (timer_restarts_at_every_select 1000
                    (BatchEvents.step 1000 BatchEvents.init
                       (BatchEvents.RecvEvent 0
                          (plainEvent common.EventCreate "/f0" false)))
                    steadyEvents eq_refl ltac:(discriminate)
                    ltac:(vm_compute; discriminate))).
  reflexivity.
Defined.

(** ** Sessions *)

Lemma prefix_split (p s : string) :
  String.prefix p s = true -> s = p ++ strings.drop (String.length p) s.
Proof.
  revert s. induction p as [|a p IH]; intros s H; [reflexivity|].
  destruct s as [|b s]; [discriminate|]. simpl in H.
  destruct (ascii_dec a b) as [->|]; [|discriminate].
  change (String b s = String b (p ++ strings.drop (String.length p) s)).
  f_equal. now apply IH.
Qed.

Lemma HasPrefix_close (tag : string) :
  strings.HasPrefix tag "close-" = true ->
  tag = "close-" ++ strings.TrimPrefix tag "close-".
Proof.
  intros H. unfold strings.TrimPrefix. rewrite H. now apply prefix_split.
Qed.

Lemma received_app (cs cs' : list BatchEvents.Select) :
  received (cs ++ cs') = (received cs ++ received cs')%list.
Proof.
  induction cs as [|[w e|w T|] cs IH]; simpl; [reflexivity| |exact IH|exact IH].
  now rewrite IH.
Qed.

Lemma taggedWith_app (tag : string) (cs cs' : list BatchEvents.Select) :
  taggedWith tag (cs ++ cs') = (taggedWith tag cs ++ taggedWith tag cs')%list.
Proof. unfold taggedWith. now rewrite received_app, List.filter_app. Qed.

Lemma cached_Forall (s : BatchEvents.state) (T : string) :
  (forall T l, BatchEvents.batchCache s !! T = Some l ->
               Forall (fun e => BatchEvents.sessionOf e = T) l) ->
  Forall (fun e => BatchEvents.sessionOf e = T) (BatchEvents.cached s T).
Proof.
  intros H. unfold BatchEvents.cached.
  destruct (BatchEvents.batchCache s !! T) as [l|] eqn:Hl; simpl; eauto.
Qed.

Lemma Forall_tag_neq (T tag : string) (l : list common.EventInfo) :
  T <> tag ->
  Forall (fun e => BatchEvents.sessionOf e = T) l ->
  Forall (fun e => BatchEvents.sessionOf e <> tag) l.
Proof. intros Hne H. eapply Forall_impl; [exact H|]. now intros e ->. Qed.



Lemma init_wellTagged : wellTagged BatchEvents.init.
Proof.
  split; [|constructor]. intros T l Hl. simpl in Hl. now rewrite lookup_empty in Hl.
Qed.

Lemma step_wellTagged (duration : Z) (s : BatchEvents.state) (c : BatchEvents.Select) :
  wellTagged s -> wellTagged (BatchEvents.step duration s c).
Proof.
  intros [Hb Hc]. destruct c as [waited e|waited T|]; simpl.
  - destruct (String.eqb (BatchEvents.sessionOf e) "") eqn:Hs; simpl.
    + apply String.eqb_eq in Hs.
      destruct (_ || _); split; simpl; auto.
      apply Forall_app. split; [exact Hc|]. now repeat constructor.
    + destruct (strings.HasPrefix _ _); split; simpl; auto.
      * intros T l Hl. apply lookup_delete_Some in Hl as [_ Hl]. eauto.
      * intros T l Hl. apply lookup_insert_Some in Hl as [[<- <-]|[_ Hl]]; eauto.
        apply Forall_app. split; [now apply cached_Forall|].
        now repeat constructor.
  - destruct (BatchEvents.batchCache s !! T) as [l0|]; split; simpl; auto.
    intros T' l Hl. apply lookup_delete_Some in Hl as [_ Hl]. eauto.
  - destruct (Nat.ltb _ _); split; simpl; auto.
Qed.

Lemma run_wellTagged (duration : Z) (cs : list BatchEvents.Select)
      (s : BatchEvents.state) :
  wellTagged s -> wellTagged (BatchEvents.run duration cs s).
Proof.
  revert s. induction cs as [|c cs IH]; intros s Hs; [exact Hs|].
  apply IH. now apply step_wellTagged.
Qed.

(** One turn that does not close the session [tag]: the buffer of [tag] gets
    the event of the turn if it bears [tag], and a goroutine started by the
    turn holds no event of [tag]. *)
Lemma step_session (duration : Z) (tag : string) (s : BatchEvents.state)
      (c : BatchEvents.Select) :
  tag <> "" ->
  strings.HasPrefix tag "close-" = false ->
  wellTagged s ->
  staysOpen tag [c] = true ->
  BatchEvents.cached (BatchEvents.step duration s c) tag
  = (BatchEvents.cached s tag ++ taggedWith tag [c])%list /\
  exists new,
    BatchEvents.started (BatchEvents.step duration s c)
    = (BatchEvents.started s ++ new)%list /\
    without tag new.
Proof.
  intros Hne Hnp [Hb Hc] Hopen.
  unfold staysOpen in Hopen. simpl in Hopen. rewrite andb_true_r in Hopen.
  assert (Hnil : forall l : list BatchEvents.Spawn,
             exists new, l = (l ++ new)%list /\ without tag new).
  { intros l. exists []. split; [now rewrite app_nil_r|constructor]. }
  destruct c as [waited e|waited T|].
  - apply negb_true_iff, String.eqb_neq in Hopen.
    unfold taggedWith. simpl.
    destruct (String.eqb (BatchEvents.sessionOf e) "") eqn:Hs; simpl.
    + apply String.eqb_eq in Hs.
      assert (Htag : String.eqb (BatchEvents.sessionOf e) tag = false).
      { apply String.eqb_neq. congruence. }
      rewrite Htag, app_nil_r. destruct (_ || _); simpl; split; auto.
    + apply String.eqb_neq in Hs.
      destruct (strings.HasPrefix (BatchEvents.sessionOf e) "close-") eqn:Hp; simpl.
      * pose proof (HasPrefix_close _ Hp) as Hsplit.
        set (T := strings.TrimPrefix (BatchEvents.sessionOf e) "close-") in *.
        assert (HT : T <> tag) by (intros ->; now apply Hopen).
        assert (Htag : BatchEvents.sessionOf e <> tag) by congruence.
        apply String.eqb_neq in Htag as Htag'. rewrite Htag', app_nil_r.
        split.
        -- unfold BatchEvents.cached. simpl. now rewrite lookup_delete_ne.
        -- eexists [_]. split; [reflexivity|]. constructor; [|constructor].
           simpl. apply Forall_app. split.
           ++ apply (Forall_tag_neq T); [exact HT|]. now apply cached_Forall.
           ++ now repeat constructor.
      * destruct (String.eqb (BatchEvents.sessionOf e) tag) eqn:Htag.
        -- apply String.eqb_eq in Htag. rewrite Htag. split; auto.
           unfold BatchEvents.cached. simpl. now rewrite lookup_insert_eq.
        -- apply String.eqb_neq in Htag. rewrite app_nil_r. split; auto.
           unfold BatchEvents.cached. simpl. now rewrite lookup_insert_ne.
  - apply negb_true_iff, String.eqb_neq in Hopen.
    unfold taggedWith. simpl. rewrite app_nil_r.
    destruct (BatchEvents.batchCache s !! T) as [l|] eqn:Hl; simpl; split; auto.
    + unfold BatchEvents.cached. simpl. now rewrite lookup_delete_ne.
    + eexists [_]. split; [reflexivity|]. constructor; [|constructor].
      simpl. apply (Forall_tag_neq T); eauto.
  - unfold taggedWith. simpl. rewrite app_nil_r.
    destruct (Nat.ltb 0 (length (BatchEvents.batch s))); simpl; split; auto.
    eexists [_]. split; [reflexivity|]. constructor; [|constructor].
    simpl. apply (Forall_tag_neq ""); auto.
Qed.

Lemma run_session (duration : Z) (tag : string) (cs : list BatchEvents.Select)
      (s : BatchEvents.state) :
  tag <> "" ->
  strings.HasPrefix tag "close-" = false ->
  wellTagged s ->
  staysOpen tag cs = true ->
  BatchEvents.cached (BatchEvents.run duration cs s) tag
  = (BatchEvents.cached s tag ++ taggedWith tag cs)%list /\
  exists new,
    BatchEvents.started (BatchEvents.run duration cs s)
    = (BatchEvents.started s ++ new)%list /\
    without tag new.
Proof.
  intros Hne Hnp. revert s. induction cs as [|c cs IH]; intros s Hs Hopen.
  - simpl. split; [now rewrite app_nil_r|]. exists [].
    split; [now rewrite app_nil_r|constructor].
  - assert (Hsplit : staysOpen tag [c] = true /\ staysOpen tag cs = true).
    { unfold staysOpen in Hopen |- *. cbn [forallb] in Hopen |- *.
      rewrite andb_true_r. now apply andb_prop in Hopen. }
    destruct Hsplit as [Hc Hcs].
    destruct (step_session duration tag s c Hne Hnp Hs Hc) as (Ha & new & Hnew & Hw).
    destruct (IH (BatchEvents.step duration s c)
                 (step_wellTagged duration s c Hs) Hcs) as (Ha' & new' & Hnew' & Hw').
    change (BatchEvents.run duration (c :: cs) s)
      with (BatchEvents.run duration cs (BatchEvents.step duration s c)).
    rewrite (taggedWith_app tag [c] cs : taggedWith tag (c :: cs) = _).
    rewrite Ha', Ha, <- app_assoc.
    split; [reflexivity|]. exists (new ++ new')%list.
    split; [now rewrite Hnew', Hnew, <- app_assoc|].
    now apply Forall_app.
Qed.




(** * Further facts about the selector loop *)

Lemma buffers_split (m : gmap string (list common.EventInfo)) (T : string) :
  concat (map snd (map_to_list m))
  ≡ₚ default [] (m !! T) ++ concat (map snd (map_to_list (delete T m))).
Proof.
  destruct (m !! T) as [l|] eqn:Hl; simpl.
  - now rewrite <- (map_to_list_delete m T l Hl).
  - now rewrite (delete_id m T Hl).
Qed.

Lemma buffers_insert (m : gmap string (list common.EventInfo)) (T : string)
      (l : list common.EventInfo) :
  concat (map snd (map_to_list (<[T := l]> m)))
  ≡ₚ l ++ concat (map snd (map_to_list (delete T m))).
Proof.
  rewrite <- (insert_delete_eq m T l).
  now rewrite (map_to_list_insert (delete T m) T l (lookup_delete_eq m T)).
Qed.

Lemma accepted_tagged (e : common.EventInfo) :
  BatchEvents.sessionOf e <> "" -> accepted e = true.
Proof.
  intros H. unfold accepted. apply String.eqb_neq in H. now rewrite H.
Qed.

(** One turn: what is handed over or buffered after it is what was before,
    with the event of the turn if the loop keeps it. *)
Lemma step_keeps_events (duration : Z) (s : BatchEvents.state) (c : BatchEvents.Select) :
  handedOver (BatchEvents.step duration s c) ++
  sessionBuffers (BatchEvents.step duration s c) ++
  BatchEvents.batch (BatchEvents.step duration s c)
  ≡ₚ (handedOver s ++ sessionBuffers s ++ BatchEvents.batch s) ++
     List.filter accepted (received [c]).
Proof.
  unfold handedOver, sessionBuffers.
  destruct c as [waited e|waited T|]; simpl.
  - destruct (String.eqb (BatchEvents.sessionOf e) "") eqn:Hs; simpl.
    + unfold accepted. rewrite Hs. simpl.
      destruct (common.ScanEvent e || String.eqb (common.OperationId e) "");
        simpl; [|now rewrite app_nil_r].
      now rewrite !app_assoc.
    + apply String.eqb_neq in Hs. rewrite (accepted_tagged e Hs).
      destruct (strings.HasPrefix _ _); simpl.
      * set (T := strings.TrimPrefix (BatchEvents.sessionOf e) "close-").
        rewrite map_app, concat_app. simpl. rewrite app_nil_r.
        rewrite (buffers_split (BatchEvents.batchCache s) T).
        fold (BatchEvents.cached s T).
        rewrite <- !app_assoc. apply Permutation_app_head, Permutation_app_head.
        rewrite (Permutation_app_comm [e]). now rewrite <- !app_assoc.
      * rewrite buffers_insert.
        rewrite (buffers_split (BatchEvents.batchCache s) (BatchEvents.sessionOf e)).
        fold (BatchEvents.cached s (BatchEvents.sessionOf e)).
        rewrite <- !app_assoc. apply Permutation_app_head, Permutation_app_head.
        rewrite (Permutation_app_comm [e]). now rewrite <- !app_assoc.
  - rewrite app_nil_r.
    destruct (BatchEvents.batchCache s !! T) as [l|] eqn:Hl; simpl; [|reflexivity].
    rewrite map_app, concat_app. simpl. rewrite app_nil_r.
    rewrite (buffers_split (BatchEvents.batchCache s) T), Hl. simpl.
    now rewrite <- !app_assoc.
  - rewrite app_nil_r.
    destruct (BatchEvents.batch s) as [|e l] eqn:Hb; simpl; [reflexivity|].
    rewrite map_app, concat_app. simpl. rewrite !app_nil_r.
    rewrite <- !app_assoc. apply Permutation_app_head, Permutation_app_comm.
Qed.

Lemma run_keeps_events (duration : Z) (cs : list BatchEvents.Select)
      (s : BatchEvents.state) :
  handedOver (BatchEvents.run duration cs s) ++
  sessionBuffers (BatchEvents.run duration cs s) ++
  BatchEvents.batch (BatchEvents.run duration cs s)
  ≡ₚ (handedOver s ++ sessionBuffers s ++ BatchEvents.batch s) ++
     List.filter accepted (received cs).
Proof.
  revert s. induction cs as [|c cs IH]; intros s.
  - simpl. now rewrite app_nil_r.
  - change (BatchEvents.run duration (c :: cs) s)
      with (BatchEvents.run duration cs (BatchEvents.step duration s c)).
    rewrite IH, step_keeps_events.
    rewrite (received_app [c] cs : received (c :: cs) = _), List.filter_app.
    now rewrite <- !app_assoc.
Qed.

(** X1: no event is lost and none is duplicated. After any run of the loop
    from its start, the events handed to [ProcessEvents] together with the
    events still in the buffers are, up to their order, the events received
    that the loop keeps. *)
Theorem no_event_lost_or_duplicated (duration : Z) (cs : list BatchEvents.Select) :
  let s := BatchEvents.run duration cs BatchEvents.init in
  handedOver s ++ sessionBuffers s ++ BatchEvents.batch s
  ≡ₚ List.filter accepted (received cs).
Proof.
  intros s. unfold s. rewrite run_keeps_events.
  unfold handedOver, sessionBuffers. simpl. now rewrite map_to_list_empty.
Qed.

Lemma app_singleton_neq_nil {A} (l : list A) (x : A) : (l ++ [x])%list <> [].
Proof. now destruct l. Qed.

Lemma timerBatches_started (s s' : BatchEvents.state) :
  BatchEvents.started s' = BatchEvents.started s -> timerBatches s' = timerBatches s.
Proof. unfold timerBatches. now intros ->. Qed.

Lemma timerBatches_spawn (s s' : BatchEvents.state) (t : Z) events (b : bool) :
  BatchEvents.started s'
  = (BatchEvents.started s ++ [BatchEvents.mkSpawn t events b])%list ->
  timerBatches s' = (timerBatches s ++ if b then [] else events)%list.
Proof.
  unfold timerBatches. intros ->. rewrite List.filter_app, map_app, concat_app.
  destruct b; simpl; now rewrite ?app_nil_r.
Qed.

Lemma step_timer_order (duration : Z) (s : BatchEvents.state) (c : BatchEvents.Select) :
  (timerBatches (BatchEvents.step duration s c) ++
   BatchEvents.batch (BatchEvents.step duration s c))%list
  = ((timerBatches s ++ BatchEvents.batch s) ++ List.filter isFree (received [c]))%list.
Proof.
  destruct c as [waited e|waited T|]; simpl.
  - unfold isFree.
    destruct (String.eqb (BatchEvents.sessionOf e) "") eqn:Hs; simpl.
    + destruct (common.ScanEvent e || String.eqb (common.OperationId e) ""); simpl.
      * erewrite (timerBatches_started s) by reflexivity. now rewrite app_assoc.
      * erewrite (timerBatches_started s) by reflexivity. now rewrite app_nil_r.
    + rewrite app_nil_r. destruct (strings.HasPrefix _ _); simpl.
      * erewrite (timerBatches_spawn s) by reflexivity. now rewrite app_nil_r.
      * now erewrite (timerBatches_started s) by reflexivity.
  - rewrite app_nil_r.
    destruct (BatchEvents.batchCache s !! T); simpl.
    + erewrite (timerBatches_spawn s) by reflexivity. now rewrite app_nil_r.
    + now erewrite (timerBatches_started s) by reflexivity.
  - rewrite app_nil_r.
    destruct (BatchEvents.batch s) as [|e l] eqn:Hb; simpl.
    + now erewrite (timerBatches_started s) by reflexivity.
    + erewrite (timerBatches_spawn s) by reflexivity. simpl. now rewrite ?Hb, ?app_nil_r.
Qed.

(** X2: the events without session leave in the order they came. After any
    run of the loop from its start, the batches flushed by the timer, one after
    the other, followed by the events still waiting, are the free events
    received (no session tag, and a scan event or no operation id), in the
    order of their arrival. *)
Theorem timer_batches_keep_arrival_order (duration : Z) (cs : list BatchEvents.Select) :
  let s := BatchEvents.run duration cs BatchEvents.init in
  (timerBatches s ++ BatchEvents.batch s)%list = List.filter isFree (received cs).
Proof.
  intros s. unfold s.
  enough (H : forall s0,
             (timerBatches (BatchEvents.run duration cs s0) ++
              BatchEvents.batch (BatchEvents.run duration cs s0))%list
             = ((timerBatches s0 ++ BatchEvents.batch s0) ++
                List.filter isFree (received cs))%list) by exact (H BatchEvents.init).
  induction cs as [|c cs IH]; intros s0.
  - simpl. now rewrite app_nil_r.
  - change (BatchEvents.run duration (c :: cs) s0)
      with (BatchEvents.run duration cs (BatchEvents.step duration s0 c)).
    rewrite IH, step_timer_order.
    rewrite (received_app [c] cs : received (c :: cs) = _), List.filter_app.
    now rewrite <- !app_assoc.
Qed.

Lemma init_buffersFilled : buffersFilled BatchEvents.init.
Proof. intros T l Hl. simpl in Hl. now rewrite lookup_empty in Hl. Qed.

Lemma step_buffersFilled (duration : Z) (s : BatchEvents.state) (c : BatchEvents.Select) :
  buffersFilled s -> buffersFilled (BatchEvents.step duration s c).
Proof.
  intros Hs. destruct c as [waited e|waited T|]; simpl.
  - destruct (negb _); [destruct (strings.HasPrefix _ _)|destruct (_ || _)];
      intros T l Hl; simpl in Hl; eauto.
    + apply lookup_delete_Some in Hl as [_ Hl]. eauto.
    + apply lookup_insert_Some in Hl as [[_ <-]|[_ Hl]]; eauto.
      now apply app_singleton_neq_nil.
  - destruct (BatchEvents.batchCache s !! T) as [l0|]; intros T' l Hl;
      simpl in Hl; eauto.
    apply lookup_delete_Some in Hl as [_ Hl]. eauto.
  - destruct (Nat.ltb _ _); intros T l Hl; simpl in Hl; eauto.
Qed.

Lemma run_buffersFilled (duration : Z) (cs : list BatchEvents.Select)
      (s : BatchEvents.state) :
  buffersFilled s -> buffersFilled (BatchEvents.run duration cs s).
Proof.
  revert s. induction cs as [|c cs IH]; intros s Hs; [exact Hs|].
  apply IH. now apply step_buffersFilled.
Qed.

(** One turn starts at most one goroutine, and only on a list of events that
    is not empty. *)
Lemma step_starts_on_events (duration : Z) (s : BatchEvents.state)
      (c : BatchEvents.Select) :
  buffersFilled s ->
  exists new,
    BatchEvents.started (BatchEvents.step duration s c)
    = (BatchEvents.started s ++ new)%list /\
    Forall (fun sp => BatchEvents.events sp <> []) new.
Proof.
  intros Hs.
  assert (Hnil : forall l : list BatchEvents.Spawn,
             exists new, l = (l ++ new)%list /\
                         Forall (fun sp => BatchEvents.events sp <> []) new).
  { intros l. exists []. split; [now rewrite app_nil_r|constructor]. }
  destruct c as [waited e|waited T|]; simpl.
  - destruct (negb _); [destruct (strings.HasPrefix _ _)|destruct (_ || _)];
      simpl; auto.
    eexists [_]. split; [reflexivity|]. constructor; [|constructor].
    simpl. apply app_singleton_neq_nil.
  - destruct (BatchEvents.batchCache s !! T) as [l|] eqn:Hl; simpl; auto.
    eexists [_]. split; [reflexivity|]. constructor; [|constructor].
    simpl. eauto.
  - destruct (BatchEvents.batch s) as [|e l] eqn:Hb; simpl; auto.
    eexists [_]. split; [reflexivity|]. now repeat constructor.
Qed.

(** X3: [ProcessEvents] is never started on an empty list of events, by a
    session that closes, by a forced close or by the timer, in any run of the
    loop from its start. *)
Theorem never_starts_on_no_event (duration : Z) (cs : list BatchEvents.Select) :
  Forall (fun sp => BatchEvents.events sp <> [])
         (BatchEvents.started (BatchEvents.run duration cs BatchEvents.init)).
Proof.
  enough (H : forall s, buffersFilled s ->
                        Forall (fun sp => BatchEvents.events sp <> [])
                               (BatchEvents.started s) ->
                        Forall (fun sp => BatchEvents.events sp <> [])
                               (BatchEvents.started (BatchEvents.run duration cs s))).
  { apply H; [apply init_buffersFilled|constructor]. }
  induction cs as [|c cs IH]; intros s Hs Hst; [exact Hst|].
  change (BatchEvents.run duration (c :: cs) s)
    with (BatchEvents.run duration cs (BatchEvents.step duration s c)).
  apply IH; [now apply step_buffersFilled|].
  destruct (step_starts_on_events duration s c Hs) as (new & -> & Hnew).
  now apply Forall_app.
Qed.

Lemma step_oneSession (duration : Z) (s : BatchEvents.state) (c : BatchEvents.Select) :
  wellTagged s ->
  exists new,
    BatchEvents.started (BatchEvents.step duration s c)
    = (BatchEvents.started s ++ new)%list /\
    Forall oneSession new.
Proof.
  intros [Hb Hc].
  assert (Hnil : forall l : list BatchEvents.Spawn,
             exists new, l = (l ++ new)%list /\ Forall oneSession new).
  { intros l. exists []. split; [now rewrite app_nil_r|constructor]. }
  destruct c as [waited e|waited T|]; simpl.
  - destruct (negb _); [|destruct (_ || _); auto].
    destruct (strings.HasPrefix (BatchEvents.sessionOf e) "close-") eqn:Hp; simpl; auto.
    eexists [_]. split; [reflexivity|]. constructor; [|constructor].
    unfold oneSession. simpl.
    exists (strings.TrimPrefix (BatchEvents.sessionOf e) "close-").
    apply Forall_app. split.
    + eapply Forall_impl; [now apply cached_Forall|]. intros e' He'. now left.
    + constructor; [|constructor]. right. now apply HasPrefix_close.
  - destruct (BatchEvents.batchCache s !! T) as [l|] eqn:Hl; simpl; auto.
    eexists [_]. split; [reflexivity|]. constructor; [|constructor].
    unfold oneSession. simpl. exists T.
    eapply Forall_impl; [exact (Hb T l Hl)|]. intros e' He'. now left.
  - destruct (BatchEvents.batch s) as [|e l] eqn:Hb'; simpl; auto.
    eexists [_]. split; [reflexivity|]. constructor; [|constructor].
    unfold oneSession. simpl. exact Hc.
Qed.

(** X4: a batch never mixes sessions. In any run of the loop from its start,
    a goroutine started for a session holds events of one tag only, the
    closing event bearing "close-" before that tag, and a goroutine started by
    the timer holds only events without session tag. *)
Theorem batches_do_not_mix_sessions (duration : Z) (cs : list BatchEvents.Select) :
  Forall oneSession (BatchEvents.started (BatchEvents.run duration cs BatchEvents.init)).
Proof.
  enough (H : forall s, wellTagged s -> Forall oneSession (BatchEvents.started s) ->
                        Forall oneSession
                               (BatchEvents.started (BatchEvents.run duration cs s))).
  { apply H; [apply init_wellTagged|constructor]. }
  induction cs as [|c cs IH]; intros s Hs Hst; [exact Hst|].
  change (BatchEvents.run duration (c :: cs) s)
    with (BatchEvents.run duration cs (BatchEvents.step duration s c)).
  apply IH; [now apply step_wellTagged|].
  destruct (step_oneSession duration s c Hs) as (new & -> & Hnew).
  now apply Forall_app.
Qed.

(** X5: a forced close hands over what the session has buffered, and nothing
    when it has buffered nothing. At any point of a run where the session [tag]
    has no buffer, let the loop receive events of [tag] among other turns, none
    of which closes [tag], and then [tag] on [ev.closeSessionChan]. If no event
    of [tag] arrived, the turn starts nothing and changes no buffer; otherwise
    it starts one [ProcessEvents] on the events of [tag] in the order they
    arrived, with [asSession] true, and removes the buffer of [tag]. *)
Theorem forced_close_flushes_the_buffer
        (duration : Z) (tag : string) (before cs : list BatchEvents.Select)
        (waited : Z) :
  tag <> "" ->
  strings.HasPrefix tag "close-" = false ->
  let s0 := BatchEvents.run duration before BatchEvents.init in
  BatchEvents.batchCache s0 !! tag = None ->
  staysOpen tag cs = true ->
  let s1 := BatchEvents.run duration cs s0 in
  let s2 := BatchEvents.step duration s1 (BatchEvents.RecvClose waited tag) in
  BatchEvents.batch s2 = BatchEvents.batch s1 /\
  BatchEvents.batchCache s2 !! tag = None /\
  match taggedWith tag cs with
  | [] =>
      BatchEvents.started s2 = BatchEvents.started s1 /\
      BatchEvents.batchCache s2 = BatchEvents.batchCache s1
  | events =>
      BatchEvents.started s2
      = (BatchEvents.started s1 ++
         [BatchEvents.mkSpawn (BatchEvents.clock s1 + waited) events true])%list /\
      BatchEvents.batchCache s2 = delete tag (BatchEvents.batchCache s1)
  end.
Proof.
  intros Hne Hnp s0 Hfree Hopen s1 s2.
  assert (Hs0 : wellTagged s0) by apply run_wellTagged, init_wellTagged.
  assert (Hfilled : buffersFilled s1)
    by apply run_buffersFilled, run_buffersFilled, init_buffersFilled.
  destruct (run_session duration tag cs s0 Hne Hnp Hs0 Hopen) as (Ha & _).
  fold s1 in Ha. unfold BatchEvents.cached in Ha. rewrite Hfree in Ha. simpl in Ha.
  unfold s2. simpl.
  destruct (BatchEvents.batchCache s1 !! tag) as [l|] eqn:Hl; simpl in *.
  - subst l. pose proof (Hfilled tag _ Hl) as Hnonempty.
    split; [reflexivity|]. split; [apply lookup_delete_eq|].
    destruct (taggedWith tag cs); [now destruct Hnonempty|]. now split.
  - rewrite <- Ha. now repeat split.
Qed.

Lemma forced_close_flushes_the_buffer_witness :
  BatchEvents.started
    (BatchEvents.step 1000
       (BatchEvents.run 1000 sessionS (BatchEvents.run 1000 earlierS BatchEvents.init))
       (BatchEvents.RecvClose 7 "S"))
  = (BatchEvents.started
       (BatchEvents.run 1000 sessionS (BatchEvents.run 1000 earlierS BatchEvents.init)) ++
     [ BatchEvents.mkSpawn 23
         [ sessionEvent common.EventCreate "/s/1" "S";
           sessionEvent common.EventRemove "/s/0" "S" ] true ])%list.
Proof.
  exact (proj1 (proj2 (proj2
           (forced_close_flushes_the_buffer 1000 "S" earlierS sessionS 7
              ltac:(discriminate) eq_refl ltac:(vm_compute; reflexivity) eq_refl)))).
Defined.

(** * Further facts about [ProcessEvents] *)

Lemma addEvents_app {World} (l1 l2 : list common.EventInfo) (p : ptr) (st : St World) :
  addEvents p (l1 ++ l2) st = addEvents (p + length l1) l2 (addEvents p l1 st).
Proof.
  revert p st. induction l1 as [|e l1 IH]; intros p st; simpl.
  - now rewrite Nat.add_0_r.
  - rewrite IH. f_equal. lia.
Qed.

Lemma populate_snoc {World} (w : World) (events : list common.EventInfo)
      (e : common.EventInfo) :
  populate w (events ++ [e]) = addEvent (length events) e (populate w events).
Proof. unfold populate. now rewrite addEvents_app. Qed.

Lemma addEvent_entries {World} (c : Collection) (p : ptr) (e : common.EventInfo)
      (st : St World) :
  entries c (batch (addEvent p e st))
  = if decide (collectionOf e = c)
    then <[common.Path e := p]> (entries c (batch st))
    else entries c (batch st).
Proof.
  unfold addEvent, collectionOf. simpl.
  destruct (_ || _); [destruct (common.Folder e)|]; destruct c; simpl;
    now repeat case_decide.
Qed.

Lemma populate_heap {World} (w : World) (events : list common.EventInfo) (i : ptr) :
  heap (populate w events) !! i = batched <$> events !! i.
Proof.
  induction events as [|e events IH] using rev_ind; [apply lookup_empty|].
  rewrite populate_snoc. unfold addEvent at 1. simpl.
  fold (batched e).
  destruct (decide (i = length events)) as [->|Hne].
  - rewrite lookup_insert_eq. now rewrite list_lookup_middle.
  - rewrite lookup_insert_ne by congruence. rewrite IH.
    destruct (decide (i < length events)) as [Hlt|Hge].
    + now rewrite lookup_app_l.
    + rewrite !lookup_ge_None_2; [reflexivity| |lia].
      rewrite length_app. simpl. lia.
Qed.

(** The entry of a key is the last event of the list that goes to the
    collection with that path. *)
Lemma populate_entries {World} (w : World) (events : list common.EventInfo)
      (c : Collection) (k : string) (i : ptr) :
  entries c (batch (populate w events)) !! k = Some i <->
  exists e,
    events !! i = Some e /\ collectionOf e = c /\ common.Path e = k /\
    forall j e', i < j -> events !! j = Some e' -> collectionOf e' = c ->
                 common.Path e' <> k.
Proof.
  revert i. induction events as [|e events IH] using rev_ind; intros i.
  - unfold populate. simpl. destruct c; simpl; rewrite lookup_empty;
      split; [discriminate|now intros (e & [=] & _)| discriminate
             |now intros (e & [=] & _)|discriminate|now intros (e & [=] & _)].
  - rewrite populate_snoc, addEvent_entries.
    destruct (decide (collectionOf e = c /\ common.Path e = k)) as [[Hc Hk]|Hno].
    + rewrite decide_True by exact Hc. rewrite Hk, lookup_insert_eq. split.
      * intros [= <-]. exists e. rewrite list_lookup_middle by reflexivity.
        repeat split; auto. intros j e' Hj He'.
        apply lookup_lt_Some in He'. rewrite length_app in He'. simpl in He'. lia.
      * intros (e0 & He0 & _ & _ & Hlast). f_equal.
        destruct (decide (i = length events)) as [->|Hne]; [reflexivity|].
        exfalso. apply lookup_lt_Some in He0 as Hlt.
        rewrite length_app in Hlt. simpl in Hlt.
        apply (Hlast (length events) e); auto; [lia|].
        now rewrite list_lookup_middle.
    + enough (Hrest : entries c (batch (populate w events)) !! k = Some i <->
                      exists e0,
                        (events ++ [e])%list !! i = Some e0 /\ collectionOf e0 = c /\
                        common.Path e0 = k /\
                        forall j e', i < j -> (events ++ [e])%list !! j = Some e' ->
                                     collectionOf e' = c -> common.Path e' <> k).
      { destruct (decide (collectionOf e = c)) as [Hc|Hc]; [|exact Hrest].
        rewrite lookup_insert_ne; [exact Hrest|]. intros Hk. now apply Hno. }
      rewrite IH. split.
      * intros (e0 & He0 & Hc0 & Hk0 & Hlast). exists e0.
        repeat split; auto; [now apply lookup_app_l_Some|].
        intros j e' Hj He' Hc'.
        destruct (decide (j = length events)) as [->|Hne].
        -- rewrite list_lookup_middle in He' by reflexivity. injection He' as <-.
           intros Hk'. now apply Hno.
        -- apply (Hlast j e' Hj); auto.
           apply lookup_lt_Some in He' as Hlt. rewrite length_app in Hlt. simpl in Hlt.
           rewrite lookup_app_l in He' by lia. exact He'.
      * intros (e0 & He0 & Hc0 & Hk0 & Hlast).
        destruct (decide (i = length events)) as [->|Hne].
        -- rewrite list_lookup_middle in He0 by reflexivity. injection He0 as <-.
           exfalso. now apply Hno.
        -- apply lookup_lt_Some in He0 as Hlt. rewrite length_app in Hlt. simpl in Hlt.
           rewrite lookup_app_l in He0 by lia.
           exists e0. repeat split; auto. intros j e' Hj He'.
           apply (Hlast j e' Hj). now apply lookup_app_l_Some.
Qed.

Lemma populate_rest {World} (w : World) (events : list common.EventInfo) :
  let st := populate w events in
  FileMoves (batch st) = ∅ /\ RefreshFilesUuid (batch st) = ∅ /\
  SessionProvider (batch st) = None /\
  world st = w /\ probes st = [] /\ sent st = [].
Proof.
  induction events as [|e events IH] using rev_ind; [now repeat split|].
  rewrite populate_snoc. destruct IH as (H1 & H2 & H3 & H4 & H5 & H6).
  unfold addEvent. simpl.
  destruct (_ || _); [destruct (common.Folder e)|]; simpl; now repeat split.
Qed.

(** X6: the batch that [ProcessEvents] hands to the filter. The event at
    position [i] of the list is the [BatchedEvent] at address [i], filed under
    its path, with no node; the entry of a key in [CreateFiles],
    [CreateFolders] or [Deletes] is the last event of the list that goes to
    that collection with that path (the last writer wins); [FileMoves] and
    [RefreshFilesUuid] are empty and nothing was probed or sent. *)
Theorem populate_last_writer_wins {World} (w : World) (events : list common.EventInfo) :
  let st := populate w events in
  (forall i, heap st !! i = batched <$> events !! i) /\
  (forall c k i,
      entries c (batch st) !! k = Some i <->
      exists e,
        events !! i = Some e /\ collectionOf e = c /\ common.Path e = k /\
        forall j e', i < j -> events !! j = Some e' -> collectionOf e' = c ->
                     common.Path e' <> k) /\
  FileMoves (batch st) = ∅ /\ RefreshFilesUuid (batch st) = ∅ /\
  world st = w /\ probes st = [] /\ sent st = [].
Proof.
  intros st. destruct (populate_rest w events) as (H1 & H2 & _ & H4 & H5 & H6).
  split; [apply populate_heap|]. split; [apply populate_entries|].
  now repeat split.
Qed.

(** * Further facts about the filter *)

Section FilterInvariants.

Context {World : Type}.
Variable LoadNode :
  common.Endpoint -> World -> string -> option bool ->
  (option tree.Node * error) * World.
Variable rangeOrder : World -> list string -> list string * World.

#[local] Existing Instances M_ret M_bind.
#[local] Abbreviation State := (St World).
#[local] Abbreviation M := (@M World).
#[local] Abbreviation triple := (triple (World := World)).

Lemma triple_bind {A B} (P : State -> Prop) (R : A -> State -> Prop)
      (Q : B -> State -> Prop) (c : M A) (k : A -> M B) :
  triple P c R -> (forall a, triple (R a) (k a) Q) -> triple P (c ≫= k) Q.
Proof.
  intros Hc Hk st b st'' HP Hrun.
  apply bind_Ok_inv in Hrun as (a & st' & Hrun1 & Hrun2).
  eapply Hk; [|exact Hrun2]. eapply Hc; eauto.
Qed.

Lemma triple_conseq {A} (P P' : State -> Prop) (Q Q' : A -> State -> Prop) (c : M A) :
  triple P' c Q' -> (forall st, P st -> P' st) -> (forall a st, Q' a st -> Q a st) ->
  triple P c Q.
Proof. intros Hc HP HQ st a st' Hst Hrun. eapply HQ, Hc; eauto. Qed.

Lemma triple_ret {A} (P : State -> Prop) (Q : A -> State -> Prop) (a : A) :
  (forall st, P st -> Q a st) -> triple P (ret a : M A) Q.
Proof. intros H st a' st' HP [= <- <-]. now apply H. Qed.

Lemma triple_panic {A} (P : State -> Prop) (Q : A -> State -> Prop) (msg : string) :
  triple P (panic msg : M A) Q.
Proof. intros st a st' _ [=]. Qed.

Lemma triple_gets {A} (P : State -> Prop) (Q : A -> State -> Prop) (f : State -> A) :
  (forall st, P st -> Q (f st) st) -> triple P (gets f) Q.
Proof. intros H st a st' HP [= <- <-]. now apply H. Qed.

Lemma triple_modify (P : State -> Prop) (Q : unit -> State -> Prop)
      (f : State -> State) :
  (forall st, P st -> Q tt (f st)) -> triple P (modify f) Q.
Proof. intros H st [] st' HP [= <-]. now apply H. Qed.

Lemma triple_deref (P : State -> Prop) (Q : BatchedEvent -> State -> Prop) (p : ptr) :
  (forall st e, P st -> heap st !! p = Some e -> Q e st) -> triple P (deref p : M _) Q.
Proof.
  intros H st e st' HP. unfold deref. destruct (heap st !! p) as [e'|] eqn:He;
    [|discriminate].
  intros [= <- <-]. now apply H.
Qed.

Lemma triple_probe (P : State -> Prop) (Q : option tree.Node * error -> State -> Prop)
      ep path hint :
  (forall st r w, P st -> LoadNode ep (world st) path hint = (r, w) ->
                  Q r (reframe st w (probes st ++ [(ep, path, hint)])
                               (possibleMoves st) (deleteDelete st))) ->
  triple P (probe LoadNode ep path hint) Q.
Proof.
  intros H st r st' HP. unfold probe.
  destruct (LoadNode ep (world st) path hint) as [r' w] eqn:Hr.
  intros [= <- <-]. now apply H.
Qed.

Lemma triple_rangeKeys (P : State -> Prop) (Q : list string -> State -> Prop) sel :
  (forall st ks w, P st ->
                   rangeOrder (world st) (map fst (map_to_list (sel (batch st)))) = (ks, w) ->
                   Q ks (reframe st w (probes st) (possibleMoves st) (deleteDelete st))) ->
  triple P (rangeKeys rangeOrder sel) Q.
Proof.
  intros H st ks st' HP. unfold rangeKeys.
  destruct (rangeOrder _ _) as [ks' w] eqn:Hr.
  intros [= <- <-]. now apply H.
Qed.

(** A loop over a list, with a property that depends on what is left to
    walk. *)
Lemma triple_forM {A} (I : list A -> State -> Prop) (l : list A) (body : A -> M unit) :
  (forall x l', triple (I (x :: l')) (body x) (fun _ => I l')) ->
  triple (I l) (forM l body) (fun _ => I []).
Proof.
  intros Hbody. induction l as [|x l IH]; simpl.
  - apply triple_ret. auto.
  - apply (triple_bind _ (fun _ => I l) _ (body x) (fun _ => forM l body)); auto.
Qed.

Lemma triple_visit (P : State -> Prop) (Q : unit -> State -> Prop) sel
      (body : string -> ptr -> M unit) (k : string) :
  (forall p, triple (fun st => P st /\ sel (batch st) !! k = Some p) (body k p) Q) ->
  (forall st, P st -> sel (batch st) !! k = None -> Q tt st) ->
  triple P (visit sel body k) Q.
Proof.
  intros Hsome Hnone. unfold visit.
  apply (triple_bind _ (fun o st => P st /\ o = sel (batch st) !! k)).
  - apply triple_gets. auto.
  - intros [p|].
    + eapply triple_conseq; [apply (Hsome p)| |auto]. now intros st [? <-].
    + apply triple_ret. intros st [? ?]. now apply Hnone.
Qed.

(** A [range] keeps a property that stands a change of world and that each
    turn keeps. *)
Lemma triple_range (I : State -> Prop) sel (body : string -> ptr -> M unit) :
  (forall st w, I st -> I (reframe st w (probes st) (possibleMoves st) (deleteDelete st))) ->
  (forall k p, triple (fun st => I st /\ sel (batch st) !! k = Some p) (body k p)
                      (fun _ => I)) ->
  triple I (range rangeOrder sel body) (fun _ => I).
Proof.
  intros Hframe Hbody. unfold range.
  apply (triple_bind _ (fun _ => I)).
  - apply triple_rangeKeys. intros st ks w HI _. now apply Hframe.
  - intros ks. apply (triple_forM (fun _ => I)). intros k _.
    apply triple_visit; auto.
Qed.

(** ** The phases after [detectFolderMoves] keep every [PhaseInv] *)

(** A property that does not look at [possibleMoves] needs no more than
    this. *)
Lemma PhaseInv_framed (I : State -> Prop) :
  (forall st w pr pm dd, I st -> I (reframe st w pr pm dd)) ->
  (forall st p d n, heap st !! p = Some d -> I st ->
                    I (withHeap (alter (withNode (Some n)) p (heap st)) st)) ->
  (forall st p c n dk, heap st !! p = Some c -> I st -> I (movedByUuid st dk n (Key c) p)) ->
  (forall st c k, I st -> I (withBatch (dropEntry c k (batch st)) st)) ->
  PhaseInv I.
Proof.
  intros Hf Hn Hm Hd. split; eauto.
Qed.

(** The second loop over [batch.CreateFiles] (lines 142-151) keeps what
    stands a change of world and of [possibleMoves]. *)
Lemma frame_lookByEtag (P : State -> Prop) (pd : ptr) (n : tree.Node) :
  (forall st w pr pm dd, P st -> P (reframe st w pr pm dd)) ->
  triple P (range rangeOrder CreateFiles (lookByEtag pd n)) (fun _ => P).
Proof.
  intros Hf. apply triple_range; [intros st w; apply Hf|].
  intros k p. unfold lookByEtag.
  apply (triple_bind _ (fun _ => P)); [apply triple_deref; tauto|].
  intros c. destruct (sameEtag c n); [|apply triple_ret; auto].
  apply triple_modify. intros st Hst. now apply (Hf st).
Qed.

Section Phases.

Variable I : State -> Prop.
Hypothesis HI : PhaseInv I.

Lemma inv_frame' (st : State) w pr dd :
  I st -> I (reframe st w pr (possibleMoves st) dd).
Proof. apply (inv_frame I HI). Qed.

Lemma inv_dropped (c : Collection) (k : string) :
  triple I (modifyBatch (dropEntry c k)) (fun _ => I).
Proof. apply triple_modify. intros st Hst. exact (inv_drop I HI st c k Hst). Qed.

(** The first loop over [batch.CreateFiles] (lines 129-139): when it finds
    nothing it leaves the state as it is. *)
Lemma inv_lookByUuid (P : State -> Prop) (dk : string) (n : tree.Node)
      (ks : list string) :
  (forall st, P st -> I st) ->
  triple P (lookByUuid dk n ks) (fun found st => if found : bool then I st else P st).
Proof.
  intros HP. induction ks as [|k ks IH]; simpl; [apply triple_ret; auto|].
  apply (triple_bind _ (fun _ => P)); [apply triple_gets; auto|].
  intros [p|]; [|exact IH].
  apply (triple_bind _ (fun c st => P st /\ heap st !! p = Some c));
    [apply triple_deref; auto|].
  intros c. destruct (sameUuid c n); [|eapply triple_conseq; [exact IH| |auto]; tauto].
  intros st a st' [Hst Hc] [= <- <-].
  exact (inv_move I HI st p c n dk Hc (HP st Hst)).
Qed.

Lemma inv_lookByEtag (kd : string) (pd : ptr) (d : BatchedEvent) (n : tree.Node) :
  Node d = Some n -> tree.IsLeaf n = true ->
  triple (fun st => I st /\ Deletes (batch st) !! kd = Some pd /\ heap st !! pd = Some d)
         (range rangeOrder CreateFiles (lookByEtag pd n)) (fun _ => I).
Proof.
  intros Hn Hleaf.
  eapply triple_conseq with (Q' := fun _ st => I st /\ Deletes (batch st) !! kd = Some pd /\
                                             heap st !! pd = Some d);
    [|intros st H; exact H|tauto].
  apply triple_range.
  { intros st w (Hst & Hk & Hd). split; [now apply inv_frame'|auto]. }
  intros k p. unfold lookByEtag.
  apply (triple_bind _ (fun c st =>
           (I st /\ Deletes (batch st) !! kd = Some pd /\ heap st !! pd = Some d) /\
           CreateFiles (batch st) !! k = Some p /\ heap st !! p = Some c)).
  { apply triple_deref. tauto. }
  intros c. destruct (sameEtag c n) eqn:He; [|apply triple_ret; tauto].
  apply triple_modify. intros st ((Hst & Hk & Hd) & Hp & Hc).
  split; [|auto].
  exact (inv_candidate I HI st kd pd d n k p c Hk Hd Hn Hleaf Hp Hc He Hst).
Qed.

Lemma inv_loadDeleteNode (P : State -> Prop) (d : BatchedEvent) :
  (forall st w pr, P st -> P (reframe st w pr (possibleMoves st) (deleteDelete st))) ->
  triple P (loadDeleteNode LoadNode d) (fun _ => P).
Proof.
  intros Hframe. unfold loadDeleteNode. destruct (Node d); [apply triple_ret; auto|].
  apply (triple_bind _ (fun _ => P)).
  - apply triple_probe. intros st r w Hst _. now apply Hframe.
  - intros [n e]. apply triple_ret. auto.
Qed.

Lemma inv_detectFileMove (k : string) (p : ptr) :
  triple (fun st => I st /\ Deletes (batch st) !! k = Some p)
         (detectFileMove LoadNode rangeOrder k p) (fun _ => I).
Proof.
  unfold detectFileMove.
  set (R := fun (d : BatchedEvent) (st : State) =>
    I st /\ Deletes (batch st) !! k = Some p /\ heap st !! p = Some d).
  apply (triple_bind _ R); [apply triple_deref; unfold R; tauto|].
  intros d. apply (triple_bind _ (fun _ => R d)).
  { apply inv_loadDeleteNode. intros st w pr (? & ? & ?). split; [|auto].
    now apply inv_frame'. }
  intros [n|].
  - apply (triple_bind _ (fun _ => R (withNode (Some n) d))).
    { apply triple_modify. intros st (Hst & Hk & Hd). split; [|split; [exact Hk|]].
      - exact (inv_node I HI st k p d n Hk Hd Hst).
      - cbn. now rewrite lookup_alter_eq, Hd. }
    intros _. destruct (tree.IsLeaf n) eqn:Hleaf; [|apply triple_ret; unfold R; tauto].
    apply (triple_bind _ (fun _ => R (withNode (Some n) d))).
    { apply triple_rangeKeys. intros st ks w (Hst & Hk & Hd) _. split; [|auto].
      now apply inv_frame'. }
    intros ks.
    apply (triple_bind _ (fun found st =>
             if found : bool then I st else R (withNode (Some n) d) st)).
    { apply inv_lookByUuid. unfold R. tauto. }
    intros [|]; [apply triple_ret; auto|].
    now apply (inv_lookByEtag k p (withNode (Some n) d) n).
  - eapply triple_conseq with (P' := I) (Q' := fun _ => I); [|unfold R; tauto|auto].
    unfold hasKey.
    apply (triple_bind _ (fun _ => I)); [apply triple_gets; auto|]. intros cf.
    apply (triple_bind _ (fun _ => I)); [apply triple_gets; auto|]. intros cfo.
    apply (triple_bind _ (fun _ => I)); [|intros _; apply (inv_dropped InDeletes)].
    destruct (cf || cfo); [|apply triple_ret; auto].
    apply (triple_bind _ (fun _ => I)).
    { apply triple_probe. intros st r w Hst _. now apply inv_frame'. }
    intros [[e|] err]; [apply triple_ret; auto|].
    apply (triple_bind _ (fun _ => I)).
    + destruct cf; [apply (inv_dropped InCreateFiles)|apply triple_ret; auto].
    + intros _. destruct cfo; [apply (inv_dropped InCreateFolders)|apply triple_ret; auto].
Qed.

Lemma inv_detectFileMoves :
  triple I (detectFileMoves LoadNode rangeOrder) (fun _ => I).
Proof.
  unfold detectFileMoves.
  apply (triple_bind _ (fun _ => I)).
  - apply triple_modify. intros st Hst. exact (inv_reset I HI st Hst).
  - intros _. apply triple_range; [intros st w; apply inv_frame'|].
    intros k p. apply inv_detectFileMove.
Qed.

Lemma inv_commitMove (move : Move) : triple I (commitMove move) (fun _ => I).
Proof.
  unfold commitMove. intros st a st' Hst Hrun.
  unfold mbind, M_bind, bind, deref, setNode, putFileMoves, deleteDeletes,
    deleteCreateFiles, modifyBatch, modify in Hrun.
  destruct (heap st !! createEvent move) as [c|] eqn:Hc; [|discriminate].
  simpl in Hrun.
  destruct (alter (withNode (Some (dbNode move))) (createEvent move) (heap st)
              !! deleteEvent move) as [d|]; [|discriminate].
  injection Hrun as <- <-.
  exact (inv_move I HI st (createEvent move) c (dbNode move) (Key d) Hc Hst).
Qed.

Lemma inv_commitClosestMoves
      (sortClosestMoves : gmap ptr BatchedEvent -> list Move -> list Move) :
  triple I (commitClosestMoves sortClosestMoves) (fun _ => I).
Proof.
  unfold commitClosestMoves.
  apply (triple_bind _ (fun _ => I)); [apply triple_gets; auto|].
  intros moves. apply (triple_forM (fun _ => I)). intros move _. apply inv_commitMove.
Qed.

Lemma inv_nodePath (P : State -> Prop) (p : ptr) :
  triple P (nodePath p : M _) (fun _ => P).
Proof.
  unfold nodePath. apply (triple_bind _ (fun _ => P)); [apply triple_deref; auto|].
  intros e. destruct (Node e); [apply triple_ret; auto|apply triple_panic].
Qed.

Lemma inv_pruneDeletes : triple I (pruneDeletes rangeOrder) (fun _ => I).
Proof.
  unfold pruneDeletes.
  apply (triple_bind _ (fun _ => I)).
  { apply triple_modify. intros st Hst. now apply (inv_frame' st). }
  intros _. apply (triple_bind _ (fun _ => I)).
  - apply triple_range; [intros st w; apply inv_frame'|]. intros k p. unfold pruneOuter.
    apply (triple_bind _ (fun _ => I)).
    { eapply triple_conseq; [apply (inv_nodePath I)|tauto|auto]. }
    intros deletePath. apply triple_range; [intros st w; apply inv_frame'|]. intros k' p'.
    unfold pruneInner. apply (triple_bind _ (fun _ => I)).
    { eapply triple_conseq; [apply (inv_nodePath I)|tauto|auto]. }
    intros from. destruct (isUnder from deletePath); [|apply triple_ret; auto].
    apply triple_modify. intros st Hst. now apply (inv_frame' st).
  - intros _. apply (triple_bind _ (fun _ => I)); [apply triple_gets; auto|].
    intros dd. apply (triple_forM (fun _ => I)). intros k _.
    apply (inv_dropped InDeletes).
Qed.

(** Lines 113-210: what [FilterBatch] does after [detectFolderMoves] keeps
    [I] up to the last notification. *)
Lemma inv_resolveMovesAndPrune
      (sortClosestMoves : gmap ptr BatchedEvent -> list Move -> list Move)
      (Q : State -> Prop) :
  (forall st, I st -> Q (withSent (sent st ++ ["filter:end"]) st)) ->
  triple I (resolveMovesAndPrune LoadNode rangeOrder sortClosestMoves) (fun _ => Q).
Proof.
  intros HQ. unfold resolveMovesAndPrune.
  apply (triple_bind _ (fun _ => I)); [apply inv_detectFileMoves|]. intros _.
  apply (triple_bind _ (fun _ => I)); [apply inv_commitClosestMoves|]. intros _.
  apply (triple_bind _ (fun _ => I)); [apply inv_pruneDeletes|]. intros _.
  apply triple_modify. intros st Hst. now apply HQ.
Qed.

End Phases.

(** ** The loops over the creates keep every [CreateInv] *)

(** A property that does not look at the probe log needs no more than
    this. *)
Lemma CreateInv_framed (I : State -> Prop) :
  (forall st w pr pm dd, I st -> I (reframe st w pr pm dd)) ->
  (forall st c k p e node,
      c <> InDeletes -> entries c (batch st) !! k = Some p ->
      heap st !! p = Some e ->
      (c = InCreateFiles -> is_Some node) ->
      I st -> I (withHeap (alter (withNode node) p (heap st)) st)) ->
  (forall st c k p e,
      c <> InDeletes -> entries c (batch st) !! k = Some p ->
      heap st !! p = Some e ->
      I st ->
      I (withBatch (dropEntry InDeletes (Key e) (dropEntry c (Key e) (batch st))) st)) ->
  (forall st k p e n,
      CreateFiles (batch st) !! k = Some p ->
      heap st !! p = Some e -> Node e = Some n ->
      tree.Uuid n = "" -> path.Base (tree.Path n) <> common.PYDIO_SYNC_HIDDEN_FILE_META ->
      I st ->
      I (withBatch (setRefreshFilesUuid (<[Key e := p]> (RefreshFilesUuid (batch st)))
                                        (batch st)) st)) ->
  CreateInv I.
Proof. intros Hf Hn Hd Hr. split; eauto. Qed.

Lemma frame_loadCreateNode (P : State -> Prop) (hint : option bool) (e : BatchedEvent) :
  (forall st w pr, P st -> P (reframe st w pr (possibleMoves st) (deleteDelete st))) ->
  triple P (loadCreateNode LoadNode hint e) (fun _ => P).
Proof.
  intros Hframe. unfold loadCreateNode. destruct (hasScanNode e); [apply triple_ret; auto|].
  apply triple_probe. intros st r w Hst _. now apply Hframe.
Qed.

Section Creates.

Variable I : State -> Prop.
Hypothesis HI : CreateInv I.

Lemma cinv_loadCreateNode (c : Collection) (k : string) (p : ptr) (e : BatchedEvent) :
  c <> InDeletes ->
  triple (fun st => I st /\ entries c (batch st) !! k = Some p /\ heap st !! p = Some e)
         (loadCreateNode LoadNode (hintOf c) e)
         (fun _ st => I st /\ entries c (batch st) !! k = Some p /\ heap st !! p = Some e).
Proof.
  intros Hc. unfold loadCreateNode.
  destruct (hasScanNode e) eqn:Hscan; [apply triple_ret; auto|].
  apply triple_probe. intros st r w (Hst & Hk & He) _. split; [|auto].
  exact (cinv_probe I HI st c k p e w Hc Hk He Hscan Hst).
Qed.

Lemma cinv_enrichCreateFile (k : string) (p : ptr) :
  triple (fun st => I st /\ CreateFiles (batch st) !! k = Some p)
         (enrichCreateFile LoadNode k p) (fun _ => I).
Proof.
  unfold enrichCreateFile.
  set (P e := fun st : State => I st /\ CreateFiles (batch st) !! k = Some p /\
                                heap st !! p = Some e).
  apply (triple_bind _ (fun e => P e)).
  { apply triple_deref. intros st e [? ?] ?. now repeat split. }
  intros e. apply (triple_bind _ (fun _ => P e)).
  { apply (cinv_loadCreateNode InCreateFiles k p e). discriminate. }
  intros [node [msg|]].
  - intros st [] st' (Hst & Hk & He) [= <-].
    exact (cinv_drop I HI st InCreateFiles k p e ltac:(discriminate) Hk He Hst).
  - destruct node as [n|]; [|now intros st a st' _ [=]].
    intros st [] st' (Hst & Hk & He) Hrun.
    pose proof (cinv_node I HI st InCreateFiles k p e (Some n) ltac:(discriminate)
                          Hk He ltac:(eauto) Hst) as Hst1.
    unfold mbind, M_bind, bind, setNode, modify in Hrun. cbn beta iota in Hrun.
    destruct (String.eqb (tree.Uuid n) "") eqn:Hu; cbn [andb] in Hrun;
      [|injection Hrun as <-; exact Hst1].
    destruct (String.eqb (path.Base (tree.Path n)) common.PYDIO_SYNC_HIDDEN_FILE_META)
      eqn:Hb; cbn [negb] in Hrun; [injection Hrun as <-; exact Hst1|].
    injection Hrun as <-.
    apply String.eqb_eq in Hu. apply String.eqb_neq in Hb.
    refine (cinv_refresh I HI _ k p (withNode (Some n) e) n _ _ eq_refl Hu Hb Hst1).
    + exact Hk.
    + cbn. now rewrite lookup_alter_eq, He.
Qed.

Lemma cinv_enrichCreateFolder (k : string) (p : ptr) :
  triple (fun st => I st /\ CreateFolders (batch st) !! k = Some p)
         (enrichCreateFolder LoadNode k p) (fun _ => I).
Proof.
  unfold enrichCreateFolder.
  set (P e := fun st : State => I st /\ CreateFolders (batch st) !! k = Some p /\
                                heap st !! p = Some e).
  apply (triple_bind _ (fun e => P e)).
  { apply triple_deref. intros st e [? ?] ?. now repeat split. }
  intros e. apply (triple_bind _ (fun _ => P e)).
  { apply (cinv_loadCreateNode InCreateFolders k p e). discriminate. }
  intros [node [msg|]].
  - intros st [] st' (Hst & Hk & He) [= <-].
    exact (cinv_drop I HI st InCreateFolders k p e ltac:(discriminate) Hk He Hst).
  - apply triple_modify. intros st (Hst & Hk & He).
    apply (cinv_node I HI st InCreateFolders k p e node); auto; discriminate.
Qed.

(** Lines 64-109: the start notification and the two loops over the creates
    lead from [P] to [I]. *)
Lemma cinv_enrichCreates (P : State -> Prop) :
  (forall st, P st -> I (withSent (sent st ++ ["filter:start"]) st)) ->
  triple P (enrichCreates LoadNode rangeOrder) (fun _ => I).
Proof.
  intros HP. unfold enrichCreates.
  apply (triple_bind _ (fun _ => I)).
  { apply triple_modify. intros st Hst. now apply HP. }
  intros _. apply (triple_bind _ (fun _ => I)).
  - apply triple_range; [apply (cinv_frame I HI)|apply cinv_enrichCreateFile].
  - intros _. apply triple_range; [apply (cinv_frame I HI)|apply cinv_enrichCreateFolder].
Qed.

End Creates.

(** ** The filter only removes creates and deletes, and only rewrites nodes *)

Lemma sameEvents_refl (h : gmap ptr BatchedEvent) : sameEvents h h.
Proof. now intros p. Qed.

Lemma sameEvents_alter (h0 h : gmap ptr BatchedEvent) (n : option tree.Node) (p : ptr) :
  sameEvents h0 h -> sameEvents h0 (alter (withNode n) p h).
Proof.
  intros Hh q. rewrite <- (Hh q). destruct (decide (q = p)) as [->|Hne].
  - rewrite lookup_alter_eq. now destruct (h !! p).
  - now rewrite lookup_alter_ne.
Qed.

Lemma sameEvents_Key (h0 h : gmap ptr BatchedEvent) (p : ptr) (e : BatchedEvent) :
  sameEvents h0 h -> h !! p = Some e -> Key <$> h0 !! p = Some (Key e).
Proof.
  intros Hh He. specialize (Hh p). rewrite He in Hh.
  destruct (h0 !! p) as [e0|]; [|discriminate].
  unfold withNode in Hh. cbn in *. congruence.
Qed.

Lemma shrunk_refl (b : Batch) : shrunk b b.
Proof. now repeat split. Qed.

Lemma shrunk_drop (b0 b : Batch) (c : Collection) (k : string) :
  shrunk b0 b -> shrunk b0 (dropEntry c k b).
Proof.
  intros (H1 & H2 & H3).
  destruct c; repeat split; cbn; auto; (etrans; [apply delete_subseteq|]); auto.
Qed.

Lemma onlyRemoved_moved (st0 : State) : PhaseInv (fun st =>
  onlyRemoved st0 st /\
  RefreshFilesUuid (batch st) = RefreshFilesUuid (batch st0) /\
  grownByKey (heap st0) (FileMoves (batch st0)) (FileMoves (batch st)) /\
  (forall k, is_Some (FileMoves (batch st0) !! k) -> is_Some (FileMoves (batch st) !! k))).
Proof.
  apply PhaseInv_framed.
  - intros s w pr pm dd H. exact H.
  - intros s p d n Hd ((Hb & Hh) & Hr & Hg & Hm).
    split; [split; [exact Hb|now apply sameEvents_alter]|auto].
  - intros s p c n dk Hc ((Hb & Hh) & Hr & Hg & Hm).
    split; [split|split; [exact Hr|split]]; cbn.
    + destruct Hb as (H1 & H2 & H3). split; [|split]; cbn; auto;
        (etrans; [apply delete_subseteq|]); auto.
    + now apply sameEvents_alter.
    + intros k q. rewrite lookup_insert_Some. intros [[<- <-]|[_ Hq]]; [|now apply Hg].
      right. eapply sameEvents_Key; eauto.
    + intros k Hk. rewrite lookup_insert_is_Some'. right. now apply Hm.
  - intros s c k ((Hb & Hh) & Hr & Hg & Hm).
    split; [split; [now apply shrunk_drop|exact Hh]|].
    now destruct c.
Qed.

Lemma onlyRemoved_refreshed (st0 : State) : CreateInv (fun st =>
  onlyRemoved st0 st /\
  FileMoves (batch st) = FileMoves (batch st0) /\
  grownByKey (heap st0) (RefreshFilesUuid (batch st0)) (RefreshFilesUuid (batch st))).
Proof.
  apply CreateInv_framed.
  - intros s w pr pm dd H. exact H.
  - intros s c k p e node _ _ _ _ ((Hb & Hh) & Hm & Hg).
    split; [split; [exact Hb|now apply sameEvents_alter]|auto].
  - intros s c k p e _ _ _ ((Hb & Hh) & Hm & Hg).
    split; [split; [now apply shrunk_drop, shrunk_drop|exact Hh]|].
    now destruct c.
  - intros s k p e n Hk He _ _ _ ((Hb & Hh) & Hm & Hg).
    split; [split; [exact Hb|exact Hh]|split; [exact Hm|]].
    intros k' q. cbn. rewrite lookup_insert_Some. intros [[<- <-]|[_ Hq]]; [|now apply Hg].
    right. eapply sameEvents_Key; eauto.
Qed.

(** X7: the two loops over the creates (lines 64-109) only take entries out
    of [CreateFiles], [CreateFolders] and [Deletes]; they leave [FileMoves] as
    it is, change nothing of an event but its node, and what they put in
    [RefreshFilesUuid] is an event of the heap under its own key. *)
Theorem enrichCreates_only_removes (st st' : State) :
  enrichCreates LoadNode rangeOrder st = Ok (tt, st') ->
  shrunk (batch st) (batch st') /\
  sameEvents (heap st) (heap st') /\
  FileMoves (batch st') = FileMoves (batch st) /\
  grownByKey (heap st) (RefreshFilesUuid (batch st)) (RefreshFilesUuid (batch st')).
Proof.
  intros Hrun.
  pose proof (cinv_enrichCreates _ (onlyRemoved_refreshed st) (fun s => s = st)) as H.
  destruct (H ltac:(intros ? ->; split; [split; [apply shrunk_refl|apply sameEvents_refl]|];
                    split; [reflexivity|intros ? ? ?; now left])
              st tt st' eq_refl Hrun) as ((Hb & Hh) & Hm & Hg).
  auto.
Qed.

(** X8: what follows [detectFolderMoves] (lines 113-210) only takes entries
    out of [CreateFiles], [CreateFolders] and [Deletes]; it leaves
    [RefreshFilesUuid] as it is and changes nothing of an event but its node;
    no key leaves [FileMoves], and what it puts there is an event of the heap
    under its own key. *)
Theorem resolveMovesAndPrune_only_removes
        (sortClosestMoves : gmap ptr BatchedEvent -> list Move -> list Move)
        (st st' : State) :
  resolveMovesAndPrune LoadNode rangeOrder sortClosestMoves st = Ok (tt, st') ->
  shrunk (batch st) (batch st') /\
  sameEvents (heap st) (heap st') /\
  RefreshFilesUuid (batch st') = RefreshFilesUuid (batch st) /\
  grownByKey (heap st) (FileMoves (batch st)) (FileMoves (batch st')) /\
  (forall k, is_Some (FileMoves (batch st) !! k) -> is_Some (FileMoves (batch st') !! k)).
Proof.
  intros Hrun.
  set (I := fun s : State =>
    onlyRemoved st s /\
    RefreshFilesUuid (batch s) = RefreshFilesUuid (batch st) /\
    grownByKey (heap st) (FileMoves (batch st)) (FileMoves (batch s)) /\
    (forall k, is_Some (FileMoves (batch st) !! k) -> is_Some (FileMoves (batch s) !! k))).
  assert (HI : I st).
  { split; [split; [apply shrunk_refl|apply sameEvents_refl]|].
    split; [reflexivity|split; [intros ? ? ?; now left|auto]]. }
  destruct (inv_resolveMovesAndPrune I (onlyRemoved_moved st) sortClosestMoves I
              (fun s Hs => Hs) st tt st' HI Hrun) as ((Hb & Hh) & Hr & Hg & Hm).
  auto.
Qed.

(** ** Every delete that is left has a node *)

Lemma triple_conj {A} (P1 P2 : State -> Prop) (Q1 Q2 : A -> State -> Prop) (c : M A) :
  triple P1 c Q1 -> triple P2 c Q2 ->
  triple (fun st => P1 st /\ P2 st) c (fun a st => Q1 a st /\ Q2 a st).
Proof. intros H1 H2 st a st' [? ?] Hrun. split; [eapply H1|eapply H2]; eauto. Qed.

Lemma triple_pure {A} (phi : Prop) (P : State -> Prop) (Q : A -> State -> Prop) (c : M A) :
  (phi -> triple P c Q) -> triple (fun st => phi /\ P st) c Q.
Proof. intros H st a st' [Hphi HP]. now apply H. Qed.

Lemma triple_True {A} (P : State -> Prop) (c : M A) : triple P c (fun _ _ => True).
Proof. now intros st a st' _ _. Qed.

Lemma PhaseInv_and (I1 I2 : State -> Prop) :
  PhaseInv I1 -> PhaseInv I2 -> PhaseInv (fun st => I1 st /\ I2 st).
Proof.
  intros H1 H2. split.
  - intros st w pr dd [? ?]. split; [apply (inv_frame I1 H1)|apply (inv_frame I2 H2)]; auto.
  - intros st [? ?]. split; [apply (inv_reset I1 H1)|apply (inv_reset I2 H2)]; auto.
  - intros st kd pd d n kc pc c ? ? ? ? ? ? ? [? ?].
    split; [eapply (inv_candidate I1 H1)|eapply (inv_candidate I2 H2)]; eauto.
  - intros st k p d n Hk Hd [? ?].
    split; [eapply (inv_node I1 H1)|eapply (inv_node I2 H2)]; eauto.
  - intros st p c n dk Hc [? ?].
    split; [eapply (inv_move I1 H1)|eapply (inv_move I2 H2)]; eauto.
  - intros st c k [? ?]. split; [apply (inv_drop I1 H1)|apply (inv_drop I2 H2)]; auto.
Qed.

Lemma allResolved_resolved (h : gmap ptr BatchedEvent) (m : gmap string ptr) :
  allResolved h m <-> resolved h m.
Proof.
  unfold allResolved, resolved, nodeAt, hasNode. split.
  - intros H k p Hk. specialize (H k ltac:(eauto)). rewrite Hk in H.
    now destruct (h !! p).
  - intros H k [p Hk]. specialize (H k p Hk). rewrite Hk.
    now destruct (h !! p).
Qed.

Lemma Key_alter (h : gmap ptr BatchedEvent) (n : option tree.Node) (p q : ptr) :
  Key <$> alter (withNode n) p h !! q = Key <$> h !! q.
Proof.
  destruct (decide (q = p)) as [->|Hne].
  - rewrite lookup_alter_eq. now destruct (h !! p).
  - now rewrite lookup_alter_ne.
Qed.

Lemma wellKeyed_alter (h : gmap ptr BatchedEvent) (m : gmap string ptr)
      (n : option tree.Node) (p : ptr) :
  wellKeyed h m -> wellKeyed (alter (withNode n) p h) m.
Proof. intros H k q Hk. rewrite Key_alter. now apply H. Qed.

Lemma wellKeyed_delete (h : gmap ptr BatchedEvent) (m : gmap string ptr) (k : string) :
  wellKeyed h m -> wellKeyed h (delete k m).
Proof. apply map_Forall_delete. Qed.

Lemma hasNode_alter (h : gmap ptr BatchedEvent) (n : tree.Node) (p q : ptr) :
  hasNode h q -> hasNode (alter (withNode (Some n)) p h) q.
Proof.
  unfold hasNode. destruct (decide (q = p)) as [->|Hne].
  - rewrite lookup_alter_eq. destruct (h !! p); cbn; eauto.
  - now rewrite lookup_alter_ne.
Qed.

Lemma hasNode_alter_eq (h : gmap ptr BatchedEvent) (n : tree.Node) (p : ptr) :
  is_Some (h !! p) -> hasNode (alter (withNode (Some n)) p h) p.
Proof. intros [d Hd]. unfold hasNode. rewrite lookup_alter_eq, Hd. cbn. eauto. Qed.

Lemma resolved_alter (h : gmap ptr BatchedEvent) (m : gmap string ptr)
      (n : tree.Node) (p : ptr) :
  resolved h m -> resolved (alter (withNode (Some n)) p h) m.
Proof. intros H k q Hk. apply hasNode_alter. eauto. Qed.

Lemma resolved_delete (h : gmap ptr BatchedEvent) (m : gmap string ptr) (k : string) :
  resolved h m -> resolved h (delete k m).
Proof. intros H k' q. rewrite lookup_delete_Some. intros [_ Hk]. eauto. Qed.

Lemma resolvedBut_inv (ks : list string) : PhaseInv (resolvedBut (World := World) ks).
Proof.
  apply PhaseInv_framed.
  - intros st w pr pm dd H. exact H.
  - intros st p d n Hd [Hk Hr]. split; [now apply wellKeyed_alter|].
    intros k q Hq. destruct (Hr k q Hq); [now left|right; now apply hasNode_alter].
  - intros st p c n dk Hc [Hk Hr]. split; cbn.
    + now apply wellKeyed_alter, wellKeyed_delete.
    + intros k q. rewrite lookup_delete_Some. intros [_ Hq].
      destruct (Hr k q Hq); [now left|right; now apply hasNode_alter].
  - intros st c k [Hk Hr]. destruct c; split; cbn; auto.
    + now apply wellKeyed_delete.
    + intros k' q. rewrite lookup_delete_Some. intros [_ Hq]. eauto.
Qed.

Lemma othersResolved_inv : PhaseInv (othersResolved (World := World)).
Proof.
  apply PhaseInv_framed.
  - intros st w pr pm dd H. exact H.
  - intros st p d n Hd (H1 & H2 & H3).
    split; [|split]; now apply resolved_alter.
  - intros st p c n dk Hc (H1 & H2 & H3). split; [|split]; cbn.
    + now apply resolved_alter, resolved_delete.
    + now apply resolved_alter.
    + intros k q. rewrite lookup_insert_Some. intros [[<- <-]|[_ Hq]].
      * apply hasNode_alter_eq. eauto.
      * apply hasNode_alter. eauto.
  - intros st c k (H1 & H2 & H3).
    destruct c; (split; [|split]); cbn; auto; now apply resolved_delete.
Qed.

(** The delete under the key [k] is the event at [p], which has a node, or
    it is gone. *)
Lemma settled_inv (k : string) (p : ptr) : PhaseInv (fun st : State =>
  hasNode (heap st) p /\ forall q, Deletes (batch st) !! k = Some q -> q = p).
Proof.
  apply PhaseInv_framed.
  - intros st w pr pm dd H. exact H.
  - intros st q d n Hd [Hn Hk]. split; [now apply hasNode_alter|exact Hk].
  - intros st q c n dk Hc [Hn Hk]. split; cbn; [now apply hasNode_alter|].
    intros q'. rewrite lookup_delete_Some. intros [_ Hq]. eauto.
  - intros st c k' [Hn Hk]. split; [exact Hn|].
    destruct c; cbn; auto. intros q. rewrite lookup_delete_Some. intros [_ Hq]. eauto.
Qed.

(** One turn of the loop over [batch.Deletes] (lines 114-180) leaves the
    delete it visits with a node, or takes it out. *)
Lemma detectFileMove_settles (k : string) (p : ptr) :
  triple (fun st => wellKeyed (heap st) (Deletes (batch st)) /\
                    Deletes (batch st) !! k = Some p)
         (detectFileMove LoadNode rangeOrder k p)
         (fun _ st => forall q, Deletes (batch st) !! k = Some q -> hasNode (heap st) q).
Proof.
  set (S := fun st : State =>
    hasNode (heap st) p /\ forall q, Deletes (batch st) !! k = Some q -> q = p).
  pose proof (settled_inv k p) as HS. fold S in HS.
  unfold detectFileMove.
  apply (triple_bind _ (fun d st => Key d = k /\ heap st !! p = Some d /\
                                    Deletes (batch st) !! k = Some p)).
  { apply triple_deref. intros st d [Hk Hp] Hd. split; [|auto].
    specialize (Hk k p Hp). cbn in Hk. rewrite Hd in Hk. now injection Hk. }
  intros d. apply triple_pure. intros <-.
  apply (triple_bind _ (fun _ st => heap st !! p = Some d /\
                                    Deletes (batch st) !! Key d = Some p)).
  { apply inv_loadDeleteNode. now intros st w pr H. }
  intros [n|].
  - apply (triple_bind _ (fun _ => S)).
    { apply triple_modify. intros st [Hd Hp]. split; cbn.
      - apply hasNode_alter_eq. eauto.
      - intros q Hq. congruence. }
    intros _. eapply triple_conseq with (P' := S) (Q' := fun _ => S); [|auto|].
    + destruct (tree.IsLeaf n); [|apply triple_ret; auto].
      apply (triple_bind _ (fun _ => S)).
      { apply triple_rangeKeys. intros st ks w Hst _. exact Hst. }
      intros ks. apply (triple_bind _ (fun _ => S)).
      { eapply triple_conseq; [apply (inv_lookByUuid S HS S); auto|auto|].
        now intros [|]. }
      intros [|]; [apply triple_ret; auto|].
      apply frame_lookByEtag. now intros st w pr pm dd H.
    + intros _ st [Hn Hk] q Hq. now rewrite (Hk q Hq).
  - apply (triple_bind _ (fun _ _ => True)); [apply triple_True|]. intros cf.
    apply (triple_bind _ (fun _ _ => True)); [apply triple_True|]. intros cfo.
    apply (triple_bind _ (fun _ _ => True)); [apply triple_True|]. intros _.
    apply triple_modify. intros st _ q. cbn. now rewrite lookup_delete_eq.
Qed.

Lemma detectFileMoves_resolves :
  rangeCovers rangeOrder ->
  triple (fun st => wellKeyed (heap st) (Deletes (batch st)))
         (detectFileMoves LoadNode rangeOrder) (fun _ => resolvedBut []).
Proof.
  intros Hcov. unfold detectFileMoves.
  apply (triple_bind _ (fun _ st => wellKeyed (heap st) (Deletes (batch st))));
    [apply triple_modify; auto|].
  intros _. unfold range.
  apply (triple_bind _ (fun ks => resolvedBut ks)).
  { apply triple_rangeKeys. intros st ks w Hk Hks. split; [exact Hk|].
    intros k p Hp. left. cbn in Hp.
    pose proof (Hcov (world st) (map fst (map_to_list (Deletes (batch st)))) k) as H.
    rewrite Hks in H. apply H.
    apply list_elem_of_fmap. exists (k, p). split; [reflexivity|].
    now apply elem_of_map_to_list. }
  intros ks. apply (triple_forM (fun l => resolvedBut l)). intros k l.
  apply triple_visit.
  - intros p.
    eapply triple_conseq;
      [exact (triple_conj _ _ _ _ _
                (inv_detectFileMove _ (resolvedBut_inv (k :: l)) k p)
                (detectFileMove_settles k p))| |].
    + intros st [[Hk Hr] Hp]. repeat split; auto.
    + intros _ st [[Hk Hr] Hdone]. split; [exact Hk|].
      intros k' q Hq. destruct (Hr k' q Hq) as [Hin|Hn]; [|now right].
      apply elem_of_cons in Hin as [->|Hin]; [right; eauto|now left].
  - intros st [Hk Hr] Hnone. split; [exact Hk|].
    intros k' q Hq. destruct (Hr k' q Hq) as [Hin|Hn]; [|now right].
    apply elem_of_cons in Hin as [->|Hin]; [congruence|now left].
Qed.

(** X9: invariant B3 before the pruning. If every [range] walks at least
    the keys of its map, the deletes are filed under their own keys and the
    creates and moves have a node when [detectFolderMoves] returns, then every
    entry of the four collections has a node when the detection of the file
    moves and the commit of the closest moves (lines 113-189) return, that
    is, before the pruning reads the node of any delete: the loop over the
    deletes gives a node to every delete that it leaves. *)
Theorem entries_have_a_node_before_pruning
        (sortClosestMoves : gmap ptr BatchedEvent -> list Move -> list Move)
        (st st' : State) :
  rangeCovers rangeOrder ->
  wellKeyed (heap st) (Deletes (batch st)) ->
  allResolved (heap st) (CreateFiles (batch st)) ->
  allResolved (heap st) (CreateFolders (batch st)) ->
  allResolved (heap st) (FileMoves (batch st)) ->
  detectAndCommit LoadNode rangeOrder sortClosestMoves st = Ok (tt, st') ->
  allResolved (heap st') (Deletes (batch st')) /\
  allResolved (heap st') (CreateFiles (batch st')) /\
  allResolved (heap st') (CreateFolders (batch st')) /\
  allResolved (heap st') (FileMoves (batch st')).
Proof.
  intros Hcov Hk H1 H2 H3 Hrun.
  rewrite !allResolved_resolved in *.
  set (I := fun s : State => resolvedBut [] s /\ othersResolved s).
  assert (HI : PhaseInv I) by (apply PhaseInv_and; [apply resolvedBut_inv|apply othersResolved_inv]).
  assert (Hfinal : I st').
  { unfold detectAndCommit in Hrun.
    apply bind_Ok_inv in Hrun as ([] & st1 & Hrun1 & Hrun2).
    assert (Hst1 : I st1).
    { refine (triple_conj _ _ _ _ _ (detectFileMoves_resolves Hcov)
                (inv_detectFileMoves _ othersResolved_inv) st tt st1 _ Hrun1).
      split; [exact Hk|]. now split; [|split]. }
    exact (inv_commitClosestMoves I HI sortClosestMoves st1 tt st' Hst1 Hrun2). }
  destruct Hfinal as [[_ Hd] (Hf & Hfo & Hm)].
  split; [|auto]. intros k p Hp. destruct (Hd k p Hp) as [Hin|]; [|auto].
  now apply elem_of_nil in Hin.
Qed.

(** ** Every file create that is left has a node *)

Lemma ptrsApart_delete_l (m1 m2 : gmap string ptr) (k : string) :
  ptrsApart m1 m2 -> ptrsApart (delete k m1) m2.
Proof. intros H k1 k2 p. rewrite lookup_delete_Some. intros [_ H1]. eauto. Qed.

Lemma ptrsApart_delete_r (m1 m2 : gmap string ptr) (k : string) :
  ptrsApart m1 m2 -> ptrsApart m1 (delete k m2).
Proof. intros H k1 k2 p H1. rewrite lookup_delete_Some. intros [_ H2]. eauto. Qed.

Lemma createdBut_inv (ks : list string) : CreateInv (createdBut (World := World) ks).
Proof.
  apply CreateInv_framed.
  - intros st w pr pm dd H. exact H.
  - intros st c k p e node Hc Hk He Hnode (Hw & Ha & Hr).
    split; [now apply wellKeyed_alter|split; [exact Ha|]].
    intros k' q Hq. destruct (Hr k' q Hq) as [|Hn]; [now left|right]. cbn.
    destruct c; [| |done].
    + destruct (Hnode eq_refl) as [n ->]. now apply hasNode_alter.
    + unfold hasNode. rewrite lookup_alter_ne; [exact Hn|].
      intros ->. exact (Ha _ _ _ Hq Hk).
  - intros st c k p e Hc Hk He (Hw & Ha & Hr).
    destruct c; [| |done];
      unfold createdBut, withBatch, dropEntry, setDeletes, setCreateFiles, setCreateFolders;
      cbn [batch heap CreateFiles CreateFolders Deletes].
    + split; [now apply wellKeyed_delete|split; [now apply ptrsApart_delete_l|]].
      intros k' q. rewrite lookup_delete_Some. intros [_ Hq]. eauto.
    + split; [exact Hw|split; [now apply ptrsApart_delete_r|exact Hr]].
  - intros st k p e n _ _ _ _ _ H. exact H.
Qed.

(** One turn of the loop over [batch.CreateFiles] (lines 68-90) that
    returns leaves the create it visits with a node, or takes it out. *)
Lemma enrichCreateFile_settles (k : string) (p : ptr) :
  triple (fun st => wellKeyed (heap st) (CreateFiles (batch st)) /\
                    CreateFiles (batch st) !! k = Some p)
         (enrichCreateFile LoadNode k p)
         (fun _ st => forall q, CreateFiles (batch st) !! k = Some q -> hasNode (heap st) q).
Proof.
  unfold enrichCreateFile.
  apply (triple_bind _ (fun e st => Key e = k /\ heap st !! p = Some e /\
                                    CreateFiles (batch st) !! k = Some p)).
  { apply triple_deref. intros st e [Hk Hp] He. split; [|auto].
    specialize (Hk k p Hp). cbn in Hk. rewrite He in Hk. now injection Hk. }
  intros e. apply triple_pure. intros <-.
  apply (triple_bind _ (fun _ st => heap st !! p = Some e /\
                                    CreateFiles (batch st) !! Key e = Some p)).
  { apply frame_loadCreateNode. now intros st w pr H. }
  intros [node [msg|]].
  - intros st [] st' _ [= <-] q. cbn. now rewrite lookup_delete_eq.
  - destruct node as [n|]; [|now intros st a st' _ [=]].
    apply (triple_bind _ (fun _ st => hasNode (heap st) p /\
                                      CreateFiles (batch st) !! Key e = Some p)).
    { apply triple_modify. intros st [He Hp]. split; [|exact Hp].
      apply hasNode_alter_eq. eauto. }
    intros _. destruct (_ && _).
    + apply triple_modify. intros st [Hn Hp] q Hq. cbn in Hq.
      assert (q = p) as -> by congruence. exact Hn.
    + apply triple_ret. intros st [Hn Hp] q Hq.
      assert (q = p) as -> by congruence. exact Hn.
Qed.

(** X10: invariant B3 for the file creates. If every [range] walks at least
    the keys of its map, the file creates are filed under their own keys and
    none of their events is also a folder create, then every file create that
    the two loops over the creates leave has a node. *)
Theorem file_creates_have_a_node (st st' : State) :
  rangeCovers rangeOrder ->
  wellKeyed (heap st) (CreateFiles (batch st)) ->
  ptrsApart (CreateFiles (batch st)) (CreateFolders (batch st)) ->
  enrichCreates LoadNode rangeOrder st = Ok (tt, st') ->
  allResolved (heap st') (CreateFiles (batch st')).
Proof.
  intros Hcov Hw Ha Hrun. rewrite allResolved_resolved.
  enough (Hfinal : createdBut [] st').
  { destruct Hfinal as (_ & _ & Hr). intros k p Hp.
    destruct (Hr k p Hp) as [Hin|]; [|auto]. now apply elem_of_nil in Hin. }
  unfold enrichCreates in Hrun.
  apply bind_Ok_inv in Hrun as ([] & st1 & [= <-] & Hrun).
  apply bind_Ok_inv in Hrun as ([] & st2 & Hrun2 & Hrun).
  refine (triple_range _ _ _ (cinv_frame _ (createdBut_inv []))
            (cinv_enrichCreateFolder _ (createdBut_inv [])) _ tt st' _ Hrun).
  clear Hrun. revert Hrun2. unfold range. intros Hrun.
  apply bind_Ok_inv in Hrun as (ks & st1 & Hks & Hrun).
  refine (triple_forM (fun l => createdBut l) ks _ _ st1 tt st2 _ Hrun).
  - intros k l. apply triple_visit.
    + intros p.
      eapply triple_conseq;
        [exact (triple_conj _ _ _ _ _
                  (cinv_enrichCreateFile _ (createdBut_inv (k :: l)) k p)
                  (enrichCreateFile_settles k p))| |].
      * intros s [(Hw' & Ha' & Hr) Hp]. repeat split; auto.
      * intros _ s [(Hw' & Ha' & Hr) Hdone]. split; [exact Hw'|split; [exact Ha'|]].
        intros k' q Hq. destruct (Hr k' q Hq) as [Hin|Hn]; [|now right].
        apply elem_of_cons in Hin as [->|Hin]; [right; eauto|now left].
    + intros s (Hw' & Ha' & Hr) Hnone. split; [exact Hw'|split; [exact Ha'|]].
      intros k' q Hq. destruct (Hr k' q Hq) as [Hin|Hn]; [|now right].
      apply elem_of_cons in Hin as [->|Hin]; [congruence|now left].
  - unfold rangeKeys in Hks. cbn in Hks.
    destruct (rangeOrder _ _) as [ks' w] eqn:Hr. injection Hks as <- <-.
    split; [exact Hw|split; [exact Ha|]]. cbn. intros k p Hp. left.
    pose proof (Hcov (world st) (map fst (map_to_list (CreateFiles (batch st)))) k) as H.
    rewrite Hr in H. apply H.
    apply list_elem_of_fmap. exists (k, p). split; [reflexivity|].
    now apply elem_of_map_to_list.
Qed.

(** ** What the pruning takes out *)

Lemma nodePath_spec (P : State -> Prop) (p : ptr) :
  triple P (nodePath p : M _) (fun r st => P st /\ r = pathAt (heap st) p).
Proof.
  unfold nodePath.
  apply (triple_bind _ (fun e st => P st /\ heap st !! p = Some e));
    [apply triple_deref; auto|].
  intros e. destruct (Node e) as [n|] eqn:Hn; [|apply triple_panic].
  apply triple_ret. intros st [HP He]. split; [exact HP|].
  unfold pathAt. rewrite He. cbn. now rewrite Hn.
Qed.

Lemma rangeKeys_covers (sel : Batch -> gmap string ptr) (st : State)
      (ks : list string) (w : World) (k : string) (p : ptr) :
  rangeCovers rangeOrder ->
  rangeOrder (world st) (map fst (map_to_list (sel (batch st)))) = (ks, w) ->
  sel (batch st) !! k = Some p -> k ∈ ks.
Proof.
  intros Hcov Hks Hp.
  pose proof (Hcov (world st) (map fst (map_to_list (sel (batch st)))) k) as H.
  rewrite Hks in H. apply H.
  apply list_elem_of_fmap. exists (k, p). split; [reflexivity|].
  now apply elem_of_map_to_list.
Qed.

Section Prune.

Variable st0 : State.
Hypothesis Hcov : rangeCovers rangeOrder.

#[local] Abbreviation h0 := (heap st0).
#[local] Abbreviation D0 := (Deletes (batch st0)).

(** The loop of lines 195-200, for the delete [px] filed under [x]. *)
Lemma pruneInner_marks (x : string) (px : ptr) (lo : list string) :
  D0 !! x = Some px ->
  triple (fun st => pruning st0 st /\ marksSound h0 D0 (deleteDelete st) /\
                    marksCover h0 D0 (x :: lo) (deleteDelete st))
         (range rangeOrder Deletes (pruneInner (pathAt h0 px)))
         (fun _ st => pruning st0 st /\ marksSound h0 D0 (deleteDelete st) /\
                      marksCover h0 D0 lo (deleteDelete st)).
Proof.
  intros Hx.
  set (N := fun (l : list string) (st : State) =>
    pruning st0 st /\ marksSound h0 D0 (deleteDelete st) /\
    marksCover h0 D0 (x :: lo) (deleteDelete st) /\
    forall k p, D0 !! k = Some p -> isUnder (pathAt h0 p) (pathAt h0 px) = true ->
                k ∈ l \/ k ∈ deleteDelete st).
  unfold range. apply (triple_bind _ N).
  { apply triple_rangeKeys. intros st ks w (Hp & Hs & Hc) Hks.
    split; [exact Hp|split; [exact Hs|split; [exact Hc|]]].
    intros k p Hk _. left. destruct Hp as (_ & Hb & _).
    apply (rangeKeys_covers Deletes st ks w k p Hcov Hks). now rewrite Hb. }
  intros ks. eapply triple_conseq; [apply (triple_forM N)|auto|].
  - intros k l. apply triple_visit.
    + intros p. unfold pruneInner.
      apply (triple_bind _ (fun from st =>
               (N (k :: l) st /\ Deletes (batch st) !! k = Some p) /\
               from = pathAt (heap st) p)); [apply nodePath_spec|].
      intros from. destruct (isUnder from (pathAt h0 px)) eqn:Hu.
      * apply triple_modify.
        intros st [[(Hp & Hs & Hc & Hn) Hk] ->].
        pose proof Hp as (Hh & Hb & _). rewrite Hh in Hu. rewrite Hb in Hk.
        split; [exact Hp|split; [|split]]; cbn.
        -- intros k'. rewrite elem_of_app, list_elem_of_singleton.
           intros [Hin| ->]; [now apply Hs|]. exists p. split; [exact Hk|].
           now exists x, px.
        -- intros k' p' k'' p'' H1 H2 H3. rewrite elem_of_app.
           destruct (Hc k' p' k'' p'' H1 H2 H3); auto.
        -- intros k'' p'' H1 H2. rewrite elem_of_app.
           destruct (Hn k'' p'' H1 H2) as [Hin|]; [|auto].
           apply elem_of_cons in Hin as [->|]; [|auto].
           right. right. now apply list_elem_of_singleton.
      * apply triple_ret.
        intros st [[(Hp & Hs & Hc & Hn) Hk] ->].
        pose proof Hp as (Hh & Hb & _). rewrite Hh in Hu. rewrite Hb in Hk.
        split; [exact Hp|split; [exact Hs|split; [exact Hc|]]].
        intros k'' p'' H1 H2. destruct (Hn k'' p'' H1 H2) as [Hin|]; [|auto].
        apply elem_of_cons in Hin as [->|]; [|auto]. congruence.
    + intros st (Hp & Hs & Hc & Hn) Hnone.
      split; [exact Hp|split; [exact Hs|split; [exact Hc|]]].
      intros k'' p'' H1 H2. destruct (Hn k'' p'' H1 H2) as [Hin|]; [|auto].
      apply elem_of_cons in Hin as [->|]; [|auto].
      destruct Hp as (_ & Hb & _). rewrite Hb in Hnone. congruence.
  - intros _ st (Hp & Hs & Hc & Hn). split; [exact Hp|split; [exact Hs|]].
    intros k' p' k p H1 H2 H3. destruct (Hc k' p' k p H1 H2 H3) as [Hin|]; [|auto].
    apply elem_of_cons in Hin as [->|]; [|auto].
    assert (p' = px) as -> by congruence.
    destruct (Hn k p H2 H3) as [Hin|]; [|auto]. now apply elem_of_nil in Hin.
Qed.

(** The loop of lines 193-201. *)
Lemma pruneOuter_marks :
  triple (fun st => pruning st0 st /\ deleteDelete st = [])
         (range rangeOrder Deletes (pruneOuter rangeOrder))
         (fun _ st => pruning st0 st /\ marksSound h0 D0 (deleteDelete st) /\
                      marksCover h0 D0 [] (deleteDelete st)).
Proof.
  set (O := fun (l : list string) (st : State) =>
    pruning st0 st /\ marksSound h0 D0 (deleteDelete st) /\
    marksCover h0 D0 l (deleteDelete st)).
  unfold range. apply (triple_bind _ O).
  { apply triple_rangeKeys. intros st ks w [Hp Hdd] Hks. split; [exact Hp|]. cbn.
    rewrite Hdd. split.
    - intros k Hin. now apply elem_of_nil in Hin.
    - intros k' p' k p H1 _ _. left. destruct Hp as (_ & Hb & _).
      apply (rangeKeys_covers Deletes st ks w k' p' Hcov Hks). now rewrite Hb. }
  intros ks. apply (triple_forM O). intros x lo. apply triple_visit.
  - intros px. unfold pruneOuter.
    apply (triple_bind _ (fun path st =>
             (D0 !! x = Some px /\ path = pathAt h0 px) /\ O (x :: lo) st)).
    { eapply triple_conseq; [apply nodePath_spec|intros st H; exact H|].
      intros path st [[HO Hx] ->]. pose proof HO as ((Hh & Hb & _) & _).
      rewrite Hb in Hx. rewrite Hh. auto. }
    intros path. apply triple_pure. intros [Hx ->].
    now apply pruneInner_marks.
  - intros st (Hp & Hs & Hc) Hnone. split; [exact Hp|split; [exact Hs|]].
    intros k' p' k p H1 H2 H3. destruct (Hc k' p' k p H1 H2 H3) as [Hin|]; [|auto].
    apply elem_of_cons in Hin as [->|]; [|auto].
    destruct Hp as (_ & Hb & _). rewrite Hb in Hnone. congruence.
Qed.

(** The loop of lines 202-205. *)
Lemma pruneDeletes_removes (dd : list string) :
  triple (fun st => pruning st0 st)
         (forM dd deleteDeletes)
         (fun _ st => heap st = h0 /\
                      batch st = setDeletes (Deletes (batch st)) (batch st0) /\
                      probes st = probes st0 /\ sent st = sent st0 /\
                      forall k, Deletes (batch st) !! k =
                                if decide (k ∈ dd) then None else D0 !! k).
Proof.
  set (F := fun (l : list string) (st : State) =>
    heap st = h0 /\ batch st = setDeletes (Deletes (batch st)) (batch st0) /\
    probes st = probes st0 /\ sent st = sent st0 /\
    (forall k, k ∈ l -> k ∈ dd) /\
    (forall k, k ∉ dd -> Deletes (batch st) !! k = D0 !! k) /\
    (forall k, k ∈ dd -> k ∈ l \/ Deletes (batch st) !! k = None)).
  eapply triple_conseq; [apply (triple_forM F)| |].
  - intros k l. apply triple_modify. intros st (Hh & Hb & Hpr & Hs & Hsub & Hout & Hin).
    split; [exact Hh|split; [|split; [exact Hpr|split; [exact Hs|split; [|split]]]]]; cbn.
    + rewrite Hb. reflexivity.
    + intros k' Hk'. apply Hsub. now right.
    + intros k' Hk'. rewrite lookup_delete_ne; [now apply Hout|].
      intros <-. apply Hk', Hsub. now left.
    + intros k' Hk'. destruct (decide (k = k')) as [->|Hne].
      * right. apply lookup_delete_eq.
      * rewrite lookup_delete_ne by exact Hne.
        destruct (Hin k' Hk') as [Hl|]; [|auto].
        apply elem_of_cons in Hl as [->|]; [congruence|auto].
  - intros st (Hh & Hb & Hpr & _ & Hs). unfold F. rewrite Hb.
    split; [exact Hh|split; [|split; [exact Hpr|split; [exact Hs|split; [|split]]]]]; auto.
    now destruct (batch st0).
  - intros _ st (Hh & Hb & Hpr & Hs & Hsub & Hout & Hin).
    split; [exact Hh|split; [exact Hb|split; [exact Hpr|split; [exact Hs|]]]].
    intros k. destruct (decide (k ∈ dd)) as [Hk|Hk]; [|now apply Hout].
    destruct (Hin k Hk) as [Hl|]; [|auto]. now apply elem_of_nil in Hl.
Qed.

End Prune.

Lemma prefix_trans (c b a : string) :
  String.prefix c b = true -> String.prefix b a = true -> String.prefix c a = true.
Proof.
  revert b a. induction c as [|x c IH]; intros b a H1 H2; [now destruct a|].
  destruct b as [|y b]; [discriminate|]. destruct a as [|z a]; [discriminate|].
  simpl in *.
  destruct (ascii_dec x y) as [->|]; [|discriminate].
  destruct (ascii_dec y z) as [->|]; [|discriminate].
  eapply IH; eauto.
Qed.

Lemma isUnder_trans (a b c : string) :
  isUnder a b = true -> isUnder b c = true -> isUnder a c = true.
Proof.
  unfold isUnder, strings.HasPrefix. rewrite !andb_true_iff, !Nat.ltb_lt.
  intros [Hl1 Hp1] [Hl2 Hp2]. split; [lia|]. eapply prefix_trans; eauto.
Qed.

Lemma isUnder_longer (a b : string) :
  isUnder a b = true -> String.length b < String.length a.
Proof. unfold isUnder. rewrite andb_true_iff, Nat.ltb_lt. tauto. Qed.

(** Among the entries of a map, whatever is shadowed lies under an entry
    that is not. *)
Lemma shadowed_by_unshadowed (h : gmap ptr BatchedEvent) (m : gmap string ptr)
      (k : string) (p : ptr) :
  m !! k = Some p ->
  exists k' p', m !! k' = Some p' /\ ~ shadowed h m p' /\
                (p' = p \/ isUnder (pathAt h p) (pathAt h p') = true).
Proof.
  remember (String.length (pathAt h p)) as n eqn:Hn.
  revert k p Hn. induction n as [n IH] using lt_wf_ind. intros k p -> Hk.
  destruct (decide (map_Exists (fun _ p' => isUnder (pathAt h p) (pathAt h p') = true) m))
    as [(k1 & p1 & Hk1 & Hu)|Hno].
  - destruct (IH _ (isUnder_longer _ _ Hu) k1 p1 eq_refl Hk1)
      as (k' & p' & Hk' & Hns & Hc).
    exists k', p'. split; [exact Hk'|split; [exact Hns|right]].
    destruct Hc as [->|Hc]; [exact Hu|]. eapply isUnder_trans; eauto.
  - exists k, p. split; [exact Hk|split; [|now left]].
    intros (k1 & p1 & Hk1 & Hu). apply Hno. now exists k1, p1.
Qed.

(** X11: what the pruning of lines 191-205 takes out. If every [range] walks
    at least the keys of its map and the pruning returns, then a delete is
    left exactly when the path of its node does not extend, by at least one
    character, the path of the node of a delete of the batch; the events, the
    other collections, the probe log and the notifications are as they were.
    So every delete of the batch is left, or lies under one that is left. *)
Theorem pruneDeletes_removes_what_lies_under (st st' : State) :
  rangeCovers rangeOrder ->
  pruneDeletes rangeOrder st = Ok (tt, st') ->
  heap st' = heap st /\
  batch st' = setDeletes (Deletes (batch st')) (batch st) /\
  probes st' = probes st /\ sent st' = sent st /\
  (forall k p,
     Deletes (batch st') !! k = Some p <->
     Deletes (batch st) !! k = Some p /\ ~ shadowed (heap st) (Deletes (batch st)) p) /\
  (forall k p,
     Deletes (batch st) !! k = Some p ->
     exists k' p',
       Deletes (batch st') !! k' = Some p' /\
       (p' = p \/ isUnder (pathAt (heap st) p) (pathAt (heap st) p') = true)).
Proof.
  intros Hcov Hrun. unfold pruneDeletes in Hrun.
  apply bind_Ok_inv in Hrun as ([] & st1 & [= <-] & Hrun).
  apply bind_Ok_inv in Hrun as ([] & st2 & Hrun2 & Hrun).
  apply bind_Ok_inv in Hrun as (dd & st3 & [= <- <-] & Hrun).
  pose proof (fun H => pruneOuter_marks st Hcov _ tt st2 H Hrun2) as H.
  destruct H as (Hp & Hs & Hc); [split; [repeat split|reflexivity]|].
  destruct (pruneDeletes_removes st (deleteDelete st2) st2 tt st' Hp Hrun)
    as (Hh & Hb & Hpr & Hsent & Hd).
  assert (Hleft : forall k p,
             Deletes (batch st') !! k = Some p <->
             Deletes (batch st) !! k = Some p /\
             ~ shadowed (heap st) (Deletes (batch st)) p).
  { intros k p. rewrite Hd. destruct (decide (k ∈ deleteDelete st2)) as [Hk|Hk].
    - split; [discriminate|]. intros [Hkp Hn]. destruct (Hs k Hk) as (p' & Hkp' & Hsh).
      assert (p' = p) as -> by congruence. contradiction.
    - split; [|tauto]. intros Hkp. split; [exact Hkp|].
      intros (k' & p' & Hk' & Hu). destruct (Hc k' p' k p Hk' Hkp Hu) as [Hin|]; [|auto].
      now apply elem_of_nil in Hin. }
  split; [exact Hh|split; [exact Hb|split; [exact Hpr|split; [exact Hsent|]]]].
  split; [exact Hleft|].
  intros k p Hk.
  destruct (shadowed_by_unshadowed (heap st) _ k p Hk) as (k' & p' & Hk' & Hns & Hcover).
  exists k', p'. split; [|exact Hcover]. apply Hleft. auto.
Qed.

(** ** After the creates, the filter does not panic *)

#[local] Abbreviation total := (total (World := World)).

Lemma total_bind {A B} (P : State -> Prop) (R : A -> State -> Prop)
      (Q : B -> State -> Prop) (c : M A) (k : A -> M B) :
  total P c R -> (forall a, total (R a) (k a) Q) -> total P (c ≫= k) Q.
Proof.
  intros Hc Hk st HP. destruct (Hc st HP) as (a & st1 & Hrun1 & HR).
  destruct (Hk a st1 HR) as (b & st2 & Hrun2 & HQ). exists b, st2.
  split; [|exact HQ]. now rewrite (bind_Ok _ _ _ _ _ Hrun1).
Qed.

Lemma total_conseq {A} (P P' : State -> Prop) (Q Q' : A -> State -> Prop) (c : M A) :
  total P' c Q' -> (forall st, P st -> P' st) -> (forall a st, Q' a st -> Q a st) ->
  total P c Q.
Proof.
  intros Hc HP HQ st Hst. destruct (Hc st (HP st Hst)) as (a & st' & Hrun & H).
  eauto.
Qed.

Lemma total_triple {A} (P : State -> Prop) (Q : A -> State -> Prop) (c : M A) :
  total P c Q -> triple P c Q.
Proof.
  intros Hc st a st' HP Hrun. destruct (Hc st HP) as (a' & st'' & Hrun' & HQ).
  rewrite Hrun in Hrun'. now injection Hrun' as <- <-.
Qed.

Lemma total_with {A} (P P' : State -> Prop) (Q Q' : A -> State -> Prop) (c : M A) :
  total P c Q -> triple P' c Q' ->
  total (fun st => P st /\ P' st) c (fun a st => Q a st /\ Q' a st).
Proof.
  intros Hc Ht st [HP HP']. destruct (Hc st HP) as (a & st' & Hrun & HQ).
  exists a, st'. split; [exact Hrun|]. split; [exact HQ|]. eapply Ht; eauto.
Qed.

Lemma total_pure {A} (phi : Prop) (P : State -> Prop) (Q : A -> State -> Prop) (c : M A) :
  (phi -> total P c Q) -> total (fun st => phi /\ P st) c Q.
Proof. intros H st [Hphi HP]. now apply H. Qed.

Lemma total_ret {A} (P : State -> Prop) (Q : A -> State -> Prop) (a : A) :
  (forall st, P st -> Q a st) -> total P (ret a : M A) Q.
Proof. intros H st HP. exists a, st. split; [reflexivity|auto]. Qed.

Lemma total_gets {A} (P : State -> Prop) (Q : A -> State -> Prop) (f : State -> A) :
  (forall st, P st -> Q (f st) st) -> total P (gets f) Q.
Proof. intros H st HP. exists (f st), st. split; [reflexivity|auto]. Qed.

Lemma total_modify (P : State -> Prop) (Q : unit -> State -> Prop)
      (f : State -> State) :
  (forall st, P st -> Q tt (f st)) -> total P (modify f) Q.
Proof. intros H st HP. exists tt, (f st). split; [reflexivity|auto]. Qed.

Lemma total_deref (P : State -> Prop) (Q : BatchedEvent -> State -> Prop) (p : ptr) :
  (forall st, P st -> exists e, heap st !! p = Some e /\ Q e st) ->
  total P (deref p : M _) Q.
Proof.
  intros H st HP. destruct (H st HP) as (e & He & HQ). exists e, st.
  split; [|exact HQ]. unfold deref. now rewrite He.
Qed.

Lemma total_probe (P : State -> Prop) (Q : option tree.Node * error -> State -> Prop)
      ep path hint :
  (forall st r w, P st -> LoadNode ep (world st) path hint = (r, w) ->
                  Q r (reframe st w (probes st ++ [(ep, path, hint)])
                               (possibleMoves st) (deleteDelete st))) ->
  total P (probe LoadNode ep path hint) Q.
Proof.
  intros H st HP. unfold probe.
  destruct (LoadNode ep (world st) path hint) as [r w] eqn:Hr.
  eexists _, _. split; [reflexivity|]. now apply H.
Qed.

Lemma total_rangeKeys (P : State -> Prop) (Q : list string -> State -> Prop) sel :
  (forall st ks w, P st ->
                   rangeOrder (world st) (map fst (map_to_list (sel (batch st)))) = (ks, w) ->
                   Q ks (reframe st w (probes st) (possibleMoves st) (deleteDelete st))) ->
  total P (rangeKeys rangeOrder sel) Q.
Proof.
  intros H st HP. unfold rangeKeys.
  destruct (rangeOrder _ _) as [ks w] eqn:Hr.
  eexists _, _. split; [reflexivity|]. now apply H.
Qed.

Lemma total_forM {A} (I : list A -> State -> Prop) (l : list A) (body : A -> M unit) :
  (forall x l', total (I (x :: l')) (body x) (fun _ => I l')) ->
  total (I l) (forM l body) (fun _ => I []).
Proof.
  intros Hbody. induction l as [|x l IH]; simpl.
  - apply total_ret. auto.
  - apply (total_bind _ (fun _ => I l) _ (body x) (fun _ => forM l body)); auto.
Qed.

Lemma total_visit (P : State -> Prop) (Q : unit -> State -> Prop) sel
      (body : string -> ptr -> M unit) (k : string) :
  (forall p, total (fun st => P st /\ sel (batch st) !! k = Some p) (body k p) Q) ->
  (forall st, P st -> sel (batch st) !! k = None -> Q tt st) ->
  total P (visit sel body k) Q.
Proof.
  intros Hsome Hnone. unfold visit.
  apply (total_bind _ (fun o st => P st /\ o = sel (batch st) !! k)).
  - apply total_gets. auto.
  - intros [p|].
    + eapply total_conseq; [apply (Hsome p)| |auto]. now intros st [? <-].
    + apply total_ret. intros st [? ?]. now apply Hnone.
Qed.

Lemma total_range (I : State -> Prop) sel (body : string -> ptr -> M unit) :
  (forall st w, I st -> I (reframe st w (probes st) (possibleMoves st) (deleteDelete st))) ->
  (forall k p, total (fun st => I st /\ sel (batch st) !! k = Some p) (body k p)
                     (fun _ => I)) ->
  total I (range rangeOrder sel body) (fun _ => I).
Proof.
  intros Hframe Hbody. unfold range.
  apply (total_bind _ (fun _ => I)).
  - apply total_rangeKeys. intros st ks w HI _. now apply Hframe.
  - intros ks. apply (total_forM (fun _ => I)). intros k _.
    apply total_visit; auto.
Qed.

Lemma alloc_alter (h : gmap ptr BatchedEvent) (n : option tree.Node) (p q : ptr) :
  is_Some (h !! q) -> is_Some (alter (withNode n) p h !! q).
Proof.
  destruct (decide (q = p)) as [->|Hne].
  - rewrite lookup_alter_eq. intros [e ->]. cbn. eauto.
  - now rewrite lookup_alter_ne.
Qed.

Lemma movesAllocated_alter (h : gmap ptr BatchedEvent) (n : option tree.Node)
      (p : ptr) (l : list Move) :
  movesAllocated h l -> movesAllocated (alter (withNode n) p h) l.
Proof.
  intros H. eapply Forall_impl; [exact H|].
  intros m [? ?]. split; now apply alloc_alter.
Qed.

Lemma safe_inv : PhaseInv (safe (World := World)).
Proof.
  split.
  - intros st w pr dd H. exact H.
  - intros st (H1 & H2 & _). split; [exact H1|split; [exact H2|apply Forall_nil_2]].
  - intros st kd pd d n kc pc c _ Hd _ _ _ Hc _ (H1 & H2 & H3).
    split; [exact H1|split; [exact H2|]]. cbn.
    apply Forall_app. split; [exact H3|]. apply Forall_singleton. cbn. eauto.
  - intros st k p d n _ _ (H1 & H2 & H3). split; [|split]; cbn.
    + intros k' q Hq. apply alloc_alter. exact (H1 k' q Hq).
    + intros k' q Hq. apply alloc_alter. exact (H2 k' q Hq).
    + now apply movesAllocated_alter.
  - intros st p c n dk _ (H1 & H2 & H3). split; [|split].
    + intros k' q. unfold movedByUuid. cbn [batch heap CreateFiles Deletes].
      rewrite lookup_delete_Some. intros [_ Hq].
      apply alloc_alter. exact (H1 k' q Hq).
    + intros k' q. unfold movedByUuid. cbn [batch heap CreateFiles Deletes].
      rewrite lookup_delete_Some. intros [_ Hq].
      apply alloc_alter. exact (H2 k' q Hq).
    + now apply movesAllocated_alter.
  - intros st c k (H1 & H2 & H3). unfold safe, createsAllocated, withBatch, dropEntry.
    destruct c; (split; [|split]);
      cbn [batch heap possibleMoves CreateFiles Deletes setCreateFiles setCreateFolders
           setDeletes]; auto; now apply map_Forall_delete.
Qed.

Section Returns.

Variable I : State -> Prop.
Hypothesis HI : PhaseInv I.
Hypothesis Hsafe : forall st, I st -> safe st.

Lemma tot_lookByUuid (P : State -> Prop) (dk : string) (n : tree.Node)
      (ks : list string) :
  (forall st, P st -> I st) ->
  total P (lookByUuid dk n ks) (fun found st => if found : bool then I st else P st).
Proof.
  intros HP. induction ks as [|k ks IH]; simpl; [apply total_ret; auto|].
  apply (total_bind _ (fun o st => P st /\ o = CreateFiles (batch st) !! k));
    [apply total_gets; auto|].
  intros [p|]; [|eapply total_conseq; [exact IH|tauto|auto]].
  apply (total_bind _ (fun c st => P st /\ heap st !! p = Some c)).
  { apply total_deref. intros st [Hst Hp].
    destruct (Hsafe st (HP st Hst)) as (Hc & _).
    destruct (Hc k p (eq_sym Hp)) as [c Hc']. eauto. }
  intros c. destruct (sameUuid c n); [|eapply total_conseq; [exact IH|tauto|auto]].
  intros st [Hst Hc]. eexists _, _. split; [reflexivity|].
  exact (inv_move I HI st p c n dk Hc (HP st Hst)).
Qed.

Lemma tot_lookByEtag (kd : string) (pd : ptr) (d : BatchedEvent) (n : tree.Node) :
  Node d = Some n -> tree.IsLeaf n = true ->
  total (fun st => I st /\ Deletes (batch st) !! kd = Some pd /\ heap st !! pd = Some d)
        (range rangeOrder CreateFiles (lookByEtag pd n)) (fun _ => I).
Proof.
  intros Hn Hleaf.
  eapply total_conseq with (Q' := fun _ st => I st /\ Deletes (batch st) !! kd = Some pd /\
                                            heap st !! pd = Some d);
    [|intros st H; exact H|tauto].
  apply total_range.
  { intros st w (Hst & Hk & Hd). split; [now apply (inv_frame I HI)|auto]. }
  intros k p. unfold lookByEtag.
  apply (total_bind _ (fun c st =>
           (I st /\ Deletes (batch st) !! kd = Some pd /\ heap st !! pd = Some d) /\
           CreateFiles (batch st) !! k = Some p /\ heap st !! p = Some c)).
  { apply total_deref. intros st [(Hst & Hk & Hd) Hp].
    destruct (Hsafe st Hst) as (Hc & _). destruct (Hc k p Hp) as [c Hc']. eauto 10. }
  intros c. destruct (sameEtag c n) eqn:He; [|apply total_ret; tauto].
  apply total_modify. intros st ((Hst & Hk & Hd) & Hp & Hc).
  split; [|auto].
  exact (inv_candidate I HI st kd pd d n k p c Hk Hd Hn Hleaf Hp Hc He Hst).
Qed.

Lemma tot_loadDeleteNode (P : State -> Prop) (d : BatchedEvent) :
  (forall st w pr, P st -> P (reframe st w pr (possibleMoves st) (deleteDelete st))) ->
  total P (loadDeleteNode LoadNode d) (fun _ => P).
Proof.
  intros Hframe. unfold loadDeleteNode. destruct (Node d); [apply total_ret; auto|].
  apply (total_bind _ (fun _ => P)).
  - apply total_probe. intros st r w Hst _. now apply Hframe.
  - intros [n e]. apply total_ret. auto.
Qed.

Lemma tot_dropped (c : Collection) (k : string) :
  total I (modifyBatch (dropEntry c k)) (fun _ => I).
Proof. apply total_modify. intros st Hst. exact (inv_drop I HI st c k Hst). Qed.

(** One turn of the loop over [batch.Deletes] (lines 114-180) returns. *)
Lemma tot_detectFileMove (k : string) (p : ptr) :
  total (fun st => I st /\ Deletes (batch st) !! k = Some p)
        (detectFileMove LoadNode rangeOrder k p) (fun _ => I).
Proof.
  unfold detectFileMove.
  set (R := fun (d : BatchedEvent) (st : State) =>
    I st /\ Deletes (batch st) !! k = Some p /\ heap st !! p = Some d).
  apply (total_bind _ R).
  { apply total_deref. intros st [Hst Hk].
    destruct (Hsafe st Hst) as (_ & Hd & _). destruct (Hd k p Hk) as [d Hd'].
    exists d. unfold R. auto. }
  intros d. apply (total_bind _ (fun _ => R d)).
  { apply tot_loadDeleteNode. intros st w pr (? & ? & ?). split; [|auto].
    now apply (inv_frame I HI). }
  intros [n|].
  - apply (total_bind _ (fun _ => R (withNode (Some n) d))).
    { apply total_modify. intros st (Hst & Hk & Hd). split; [|split; [exact Hk|]].
      - exact (inv_node I HI st k p d n Hk Hd Hst).
      - cbn. now rewrite lookup_alter_eq, Hd. }
    intros _. destruct (tree.IsLeaf n) eqn:Hleaf; [|apply total_ret; unfold R; tauto].
    apply (total_bind _ (fun _ => R (withNode (Some n) d))).
    { apply total_rangeKeys. intros st ks w (Hst & Hk & Hd) _. split; [|auto].
      now apply (inv_frame I HI). }
    intros ks.
    apply (total_bind _ (fun found st =>
             if found : bool then I st else R (withNode (Some n) d) st)).
    { apply tot_lookByUuid. unfold R. tauto. }
    intros [|]; [apply total_ret; auto|].
    now apply (tot_lookByEtag k p (withNode (Some n) d) n).
  - eapply total_conseq with (P' := I) (Q' := fun _ => I); [|unfold R; tauto|auto].
    unfold hasKey.
    apply (total_bind _ (fun _ => I)); [apply total_gets; auto|]. intros cf.
    apply (total_bind _ (fun _ => I)); [apply total_gets; auto|]. intros cfo.
    apply (total_bind _ (fun _ => I)); [|intros _; apply (tot_dropped InDeletes)].
    destruct (cf || cfo); [|apply total_ret; auto].
    apply (total_bind _ (fun _ => I)).
    { apply total_probe. intros st r w Hst _. now apply (inv_frame I HI). }
    intros [[e|] err]; [apply total_ret; auto|].
    apply (total_bind _ (fun _ => I)).
    + destruct cf; [apply (tot_dropped InCreateFiles)|apply total_ret; auto].
    + intros _. destruct cfo; [apply (tot_dropped InCreateFolders)|apply total_ret; auto].
Qed.

Lemma tot_detectFileMoves (P : State -> Prop) :
  (forall st, P st -> I (reframe st (world st) (probes st) [] (deleteDelete st))) ->
  total P (detectFileMoves LoadNode rangeOrder) (fun _ => I).
Proof.
  intros HP. unfold detectFileMoves.
  apply (total_bind _ (fun _ => I)).
  - apply total_modify. intros st Hst. now apply HP.
  - intros _. apply total_range; [intros st w; apply (inv_frame I HI)|].
    intros k p. apply tot_detectFileMove.
Qed.

Lemma tot_commitMove (move : Move) (l : list Move) :
  total (fun st => I st /\ movesAllocated (heap st) (move :: l))
        (commitMove move)
        (fun _ st => I st /\ movesAllocated (heap st) l).
Proof.
  intros st [Hst Hl]. apply Forall_cons in Hl as [[[c Hc] [d Hd]] Hl].
  unfold commitMove, mbind, M_bind, bind, deref, setNode, putFileMoves, deleteDeletes,
    deleteCreateFiles, modifyBatch, modify.
  rewrite Hc. cbn.
  destruct (alloc_alter (heap st) (Some (dbNode move)) (createEvent move)
                        (deleteEvent move) ltac:(eauto)) as [d' Hd'].
  rewrite Hd'. eexists _, _. split; [reflexivity|]. split.
  - exact (inv_move I HI st (createEvent move) c (dbNode move) (Key d') Hc Hst).
  - cbn. now apply movesAllocated_alter.
Qed.

Lemma tot_commitClosestMoves
      (sortClosestMoves : gmap ptr BatchedEvent -> list Move -> list Move) :
  picksCandidates sortClosestMoves ->
  total I (commitClosestMoves sortClosestMoves) (fun _ => I).
Proof.
  intros Hpick. unfold commitClosestMoves.
  apply (total_bind _ (fun moves st => I st /\ movesAllocated (heap st) moves)).
  { apply total_gets. intros st Hst. split; [exact Hst|].
    destruct (Hsafe st Hst) as (_ & _ & Hm).
    apply Forall_forall. intros m Hin.
    exact (proj1 (Forall_forall _ _) Hm m (Hpick _ _ _ Hin)). }
  intros moves.
  eapply total_conseq;
    [apply (total_forM (fun l st => I st /\ movesAllocated (heap st) l))
    |intros st H; exact H|now intros _ st [H _]].
  intros move l. apply tot_commitMove.
Qed.

End Returns.

(** The pruning of lines 191-205 returns when every delete has a node. *)
Lemma tot_nodePath (P : State -> Prop) (p : ptr) :
  (forall st, P st -> hasNode (heap st) p) ->
  total P (nodePath p : M _) (fun _ => P).
Proof.
  intros HP st Hst. specialize (HP st Hst). unfold hasNode in HP.
  unfold nodePath, mbind, M_bind, bind, deref.
  destruct (heap st !! p) as [e|]; [|now destruct HP]. cbn in HP.
  destruct (Node e) as [n|]; [|now destruct HP]. eexists _, _. split; [reflexivity|auto].
Qed.

Lemma tot_pruneDeletes :
  total (fun st => resolved (heap st) (Deletes (batch st)))
        (pruneDeletes rangeOrder) (fun _ _ => True).
Proof.
  set (P := fun st : State => resolved (heap st) (Deletes (batch st))).
  unfold pruneDeletes.
  apply (total_bind _ (fun _ => P)); [apply total_modify; auto|]. intros _.
  apply (total_bind _ (fun _ => P)).
  - apply total_range; [auto|]. intros k p. unfold pruneOuter.
    apply (total_bind _ (fun _ => P)).
    { eapply total_conseq with (Q' := fun _ st => P st /\ Deletes (batch st) !! k = Some p);
        [apply tot_nodePath|auto|tauto]. intros st [Hst Hk]. exact (Hst k p Hk). }
    intros deletePath. apply total_range; [auto|]. intros k' p'. unfold pruneInner.
    apply (total_bind _ (fun _ => P)).
    { eapply total_conseq with (Q' := fun _ st => P st /\ Deletes (batch st) !! k' = Some p');
        [apply tot_nodePath|auto|tauto]. intros st [Hst Hk]. exact (Hst k' p' Hk). }
    intros from. destruct (isUnder from deletePath); [|apply total_ret; auto].
    apply total_modify. auto.
  - intros _. apply (total_bind _ (fun _ _ => True)); [apply total_gets; auto|].
    intros dd. eapply total_conseq; [apply (total_forM (fun _ _ => True))|auto|auto].
    intros k l. apply total_modify. auto.
Qed.

(** X12: between the creates and the end notification, the filter does not
    panic. If every [range] walks at least the keys of its map,
    [sortClosestMoves] returns moves that it was given, the deletes are
    events of the heap filed under their own keys and no file create is a nil
    pointer, then the detection of the file moves, the commit of the closest
    moves and the pruning (lines 113-205) return: no nil pointer is
    dereferenced, and the node of a delete is not read before it is set. The
    notification that follows is left out: its sends can block or panic. *)
Theorem detection_commit_and_pruning_return
        (sortClosestMoves : gmap ptr BatchedEvent -> list Move -> list Move)
        (st : State) :
  rangeCovers rangeOrder ->
  picksCandidates sortClosestMoves ->
  wellKeyed (heap st) (Deletes (batch st)) ->
  createsAllocated st ->
  exists st', detectCommitPrune LoadNode rangeOrder sortClosestMoves st = Ok (tt, st').
Proof.
  intros Hcov Hpick Hk Hc.
  set (I := fun s : State => safe s /\ resolvedBut [] s).
  assert (HI : PhaseInv I) by (apply PhaseInv_and; [apply safe_inv|apply resolvedBut_inv]).
  enough (Ht : total (fun s => s = st)
                     (detectCommitPrune LoadNode rangeOrder sortClosestMoves)
                     (fun _ _ => True)).
  { destruct (Ht st eq_refl) as ([] & st' & Hrun & _). eauto. }
  unfold detectCommitPrune, detectAndCommit.
  apply (total_bind (A := unit) _ (fun _ => I)).
  { apply (total_bind (A := unit) _ (fun _ => I)).
    - eapply total_conseq;
        [exact (total_with _ _ _ _ _
                  (tot_detectFileMoves safe safe_inv (fun s H => H)
                     (fun s => createsAllocated s /\
                               map_Forall (fun _ p => is_Some (heap s !! p))
                                          (Deletes (batch s)))
                     (fun s H => conj (proj1 H) (conj (proj2 H) (Forall_nil_2 _))))
                  (detectFileMoves_resolves Hcov))| |auto].
      intros s ->. split; [split; [exact Hc|]|exact Hk].
      intros k p Hp. specialize (Hk k p Hp). cbn in Hk.
      destruct (heap st !! p); [eauto|discriminate].
    - intros _. apply (tot_commitClosestMoves I HI); [unfold I; tauto|exact Hpick]. }
  intros _. eapply total_conseq; [apply tot_pruneDeletes| |auto].
  intros s [_ [_ Hr]] k p Hp. destruct (Hr k p Hp) as [Hin|]; [|auto].
  now apply elem_of_nil in Hin.
Qed.

(** ** What the loops over the creates probe *)





(** ** When the loops over the creates return *)

Lemma createsInHeap_alter (st : State) (n : option tree.Node) (p : ptr) :
  createsInHeap st -> createsInHeap (withHeap (alter (withNode n) p (heap st)) st).
Proof.
  intros [H1 H2]. split; intros k q Hq; apply alloc_alter; [exact (H1 k q Hq)|exact (H2 k q Hq)].
Qed.

Lemma createsInHeap_drop (st : State) (c : Collection) (k : string) :
  createsInHeap st -> createsInHeap (withBatch (dropEntry c k (batch st)) st).
Proof.
  intros [H1 H2]. unfold createsInHeap, createsAllocated, withBatch, dropEntry.
  destruct c; split;
    cbn [batch heap CreateFiles CreateFolders setCreateFiles setCreateFolders setDeletes];
    auto; now apply map_Forall_delete.
Qed.

Lemma tot_loadCreateNode (P : State -> Prop) (hint : option bool) (e : BatchedEvent) :
  (forall st w pr, P st -> P (reframe st w pr (possibleMoves st) (deleteDelete st))) ->
  total P (loadCreateNode LoadNode hint e)
        (fun r st => P st /\
                     (is_Some r.1 \/
                      exists w, r = (LoadNode common.SourceEndpoint w
                                              (common.Path (EventInfo e)) hint).1)).
Proof.
  intros Hframe. unfold loadCreateNode, hasScanNode.
  destruct (common.ScanEvent (EventInfo e) && _) eqn:Hscan.
  - apply total_ret. intros st Hst. split; [exact Hst|left]. cbn.
    destruct (common.ScanSourceNode (EventInfo e)); [eauto|].
    now rewrite andb_false_r in Hscan.
  - apply total_probe. intros st r w Hst Hr. split; [now apply Hframe|].
    right. exists (world st). now rewrite Hr.
Qed.

(** One turn of the loop over [batch.CreateFiles] (lines 68-90) returns
    when the source is definite. *)
Lemma tot_enrichCreateFile (k : string) (p : ptr) :
  sourceDefinite LoadNode ->
  total (fun st => createsInHeap st /\ CreateFiles (batch st) !! k = Some p)
        (enrichCreateFile LoadNode k p) (fun _ => createsInHeap).
Proof.
  intros Hdef. unfold enrichCreateFile.
  apply (total_bind _ (fun _ => createsInHeap)).
  { apply total_deref. intros st [[H1 H2] Hk]. destruct (H1 k p Hk) as [e He].
    exists e. repeat split; auto. }
  intros e.
  apply (total_bind _ (fun r st => r <> (None, None) /\ createsInHeap st)).
  { eapply total_conseq; [apply (tot_loadCreateNode createsInHeap); auto|auto|].
    intros r st [Hst [[n Hn]|[w ->]]]; (split; [|exact Hst]); [|apply Hdef].
    intros ->. discriminate. }
  intros [node [msg|]]; apply total_pure; intros Hne.
  - apply (total_bind _ (fun _ => createsInHeap)); [|intros _];
      apply total_modify; intros st Hst.
    + exact (createsInHeap_drop st InCreateFiles (Key e) Hst).
    + exact (createsInHeap_drop st InDeletes (Key e) Hst).
  - destruct node as [n|]; [|now destruct Hne].
    apply (total_bind _ (fun _ => createsInHeap)).
    { apply total_modify. intros st Hst. now apply createsInHeap_alter. }
    intros _. destruct (_ && _); [|apply total_ret; auto].
    apply total_modify. auto.
Qed.

(** One turn of the loop over [batch.CreateFolders] (lines 92-109)
    returns. *)
Lemma tot_enrichCreateFolder (k : string) (p : ptr) :
  total (fun st => createsInHeap st /\ CreateFolders (batch st) !! k = Some p)
        (enrichCreateFolder LoadNode k p) (fun _ => createsInHeap).
Proof.
  unfold enrichCreateFolder.
  apply (total_bind _ (fun _ => createsInHeap)).
  { apply total_deref. intros st [[H1 H2] Hk]. destruct (H2 k p Hk) as [e He].
    exists e. repeat split; auto. }
  intros e.
  apply (total_bind _ (fun _ => createsInHeap)).
  { eapply total_conseq; [apply (tot_loadCreateNode createsInHeap); auto|auto|tauto]. }
  intros [node [msg|]].
  - apply (total_bind _ (fun _ => createsInHeap)); [|intros _];
      apply total_modify; intros st Hst.
    + exact (createsInHeap_drop st InCreateFolders (Key e) Hst).
    + exact (createsInHeap_drop st InDeletes (Key e) Hst).
  - apply total_modify. intros st Hst. now apply createsInHeap_alter.
Qed.

(** X14: when the loops over the creates return. If no create is a nil
    pointer and a probe of the source without leaf hint never gives no node
    and no error at once, then the two loops over the creates (lines 68-109)
    return: the nil node without error is the one way these loops panic. The
    notification that precedes them is left out: its sends can block or
    panic. *)
Theorem create_loops_return (st : State) :
  sourceDefinite LoadNode ->
  createsInHeap st ->
  exists st', loadCreates LoadNode rangeOrder st = Ok (tt, st').
Proof.
  intros Hdef Hst.
  enough (Ht : total createsInHeap (loadCreates LoadNode rangeOrder)
                     (fun _ => createsInHeap)).
  { destruct (Ht st Hst) as ([] & st' & Hrun & _). eauto. }
  unfold loadCreates.
  apply (total_bind (A := unit) _ (fun _ => createsInHeap)); [|intros _].
  - apply total_range; [auto|]. intros k p. now apply tot_enrichCreateFile.
  - apply total_range; [auto|]. intros k p. apply tot_enrichCreateFolder.
Qed.

(** ** The notifications of the filter *)

Lemma sent_CreateInv (s : list string) : CreateInv (fun st : State => sent st = s).
Proof. apply CreateInv_framed; auto. Qed.

Lemma sent_PhaseInv (s : list string) : PhaseInv (fun st : State => sent st = s).
Proof. apply PhaseInv_framed; auto. Qed.

(** X15: the notifications of [FilterBatch]. If [detectFolderMoves] sends
    nothing, a call of [FilterBatch] that returns has sent "filter:start",
    then "filter:end", and nothing else: the loops and the probes in between
    send nothing. *)
Theorem FilterBatch_notifies_start_then_end
        (detectFolderMoves : M unit)
        (sortClosestMoves : gmap ptr BatchedEvent -> list Move -> list Move)
        (st st' : State) :
  (forall s s', detectFolderMoves s = Ok (tt, s') -> sent s' = sent s) ->
  FilterBatch LoadNode rangeOrder detectFolderMoves sortClosestMoves st = Ok (tt, st') ->
  sent st' = (sent st ++ ["filter:start"; "filter:end"])%list.
Proof.
  intros Hfolder Hrun. unfold FilterBatch in Hrun.
  apply bind_Ok_inv in Hrun as ([] & st1 & Hrun1 & Hrun).
  apply bind_Ok_inv in Hrun as ([] & st2 & Hrun2 & Hrun).
  pose proof (cinv_enrichCreates _ (sent_CreateInv (sent st ++ ["filter:start"]))
                (fun s => s = st) ltac:(now intros ? ->) st tt st1 eq_refl Hrun1) as H1.
  cbn beta in H1. apply Hfolder in Hrun2. rewrite H1 in Hrun2.
  pose proof (inv_resolveMovesAndPrune _ (sent_PhaseInv (sent st2)) sortClosestMoves
                (fun s => sent s = (sent st2 ++ ["filter:end"])%list)
                ltac:(intros s Hs; cbn; now rewrite Hs) st2 tt st' eq_refl Hrun) as H2.
  cbn beta in H2. rewrite H2, Hrun2, <- app_assoc. reflexivity.
Qed.

(** ** A batch without deletes *)

Lemma forM_visit_empty (sel : Batch -> gmap string ptr) (body : string -> ptr -> M unit)
      (ks : list string) (st : State) :
  sel (batch st) = ∅ -> forM ks (visit sel body) st = Ok (tt, st).
Proof.
  intros Hsel. induction ks as [|k ks IH]; [reflexivity|].
  simpl. unfold bind at 1, visit at 1, mbind, M_bind, bind, gets.
  rewrite Hsel, lookup_empty. exact IH.
Qed.

Lemma range_empty (sel : Batch -> gmap string ptr) (body : string -> ptr -> M unit)
      (st : State) :
  sel (batch st) = ∅ ->
  exists w, range rangeOrder sel body st =
            Ok (tt, reframe st w (probes st) (possibleMoves st) (deleteDelete st)).
Proof.
  intros Hsel. unfold range, mbind, M_bind, bind, rangeKeys.
  destruct (rangeOrder _ _) as [ks w]. exists w.
  now rewrite forM_visit_empty.
Qed.

(** X17: a batch without deletes. If [Deletes] is empty when
    [detectFolderMoves] returns and [sortClosestMoves] returns moves that it
    was given, then the detection of the file moves, the commit of the
    closest moves and the pruning (lines 113-205) return, make no probe, send
    nothing, and leave the events and the five collections as they are:
    creates alone are never turned into moves. *)
Theorem no_delete_no_move
        (sortClosestMoves : gmap ptr BatchedEvent -> list Move -> list Move)
        (st : State) :
  Deletes (batch st) = ∅ ->
  picksCandidates sortClosestMoves ->
  exists w,
    detectCommitPrune LoadNode rangeOrder sortClosestMoves st =
    Ok (tt, mkSt w (probes st) (heap st) (batch st) [] [] (sent st)).
Proof.
  intros Hd Hpick.
  set (st1 := mkSt (world st) (probes st) (heap st) (batch st) [] (deleteDelete st)
                   (sent st)).
  destruct (range_empty Deletes (detectFileMove LoadNode rangeOrder) st1 Hd) as [w1 H1].
  set (st2 := reframe st1 w1 (probes st1) (possibleMoves st1) (deleteDelete st1)) in H1.
  assert (Hmoves : sortClosestMoves (heap st2) (possibleMoves st2) = []).
  { destruct (sortClosestMoves _ _) as [|m l] eqn:Hm; [reflexivity|].
    specialize (Hpick (heap st2) (possibleMoves st2) m). rewrite Hm in Hpick.
    specialize (Hpick ltac:(now left)). now apply elem_of_nil in Hpick. }
  set (st3 := mkSt (world st2) (probes st2) (heap st2) (batch st2) (possibleMoves st2) []
                   (sent st2)).
  destruct (range_empty Deletes (pruneOuter rangeOrder) st3 Hd) as [w3 H3].
  exists w3.
  assert (Hdetect : detectFileMoves LoadNode rangeOrder st = Ok (tt, st2)) by exact H1.
  assert (Hcommit : commitClosestMoves sortClosestMoves st2 = Ok (tt, st2)).
  { unfold commitClosestMoves, mbind, M_bind, bind, gets. now rewrite Hmoves. }
  assert (Hprune : pruneDeletes rangeOrder st2
                   = Ok (tt, mkSt w3 (probes st) (heap st) (batch st) [] [] (sent st))).
  { unfold pruneDeletes, mbind, M_bind. unfold bind at 1. unfold modify at 1.
    fold st3. unfold bind at 1. rewrite H3. reflexivity. }
  unfold detectCommitPrune, detectAndCommit.
  unfold bind at 1. unfold bind at 1. rewrite Hdetect, Hcommit. exact Hprune.
Qed.

(** ** What [RefreshFilesUuid] holds after the loops over the creates *)

Lemma loadCreateNode_run (hint : option bool) (e : BatchedEvent) (st st1 : State)
      (r : option tree.Node * error) :
  loadCreateNode LoadNode hint e st = Ok (r, st1) ->
  exists w pr, st1 = reframe st w pr (possibleMoves st) (deleteDelete st).
Proof.
  unfold loadCreateNode. destruct (hasScanNode e).
  - intros [= <- <-]. exists (world st), (probes st). now destruct st.
  - unfold probe. destruct (LoadNode _ _ _ _) as [r' w]. intros [= <- <-]. eauto.
Qed.

(** What a turn of the loop over [batch.CreateFiles] that returns has done:
    the entries under the key of the event removed, or a node stored in the
    event, which is then filed in [RefreshFilesUuid] if it passes the test of
    line 86. *)
Lemma enrichCreateFile_run (k : string) (p : ptr) (st st' : State) :
  enrichCreateFile LoadNode k p st = Ok (tt, st') ->
  exists e w pr,
    heap st !! p = Some e /\
    let st1 := reframe st w pr (possibleMoves st) (deleteDelete st) in
    st' = withBatch (dropEntry InDeletes (Key e) (dropEntry InCreateFiles (Key e) (batch st1)))
                    st1 \/
    exists n,
      let st2 := withHeap (alter (withNode (Some n)) p (heap st1)) st1 in
      st' = if lacksUuid n
            then withBatch (setRefreshFilesUuid (<[Key e := p]> (RefreshFilesUuid (batch st2)))
                                                (batch st2)) st2
            else st2.
Proof.
  unfold enrichCreateFile. intros Hrun.
  apply bind_Ok_inv in Hrun as (e & st0 & Hderef & Hrun).
  unfold deref in Hderef. destruct (heap st !! p) as [e'|] eqn:He; [|discriminate].
  injection Hderef as <- <-.
  apply bind_Ok_inv in Hrun as ([node err] & st1 & Hload & Hrun).
  apply loadCreateNode_run in Hload as (w & pr & ->).
  exists e', w, pr. split; [reflexivity|]. cbn zeta.
  destruct err as [msg|].
  - left. now injection Hrun as <-.
  - destruct node as [n|]; [|discriminate]. right. exists n.
    unfold mbind, M_bind, bind, setNode, modify in Hrun. cbn beta iota in Hrun.
    fold (lacksUuid n) in Hrun. cbn zeta.
    destruct (lacksUuid n); now injection Hrun as <-.
Qed.

(** What a turn of the loop over [batch.CreateFolders] has done. *)
Lemma enrichCreateFolder_run (k : string) (p : ptr) (st st' : State) :
  enrichCreateFolder LoadNode k p st = Ok (tt, st') ->
  exists e w pr,
    heap st !! p = Some e /\
    let st1 := reframe st w pr (possibleMoves st) (deleteDelete st) in
    st' = withBatch (dropEntry InDeletes (Key e) (dropEntry InCreateFolders (Key e)
                                                            (batch st1))) st1 \/
    exists node, st' = withHeap (alter (withNode node) p (heap st1)) st1.
Proof.
  unfold enrichCreateFolder. intros Hrun.
  apply bind_Ok_inv in Hrun as (e & st0 & Hderef & Hrun).
  unfold deref in Hderef. destruct (heap st !! p) as [e'|] eqn:He; [|discriminate].
  injection Hderef as <- <-.
  apply bind_Ok_inv in Hrun as ([node err] & st1 & Hload & Hrun).
  apply loadCreateNode_run in Hload as (w & pr & ->).
  exists e', w, pr. split; [reflexivity|]. cbn zeta.
  destruct err as [msg|].
  - left. now injection Hrun as <-.
  - right. exists node. now injection Hrun as <-.
Qed.

Lemma wellKeyed_Key (h : gmap ptr BatchedEvent) (m : gmap string ptr)
      (k : string) (p : ptr) (e : BatchedEvent) :
  wellKeyed h m -> m !! k = Some p -> h !! p = Some e -> Key e = k.
Proof. intros Hw Hk He. specialize (Hw k p Hk). cbn in Hw. rewrite He in Hw. now injection Hw. Qed.

Lemma wellKeyed_inj (h : gmap ptr BatchedEvent) (m : gmap string ptr)
      (k1 k2 : string) (p : ptr) :
  wellKeyed h m -> m !! k1 = Some p -> m !! k2 = Some p -> k1 = k2.
Proof.
  intros Hw H1 H2. pose proof (Hw k1 p H1) as E1. pose proof (Hw k2 p H2) as E2.
  cbn in E1, E2. congruence.
Qed.

Lemma needsUuid_alter_ne (h : gmap ptr BatchedEvent) (n : option tree.Node) (p q : ptr) :
  q <> p -> needsUuid (alter (withNode n) p h) q <-> needsUuid h q.
Proof. intros Hne. unfold needsUuid. now rewrite lookup_alter_ne. Qed.

Lemma needsUuid_alter_eq (h : gmap ptr BatchedEvent) (n : tree.Node) (p : ptr) :
  is_Some (h !! p) ->
  needsUuid (alter (withNode (Some n)) p h) p <-> lacksUuid n = true.
Proof.
  intros [e He]. unfold needsUuid. rewrite lookup_alter_eq, He. cbn. split.
  - now intros (n' & [= <-] & H).
  - intros H. eauto.
Qed.

(** A turn of the loop over [batch.CreateFiles]. *)
Lemma refreshedBut_file (x : string) (l : list string) (p : ptr) :
  triple (fun st => refreshedBut (x :: l) st /\ CreateFiles (batch st) !! x = Some p)
         (enrichCreateFile LoadNode x p) (fun _ => refreshedBut l).
Proof.
  intros st [] st' [(Hw & Ha & Hnd & Hin & Hout) Hx] Hrun.
  apply enrichCreateFile_run in Hrun as (e & w & pr & He & Hrun). cbn zeta in Hrun.
  pose proof (wellKeyed_Key _ _ _ _ _ Hw Hx He) as Hkey.
  apply NoDup_cons in Hnd as [Hxl Hnd].
  assert (Hother : forall k q, CreateFiles (batch st) !! k = Some q -> k <> x -> q <> p).
  { intros k q Hk Hne ->. apply Hne. eapply wellKeyed_inj; eauto. }
  destruct Hrun as [->|(n & ->)].
  - rewrite Hkey. split; [|split; [|split; [exact Hnd|split]]]; cbn.
    + now apply wellKeyed_delete.
    + now apply ptrsApart_delete_l.
    + intros k q Hk. destruct (Hin k q Hk) as (Hnin & Hkq & Hneed).
      apply not_elem_of_cons in Hnin as [Hne Hnin].
      split; [exact Hnin|split; [|exact Hneed]]. now rewrite lookup_delete_ne.
    + intros k q. rewrite lookup_delete_Some. intros [Hne Hk] Hneed.
      destruct (Hout k q Hk Hneed) as [Hel|]; [|auto].
      apply elem_of_cons in Hel as [->|]; [congruence|auto].
  - assert (Hrest : refreshedBut l
              (if lacksUuid n
               then withBatch (setRefreshFilesUuid (<[x := p]> (RefreshFilesUuid (batch st)))
                                                   (batch st))
                              (withHeap (alter (withNode (Some n)) p (heap st)) st)
               else withHeap (alter (withNode (Some n)) p (heap st)) st)).
    { destruct (lacksUuid n) eqn:Hlack;
        (split; [|split; [|split; [exact Hnd|split]]]); cbn;
        try (now apply wellKeyed_alter); try exact Ha.
      - intros k q. rewrite lookup_insert_Some. intros [[<- <-]|[Hne Hk]].
        + split; [exact Hxl|split; [exact Hx|]]. apply needsUuid_alter_eq; eauto.
        + destruct (Hin k q Hk) as (Hnin & Hkq & Hneed).
          apply not_elem_of_cons in Hnin as [_ Hnin].
          split; [exact Hnin|split; [exact Hkq|]].
          apply needsUuid_alter_ne; [|exact Hneed]. apply (Hother k q Hkq). congruence.
      - intros k q Hk Hneed. destruct (decide (k = x)) as [->|Hne].
        + right. rewrite lookup_insert_eq. congruence.
        + rewrite lookup_insert_ne by congruence.
          apply needsUuid_alter_ne in Hneed; [|now apply (Hother k q Hk)].
          destruct (Hout k q Hk Hneed) as [Hel|]; [|auto].
          apply elem_of_cons in Hel as [->|]; [congruence|auto].
      - intros k q Hk. destruct (Hin k q Hk) as (Hnin & Hkq & Hneed).
        apply not_elem_of_cons in Hnin as [Hne Hnin].
        split; [exact Hnin|split; [exact Hkq|]].
        apply needsUuid_alter_ne; [|exact Hneed]. now apply (Hother k q Hkq).
      - intros k q Hk Hneed. destruct (decide (k = x)) as [->|Hne].
        + assert (q = p) as -> by congruence.
          apply needsUuid_alter_eq in Hneed; [congruence|eauto].
        + apply needsUuid_alter_ne in Hneed; [|now apply (Hother k q Hk)].
          destruct (Hout k q Hk Hneed) as [Hel|]; [|auto].
          apply elem_of_cons in Hel as [->|]; [congruence|auto]. }
    rewrite Hkey. destruct (lacksUuid n); exact Hrest.
Qed.

(** A turn of the loop over [batch.CreateFolders]. *)
Lemma refreshedBut_folder (x : string) (p : ptr) :
  triple (fun st => refreshedBut [] st /\ CreateFolders (batch st) !! x = Some p)
         (enrichCreateFolder LoadNode x p) (fun _ => refreshedBut []).
Proof.
  intros st [] st' [(Hw & Ha & Hnd & Hin & Hout) Hx] Hrun.
  apply enrichCreateFolder_run in Hrun as (e & w & pr & He & Hrun). cbn zeta in Hrun.
  assert (Hother : forall k q, CreateFiles (batch st) !! k = Some q -> q <> p).
  { intros k q Hk ->. exact (Ha _ _ _ Hk Hx). }
  destruct Hrun as [->|(node & ->)].
  - split; [exact Hw|split; [|split; [exact Hnd|split; [exact Hin|exact Hout]]]].
    cbn. now apply ptrsApart_delete_r.
  - split; [|split; [exact Ha|split; [exact Hnd|split]]]; cbn.
    + now apply wellKeyed_alter.
    + intros k q Hk. destruct (Hin k q Hk) as (Hnin & Hkq & Hneed).
      split; [exact Hnin|split; [exact Hkq|]].
      apply needsUuid_alter_ne; [|exact Hneed]. now apply (Hother k q Hkq).
    + intros k q Hk Hneed.
      apply needsUuid_alter_ne in Hneed; [|now apply (Hother k q Hk)]. auto.
Qed.

Lemma refreshedBut_skip (x : string) (l : list string) (st : State) :
  refreshedBut (x :: l) st -> CreateFiles (batch st) !! x = None -> refreshedBut l st.
Proof.
  intros (Hw & Ha & Hnd & Hin & Hout) Hx.
  apply NoDup_cons in Hnd as [Hxl Hnd].
  split; [exact Hw|split; [exact Ha|split; [exact Hnd|split]]].
  - intros k q Hk. destruct (Hin k q Hk) as (Hnin & Hkq & Hneed).
    apply not_elem_of_cons in Hnin as [_ Hnin]. auto.
  - intros k q Hk Hneed. destruct (Hout k q Hk Hneed) as [Hel|]; [|auto].
    apply elem_of_cons in Hel as [->|]; [congruence|auto].
Qed.

(** X18: what [RefreshFilesUuid] holds after the loops over the creates
    (lines 68-109). If every [range] walks the keys of its map once each, the
    file creates are filed under their own keys, none of their events is also
    a folder create and [RefreshFilesUuid] starts empty, then it ends up with
    exactly the file creates that are left and whose node has an empty uuid
    and a base name other than ".pydio". *)
Theorem refreshed_are_the_creates_without_uuid (st st' : State) :
  rangeCovers rangeOrder -> rangeDistinct rangeOrder ->
  wellKeyed (heap st) (CreateFiles (batch st)) ->
  ptrsApart (CreateFiles (batch st)) (CreateFolders (batch st)) ->
  RefreshFilesUuid (batch st) = ∅ ->
  enrichCreates LoadNode rangeOrder st = Ok (tt, st') ->
  forall k p,
    RefreshFilesUuid (batch st') !! k = Some p <->
    CreateFiles (batch st') !! k = Some p /\ needsUuid (heap st') p.
Proof.
  intros Hcov Hdis Hw Ha Hr Hrun.
  enough (Hfinal : refreshedBut [] st').
  { destruct Hfinal as (_ & _ & _ & Hin & Hout). intros k p. split.
    - intros Hk. destruct (Hin k p Hk) as (_ & ? & ?). auto.
    - intros [Hk Hneed]. destruct (Hout k p Hk Hneed) as [Hel|]; [|auto].
      now apply elem_of_nil in Hel. }
  unfold enrichCreates in Hrun.
  apply bind_Ok_inv in Hrun as ([] & st1 & [= <-] & Hrun).
  apply bind_Ok_inv in Hrun as ([] & st2 & Hrun2 & Hrun).
  refine (triple_range _ _ _ _ refreshedBut_folder _ tt st' _ Hrun);
    [now intros s w H|].
  clear Hrun. revert Hrun2. unfold range. intros Hrun.
  apply bind_Ok_inv in Hrun as (ks & st1 & Hks & Hrun).
  refine (triple_forM (fun l => refreshedBut l) ks _ _ st1 tt st2 _ Hrun).
  - intros x l. apply triple_visit; [apply refreshedBut_file|apply refreshedBut_skip].
  - unfold rangeKeys in Hks. cbn in Hks.
    destruct (rangeOrder _ _) as [ks' w] eqn:Hro. injection Hks as <- <-.
    split; [exact Hw|split; [exact Ha|split; [|split]]]; cbn.
    + pose proof (Hdis (world st) (map fst (map_to_list (CreateFiles (batch st))))
                       (NoDup_fst_map_to_list _)) as Hnd.
      now rewrite Hro in Hnd.
    + intros k p. rewrite Hr, lookup_empty. discriminate.
    + intros k p Hk _. left.
      exact (rangeKeys_covers CreateFiles st ks' w k p Hcov Hro Hk).
Qed.

(** ** What the commit of the closest moves does *)

Lemma commitMove_run (m : Move) (st st' : State) :
  commitMove m st = Ok (tt, st') ->
  exists c d,
    heap st !! createEvent m = Some c /\ heap st !! deleteEvent m = Some d /\
    st' = movedByUuid st (Key d) (dbNode m) (Key c) (createEvent m).
Proof.
  unfold commitMove, mbind, M_bind, bind, deref, setNode, putFileMoves, deleteDeletes,
    deleteCreateFiles, modifyBatch, modify.
  destruct (heap st !! createEvent m) as [c|] eqn:Hc; [|discriminate]. cbn.
  destruct (alter _ _ _ !! deleteEvent m) as [d'|] eqn:Hd'; [|discriminate].
  intros [= <-].
  pose proof (Key_alter (heap st) (Some (dbNode m)) (createEvent m) (deleteEvent m)) as HK.
  rewrite Hd' in HK. destruct (heap st !! deleteEvent m) as [d|]; [|discriminate].
  injection HK as HK. exists c, d. rewrite HK. auto.
Qed.

Lemma movedOn_refl (st : State) : movedOn st st.
Proof. split; [apply sameEvents_refl|auto]. Qed.

Lemma movedOn_trans (st1 st2 st3 : State) :
  movedOn st1 st2 -> movedOn st2 st3 -> movedOn st1 st3.
Proof.
  intros (Hh & H1 & H2 & H3 & H4) (Hh' & H1' & H2' & H3' & H4').
  split; [|auto 10]. intros p. now rewrite Hh', Hh.
Qed.

Lemma movedOn_move (st : State) (dk : string) (n : tree.Node) (k : string) (p : ptr) :
  movedOn st (movedByUuid st dk n k p).
Proof.
  split; [apply sameEvents_alter, sameEvents_refl|]. cbn.
  split; [|split; [|split]].
  - intros k' Hk'. apply lookup_delete_None. auto.
  - intros k' Hk'. apply lookup_delete_None. auto.
  - intros k' Hk'. rewrite lookup_insert_is_Some'. auto.
  - intros q. apply hasNode_alter.
Qed.

Lemma committed_movedOn (h : gmap ptr BatchedEvent) (st st' : State) (m : Move) :
  movedOn st st' -> committed h st m -> committed h st' m.
Proof.
  intros (_ & H1 & H2 & H3 & H4) (c & d & Hc & Hd & Hm & Hf & Hdel & Hn).
  exists c, d. auto 10.
Qed.

Lemma commitMoves_run (moves : list Move) (st st' : State) :
  forM moves commitMove st = Ok (tt, st') ->
  movedOn st st' /\ Forall (committed (heap st) st') moves.
Proof.
  revert st. induction moves as [|m moves IH]; intros st Hrun.
  - injection Hrun as <-. split; [apply movedOn_refl|apply Forall_nil_2].
  - simpl in Hrun. apply bind_Ok_inv in Hrun as ([] & st1 & Hrun1 & Hrun).
    apply commitMove_run in Hrun1 as (c & d & Hc & Hd & ->).
    destruct (IH _ Hrun) as [Hon Hall].
    pose proof (movedOn_move st (Key d) (dbNode m) (Key c) (createEvent m)) as Hstep.
    split; [eapply movedOn_trans; eauto|]. apply Forall_cons. split.
    + apply (committed_movedOn _ _ _ _ Hon). exists c, d.
      split; [exact Hc|split; [exact Hd|]]. cbn.
      split; [rewrite lookup_insert_eq; eauto|].
      split; [apply lookup_delete_eq|split; [apply lookup_delete_eq|]].
      apply hasNode_alter_eq. eauto.
    + eapply Forall_impl; [exact Hall|]. intros m' (c' & d' & Hc' & Hd' & Hrest).
      destruct Hstep as (Hh & _).
      pose proof (sameEvents_Key _ _ _ _ Hh Hc') as E1.
      pose proof (sameEvents_Key _ _ _ _ Hh Hd') as E2.
      destruct (heap st !! createEvent m') as [c0|] eqn:Hc0; [|discriminate].
      destruct (heap st !! deleteEvent m') as [d0|] eqn:Hd0; [|discriminate].
      injection E1 as E1. injection E2 as E2.
      exists c0, d0. split; [exact Hc0|split; [exact Hd0|]].
      rewrite E1, E2. exact Hrest.
Qed.

(** X19: what the commit of the closest moves does (lines 182-189). When
    the loop over the moves that [sortClosestMoves] picked returns, every one
    of them is committed: its create carries a node and is filed in
    [FileMoves] under a key that is no longer in [CreateFiles], and the key
    of its delete is no longer in [Deletes]; a later move of the loop undoes
    none of this. Apart from that, keys have only left [CreateFiles] and
    [Deletes], and events have changed in their node alone. *)
Theorem picked_moves_are_committed
        (sortClosestMoves : gmap ptr BatchedEvent -> list Move -> list Move)
        (st st' : State) :
  commitClosestMoves sortClosestMoves st = Ok (tt, st') ->
  Forall (committed (heap st) st') (sortClosestMoves (heap st) (possibleMoves st)) /\
  movedOn st st'.
Proof.
  unfold commitClosestMoves. intros Hrun.
  apply bind_Ok_inv in Hrun as (moves & st0 & [= <- <-] & Hrun).
  apply commitMoves_run in Hrun as [Hon Hall]. auto.
Qed.

(** ** Every delete and create with the same uuid becomes a move *)



Section Matching.

Variable st0 : State.
Hypothesis Hcov : rangeCovers rangeOrder.
Hypothesis HwD : wellKeyed (heap st0) (Deletes (batch st0)).
Hypothesis HwC : wellKeyed (heap st0) (CreateFiles (batch st0)).
Hypothesis Hapart : ptrsApart (CreateFiles (batch st0)) (Deletes (batch st0)).








Lemma matching_frame (l : list string) (st : State) w pr dd :
  matching st0 l st -> matching st0 l (reframe st w pr (possibleMoves st) dd).
Proof. intros H. exact H. Qed.










End Matching.



End FilterInvariants.

(** ** The filter on a batch of every kind *)

Lemma keyOrder_covers : rangeCovers keyOrder.
Proof. intros w ks k Hk. exact Hk. Qed.

Lemma allResolved_computed (h : gmap ptr BatchedEvent) (m : gmap string ptr) :
  map_Forall (fun _ p => is_Some (h !! p ≫= Node)) m -> allResolved h m.
Proof. intros H. apply allResolved_resolved. exact H. Qed.

Lemma ptrsApart_computed (m1 m2 : gmap string ptr) :
  map_Forall (fun _ p => map_Forall (fun _ q => p <> q) m2) m1 -> ptrsApart m1 m2.
Proof. intros H k1 k2 p H1 H2. exact (H k1 p H1 k2 p H2 eq_refl). Qed.

Lemma enrichCreates_only_removes_witness :
  match enrichCreates (fixedLoadNode partlyThere onlyOld) keyOrder
                      (populate tt mixedEvents) with
  | Ok (_, st') =>
      shrunk (batch (populate tt mixedEvents)) (batch st') /\
      sameEvents (heap (populate tt mixedEvents)) (heap st') /\
      FileMoves (batch st') = ∅ /\
      CreateFiles (batch st') !! "/gone" = None /\
      Deletes (batch st') !! "/gone" = None
  | Panic _ => False
  end.
Proof.
  destruct (enrichCreates _ _ _) as [[[] st']|msg] eqn:Hrun.
  - destruct (enrichCreates_only_removes _ _ _ _ Hrun) as (H1 & H2 & H3 & _).
    split; [exact H1|split; [exact H2|split; [exact H3|]]].
    vm_compute in Hrun. injection Hrun as <-. split; reflexivity.
  - vm_compute in Hrun. discriminate.
Defined.

Lemma resolveMovesAndPrune_only_removes_witness :
  match resolveMovesAndPrune (fixedLoadNode partlyThere onlyOld) keyOrder
                             sortClosestMoves_spec mixedLoaded with
  | Ok (_, st') =>
      shrunk (batch mixedLoaded) (batch st') /\
      sameEvents (heap mixedLoaded) (heap st') /\
      RefreshFilesUuid (batch st') = RefreshFilesUuid (batch mixedLoaded) /\
      Deletes (batch st') !! "/nowhere" = None
  | Panic _ => False
  end.
Proof.
  destruct (resolveMovesAndPrune _ _ _ _) as [[[] st']|msg] eqn:Hrun.
  - destruct (resolveMovesAndPrune_only_removes _ _ _ _ _ Hrun) as (H1 & H2 & H3 & _).
    split; [exact H1|split; [exact H2|split; [exact H3|]]].
    vm_compute in Hrun. injection Hrun as <-. reflexivity.
  - vm_compute in Hrun. discriminate.
Defined.

Lemma entries_have_a_node_before_pruning_witness :
  match detectAndCommit (fixedLoadNode partlyThere onlyOld) keyOrder
                        sortClosestMoves_spec mixedLoaded with
  | Ok (_, st') =>
      (allResolved (heap st') (Deletes (batch st')) /\
       allResolved (heap st') (CreateFiles (batch st')) /\
       allResolved (heap st') (CreateFolders (batch st')) /\
       allResolved (heap st') (FileMoves (batch st'))) /\
      is_Some (Deletes (batch st') !! "/old") /\
      is_Some (Deletes (batch st') !! "/old/x") /\
      is_Some (Deletes (batch mixedLoaded) !! "/nowhere") /\
      Deletes (batch st') !! "/nowhere" = None
  | Panic _ => False
  end.
Proof.
  destruct (detectAndCommit _ _ _ _) as [[[] st']|msg] eqn:Hrun.
  - split.
    + apply (entries_have_a_node_before_pruning
               (fixedLoadNode partlyThere onlyOld) keyOrder sortClosestMoves_spec
               mixedLoaded st' keyOrder_covers); [| | | |exact Hrun].
      * apply (bool_decide_unpack _). vm_compute. exact I.
      * apply allResolved_computed, (bool_decide_unpack _). vm_compute. exact I.
      * apply allResolved_computed, (bool_decide_unpack _). vm_compute. exact I.
      * apply allResolved_computed, (bool_decide_unpack _). vm_compute. exact I.
    + vm_compute in Hrun. injection Hrun as <-. repeat split; vm_compute; eauto.
  - vm_compute in Hrun. discriminate.
Defined.

Lemma file_creates_have_a_node_witness :
  match enrichCreates (fixedLoadNode partlyThere onlyOld) keyOrder
                      (populate tt mixedEvents) with
  | Ok (_, st') =>
      allResolved (heap st') (CreateFiles (batch st')) /\
      is_Some (CreateFiles (batch st') !! "/a")
  | Panic _ => False
  end.
Proof.
  destruct (enrichCreates _ _ _) as [[[] st']|msg] eqn:Hrun.
  - split.
    + apply (file_creates_have_a_node
               (fixedLoadNode partlyThere onlyOld) keyOrder
               (populate tt mixedEvents) st' keyOrder_covers); [| |exact Hrun].
      * apply (bool_decide_unpack _). vm_compute. exact I.
      * apply ptrsApart_computed, (bool_decide_unpack _). vm_compute. exact I.
    + vm_compute in Hrun. injection Hrun as <-. vm_compute. eauto.
  - vm_compute in Hrun. discriminate.
Defined.

Lemma pruneDeletes_removes_what_lies_under_witness :
  match pruneDeletes keyOrder mixedResolved with
  | Ok (_, st') =>
      (heap st' = heap mixedResolved /\
       forall k p,
         Deletes (batch st') !! k = Some p <->
         Deletes (batch mixedResolved) !! k = Some p /\
         ~ shadowed (heap mixedResolved) (Deletes (batch mixedResolved)) p) /\
      is_Some (Deletes (batch mixedResolved) !! "/old/x") /\
      is_Some (Deletes (batch st') !! "/old") /\
      Deletes (batch st') !! "/old/x" = None
  | Panic _ => False
  end.
Proof.
  destruct (pruneDeletes keyOrder mixedResolved) as [[[] st']|msg] eqn:Hrun.
  - split.
    + destruct (pruneDeletes_removes_what_lies_under keyOrder mixedResolved st'
                  keyOrder_covers Hrun) as (H1 & _ & _ & _ & H2 & _).
      split; [exact H1|exact H2].
    + vm_compute in Hrun. injection Hrun as <-. repeat split; vm_compute; eauto.
  - vm_compute in Hrun. discriminate.
Defined.

Lemma pickMoves_elem (l : list Move) (usedDeletes usedCreates : list ptr) (m : Move) :
  m ∈ pickMoves usedDeletes usedCreates l -> m ∈ l.
Proof.
  revert usedDeletes usedCreates.
  induction l as [|x l IH]; intros usedDeletes usedCreates; simpl; [auto|].
  destruct (_ || _).
  - intros H. right. eapply IH, H.
  - rewrite !elem_of_cons. intros [->|H]; [now left|right; eapply IH, H].
Qed.

Lemma insertMove_elem (h : gmap ptr BatchedEvent) (x m : Move) (l : list Move) :
  m ∈ insertMove h x l -> m = x \/ m ∈ l.
Proof.
  induction l as [|y l IH]; simpl.
  - rewrite list_elem_of_singleton. auto.
  - destruct (closer h x y); rewrite !elem_of_cons; [tauto|].
    intros [->|H]; [auto|]. destruct (IH H); auto.
Qed.

Lemma sortClosestMoves_spec_picks : picksCandidates sortClosestMoves_spec.
Proof.
  intros h pm m Hm. apply pickMoves_elem in Hm.
  induction pm as [|x pm IH]; simpl in Hm; [exact Hm|].
  apply insertMove_elem in Hm as [->|Hm]; [now left|right; auto].
Qed.

Lemma detection_commit_and_pruning_return_witness :
  exists st',
    detectCommitPrune (fixedLoadNode partlyThere onlyOld) keyOrder
                      sortClosestMoves_spec mixedLoaded = Ok (tt, st').
Proof.
  apply (detection_commit_and_pruning_return
           (fixedLoadNode partlyThere onlyOld) keyOrder sortClosestMoves_spec
           mixedLoaded keyOrder_covers sortClosestMoves_spec_picks).
  - apply (bool_decide_unpack _). vm_compute. exact I.
  - apply (bool_decide_unpack _). vm_compute. exact I.
Defined.


Lemma partlyThere_definite : sourceDefinite (fixedLoadNode partlyThere onlyOld).
Proof.
  intros w p. cbn. unfold partlyThere. destruct (String.eqb p "/gone"); discriminate.
Qed.

Lemma create_loops_return_witness :
  exists st',
    loadCreates (fixedLoadNode partlyThere onlyOld) keyOrder (populate tt mixedEvents)
    = Ok (tt, st').
Proof.
  apply (create_loops_return (fixedLoadNode partlyThere onlyOld) keyOrder
                             (populate tt mixedEvents) partlyThere_definite).
  split; apply (bool_decide_unpack _); vm_compute; exact I.
Defined.

Lemma detectFolderMoves_spec_sends_nothing {World}
      (LoadNode : common.Endpoint -> World -> string -> option bool ->
                  (option tree.Node * error) * World)
      (rangeOrder : World -> list string -> list string * World)
      (s s' : St World) :
  detectFolderMoves_spec LoadNode rangeOrder s = Ok (tt, s') -> sent s' = sent s.
Proof.
  intros Hrun.
  refine (triple_range rangeOrder (fun st => sent st = sent s) Deletes _ _ _
            s tt s' eq_refl Hrun); [auto|].
  intros k p. unfold detectFolderMove_spec.
  set (P := fun st : St World => sent st = sent s).
  apply (triple_bind _ (fun _ => P)); [apply triple_deref; unfold P; tauto|].
  intros d. apply (triple_bind _ (fun _ => P)).
  { apply inv_loadDeleteNode. auto. }
  intros [n|]; [|apply triple_ret; auto].
  destruct (tree.IsLeaf n); [apply triple_ret; auto|].
  apply (triple_bind _ (fun _ => P)); [apply triple_gets; auto|].
  intros [|[k' c] [|]]; try (apply triple_ret; auto).
  apply (triple_bind _ (fun _ => P)); [apply triple_deref; auto|]. intros e.
  apply (triple_bind _ (fun _ => P)); [apply triple_modify; auto|]. intros _.
  apply (triple_bind _ (fun _ => P)); [apply triple_modify; auto|]. intros _.
  apply (triple_bind _ (fun _ => P)); [apply triple_modify; auto|]. intros _.
  apply triple_modify; auto.
Qed.

Lemma FilterBatch_notifies_start_then_end_witness :
  match processFixed partlyThere onlyOld mixedEvents false with
  | Ok (_, st') => sent st' = ([] ++ ["filter:start"; "filter:end"])%list
  | Panic _ => False
  end.
Proof.
  destruct (processFixed _ _ _ _) as [[[] st']|msg] eqn:Hrun.
  - exact (FilterBatch_notifies_start_then_end
             (fixedLoadNode partlyThere onlyOld) keyOrder
             (detectFolderMoves_spec (fixedLoadNode partlyThere onlyOld) keyOrder)
             sortClosestMoves_spec (populate tt mixedEvents) st'
             (detectFolderMoves_spec_sends_nothing _ _) Hrun).
  - vm_compute in Hrun. discriminate.
Defined.

(** ** The batch that [ProcessEvents] builds is well formed *)

Lemma populate_entry {World} (w : World) (events : list common.EventInfo)
      (c : Collection) (k : string) (i : ptr) :
  entries c (batch (populate w events)) !! k = Some i ->
  exists e, heap (populate w events) !! i = Some (batched e) /\
            collectionOf e = c /\ common.Path e = k.
Proof.
  intros Hk. apply populate_entries in Hk as (e & He & Hc & Hp & _).
  exists e. rewrite populate_heap, He. auto.
Qed.

(** X16: the batch that [ProcessEvents] hands to the filter is well formed.
    Whatever the events, every entry of [CreateFiles], [CreateFolders] and
    [Deletes] is an event of the heap filed under its own key, no event is
    filed in two collections, and no event has a node yet. *)
Theorem populate_is_well_formed {World} (w : World) (events : list common.EventInfo) :
  let st := populate w events in
  (forall c, wellKeyed (heap st) (entries c (batch st))) /\
  (forall c c', c <> c' -> ptrsApart (entries c (batch st)) (entries c' (batch st))) /\
  createsInHeap st /\
  (forall p, ~ hasNode (heap st) p).
Proof.
  intros st. subst st. split; [|split; [|split; [split|]]].
  - intros c k i Hk. apply populate_entry in Hk as (e & He & _ & Hp).
    cbn beta. rewrite He. cbn. now rewrite Hp.
  - intros c c' Hne k1 k2 i H1 H2.
    apply populate_entries in H1 as (e1 & He1 & Hc1 & _).
    apply populate_entries in H2 as (e2 & He2 & Hc2 & _).
    congruence.
  - intros k i Hk. apply (populate_entry w events InCreateFiles) in Hk as (e & He & _).
    cbn. eauto.
  - intros k i Hk. apply (populate_entry w events InCreateFolders) in Hk as (e & He & _).
    cbn. eauto.
  - intros p [n Hn]. rewrite populate_heap in Hn.
    destruct (events !! p); discriminate.
Qed.

Lemma no_delete_no_move_witness :
  exists w,
    detectCommitPrune (fixedLoadNode partlyThere onlyOld) keyOrder
                      sortClosestMoves_spec (populate tt createsOnly) =
    Ok (tt, mkSt w (probes (populate tt createsOnly)) (heap (populate tt createsOnly))
                 (batch (populate tt createsOnly)) [] []
                 (sent (populate tt createsOnly))).
Proof.
  apply (no_delete_no_move (fixedLoadNode partlyThere onlyOld) keyOrder
                           sortClosestMoves_spec (populate tt createsOnly)).
  - vm_compute. reflexivity.
  - exact sortClosestMoves_spec_picks.
Defined.

Lemma keyOrder_distinct : rangeDistinct keyOrder.
Proof. intros w ks Hks. exact Hks. Qed.

Lemma refreshed_are_the_creates_without_uuid_witness :
  match enrichCreates (fixedLoadNode partlyThere onlyOld) keyOrder
                      (populate tt mixedEvents) with
  | Ok (_, st') =>
      (forall k p,
         RefreshFilesUuid (batch st') !! k = Some p <->
         CreateFiles (batch st') !! k = Some p /\ needsUuid (heap st') p) /\
      is_Some (RefreshFilesUuid (batch st') !! "/a") /\
      RefreshFilesUuid (batch st') !! "/d" = None
  | Panic _ => False
  end.
Proof.
  destruct (enrichCreates _ _ _) as [[[] st']|msg] eqn:Hrun.
  - split.
    + apply (refreshed_are_the_creates_without_uuid
               (fixedLoadNode partlyThere onlyOld) keyOrder
               (populate tt mixedEvents) st' keyOrder_covers keyOrder_distinct);
        [| | |exact Hrun].
      * apply (bool_decide_unpack _). vm_compute. exact I.
      * apply ptrsApart_computed, (bool_decide_unpack _). vm_compute. exact I.
      * vm_compute. reflexivity.
    + vm_compute in Hrun. injection Hrun as <-. split; vm_compute; eauto.
  - vm_compute in Hrun. discriminate.
Defined.

Lemma picked_moves_are_committed_witness :
  match commitClosestMoves sortClosestMoves_spec renamedByEtag with
  | Ok (_, st') =>
      Forall (committed (heap renamedByEtag) st')
             (sortClosestMoves_spec (heap renamedByEtag) (possibleMoves renamedByEtag)) /\
      length (sortClosestMoves_spec (heap renamedByEtag) (possibleMoves renamedByEtag)) = 1 /\
      is_Some (FileMoves (batch st') !! "/b") /\
      Deletes (batch st') !! "/a" = None
  | Panic _ => False
  end.
Proof.
  destruct (commitClosestMoves sortClosestMoves_spec renamedByEtag)
    as [[[] st']|msg] eqn:Hrun.
  - split; [exact (proj1 (picked_moves_are_committed _ _ _ Hrun))|].
    vm_compute in Hrun. injection Hrun as <-. repeat split; vm_compute; eauto.
  - vm_compute in Hrun. discriminate.
Defined.

